(** * HyperSTructureTool: the ingestion core, embedded and verified

    A shallow embedding of the parts of the ingestion pipeline that the
    design document makes promises about:

    - [Sha1]: the SHA-1 digest used by the content-addressed identifiers
      ([hashlib.sha1(...).hexdigest()]);
    - [Identity]: [cypher_escape], the context-id key of each code path of
      [utils/cypher_generator.py] and the hyperedge-id key;
    - [Geocoder]: the polygon decimation of [expand_spatial];
    - [Text]: Python's [str.strip], [str.lower], [str.split] and [in] on
      the UTF-8 encoding of a text;
    - [Unicode]: a [str] as its sequence of code points, with [len],
      [str.strip], [str.join] and [re.split] on the one pattern the
      pipeline uses;
    - [Classifier]: [detect_modification_sentences];
    - [Segmenter]: [split_into_sentences] and [split_text_into_chunks];
    - [Graph]: the property graph and the effect of the MERGE / CREATE /
      DELETE clauses that the generated statements consist of;
    - [Writer]: the fresh-creation, append, rewiring and deletion
      statements, and [_find_appendable_hyperedge];
    - [Pipeline]: the success / failure tallies and the gate in front of the
      causal-inference phase of [chunking_streaming_pipeline].

    Where identifiers, literals and keywords are concerned, Python [str]
    values are modelled as [string] (a sequence of 8-bit characters): the
    text is taken in its UTF-8 encoding, which is what the hashes are
    computed over, and which orders strings the way Python orders them by
    code point; case folding and white space are the ASCII ones there.
    The sentence splitters count characters and cut at white space, so
    their texts are sequences of code points ([Unicode.str]) with the
    white space of [str.isspace]. *)

From stdpp Require Import base strings list sorting gmap pretty.
From Stdlib Require Import ZArith NArith Ascii.

(** ** SHA-1 (FIPS 180-4), as [hashlib.sha1] computes it *)

Module Sha1.
Local Open Scope N_scope.

Definition mask32 : N := 0xFFFFFFFF.

(** 32-bit words are [N] with the wrap-around written out. *)
Definition add32 (a b : N) : N := N.land (a + b) mask32.
Definition rotl32 (n x : N) : N :=
  N.lor (N.land (N.shiftl x n) mask32) (N.shiftr x (32 - n)).
Definition not32 (x : N) : N := N.lxor x mask32.

Definition bytes_of_string (s : string) : list N :=
  N_of_ascii <$> String.list_ascii_of_string s.

(** The [k] low bytes of [v], most significant first. *)
Definition be_bytes (k : nat) (v : N) : list N :=
  (λ i, N.land (N.shiftr v (8 * N.of_nat i)) 0xFF) <$> reverse (seq 0 k).

(** Padding: one 0x80 byte, zero bytes up to 56 modulo 64, then the bit
    length of the message on 64 bits. *)
Definition pad (msg : list N) : list N :=
  let len := N.of_nat (List.length msg) in
  let zeros := N.to_nat ((119 - len mod 64) mod 64) in
  msg ++ [0x80] ++ replicate zeros 0 ++ be_bytes 8 (8 * len).

Fixpoint words_of_bytes (l : list N) : list N :=
  match l with
  | a :: b :: c :: d :: r =>
      N.lor (N.shiftl a 24) (N.lor (N.shiftl b 16) (N.lor (N.shiftl c 8) d))
      :: words_of_bytes r
  | _ => []
  end.

Fixpoint blocks_of_words (fuel : nat) (ws : list N) : list (list N) :=
  match fuel with
  | O => []
  | S fuel' =>
      match ws with
      | [] => []
      | _ => take 16 ws :: blocks_of_words fuel' (drop 16 ws)
      end
  end.

(** The message schedule, kept most recent word first while it grows. *)
Fixpoint extend_schedule (n : nat) (rw : list N) : list N :=
  match n with
  | O => rw
  | S n' =>
      let w := rotl32 1 (N.lxor (nth 2 rw 0)
                          (N.lxor (nth 7 rw 0)
                             (N.lxor (nth 13 rw 0) (nth 15 rw 0)))) in
      extend_schedule n' (w :: rw)
  end.

Definition schedule (block : list N) : list N :=
  reverse (extend_schedule 64 (reverse block)).

Definition state : Type := N * N * N * N * N.

Definition round_f (t : nat) (b c d : N) : N :=
  if (t <? 20)%nat then N.lor (N.land b c) (N.land (not32 b) d)
  else if (t <? 40)%nat then N.lxor b (N.lxor c d)
  else if (t <? 60)%nat then
    N.lor (N.land b c) (N.lor (N.land b d) (N.land c d))
  else N.lxor b (N.lxor c d).

Definition round_k (t : nat) : N :=
  if (t <? 20)%nat then 0x5A827999
  else if (t <? 40)%nat then 0x6ED9EBA1
  else if (t <? 60)%nat then 0x8F1BBCDC
  else 0xCA62C1D6.

Definition round (st : state) (tw : nat * N) : state :=
  let '(a, b, c, d, e) := st in
  let '(t, w) := tw in
  let temp :=
    add32 (add32 (add32 (add32 (rotl32 5 a) (round_f t b c d)) e)
             (round_k t)) w in
  (temp, a, rotl32 30 b, c, d).

Definition compress (h : state) (block : list N) : state :=
  let '(h0, h1, h2, h3, h4) := h in
  let '(a, b, c, d, e) :=
    foldl round h (zip (seq 0 80) (schedule block)) in
  (add32 h0 a, add32 h1 b, add32 h2 c, add32 h3 d, add32 h4 e).

Definition initial : state :=
  (0x67452301, 0xEFCDAB89, 0x98BADCFE, 0x10325476, 0xC3D2E1F0).

Definition digest (msg : list N) : state :=
  let ws := words_of_bytes (pad msg) in
  foldl compress initial (blocks_of_words (List.length ws) ws).

Definition hex_digit (n : N) : ascii :=
  if n <? 10 then ascii_of_N (48 + n) else ascii_of_N (87 + n).

(** A 32-bit word as eight lower-case hexadecimal digits. *)
Definition hex8 (w : N) : string :=
  String.string_of_list_ascii
    ((λ i, hex_digit (N.land (N.shiftr w (4 * N.of_nat i)) 0xF))
       <$> reverse (seq 0 8)).

(** [hashlib.sha1(s.encode('utf-8')).hexdigest()] *)
Definition hexdigest (s : string) : string :=
  let '(h0, h1, h2, h3, h4) := digest (bytes_of_string s) in
  hex8 h0 +:+ hex8 h1 +:+ hex8 h2 +:+ hex8 h3 +:+ hex8 h4.

(** [hexdigest()[:16]] *)
Definition hex16 (s : string) : string :=
  String.substring 0 16 (hexdigest s).
End Sha1.

(** ** Python string operations used by the pipeline *)

Module Text.
(** [str.isspace] on the ASCII range (tab to carriage return, the four
    separators 0x1c to 0x1f, and space); the same set is what [\s]
    matches and what [str.strip] removes. *)
Definition is_space (c : ascii) : bool :=
  let n := nat_of_ascii c in
  ((9 <=? n)%nat && (n <=? 13)%nat) || ((28 <=? n)%nat && (n <=? 32)%nat).

Definition lower_char (c : ascii) : ascii :=
  let n := nat_of_ascii c in
  if (65 <=? n)%nat && (n <=? 90)%nat then ascii_of_nat (n + 32) else c.

(** [s.lower()] *)
Fixpoint lower (s : string) : string :=
  match s with
  | "" => ""
  | String c r => String (lower_char c) (lower r)
  end.

Fixpoint lstrip (s : string) : string :=
  match s with
  | "" => ""
  | String c r => if is_space c then lstrip r else s
  end.

Fixpoint rstrip (s : string) : string :=
  match s with
  | "" => ""
  | String c r =>
      match rstrip r with
      | "" => if is_space c then "" else String c ""
      | r' => String c r'
      end
  end.

(** [s.strip()] *)
Definition strip (s : string) : string := rstrip (lstrip s).

Fixpoint starts_with (p s : string) : bool :=
  match p, s with
  | "", _ => true
  | String a p', String b s' => bool_decide (a = b) && starts_with p' s'
  | String _ _, "" => false
  end.

(** [p in s] *)
Fixpoint contains (p s : string) : bool :=
  starts_with p s ||
  match s with
  | "" => false
  | String _ r => contains p r
  end.

(** The first piece grows by one character. *)
Definition cons_head (c : ascii) (l : list string) : list string :=
  match l with
  | [] => [String c ""]
  | x :: xs => String c x :: xs
  end.

(** [s.split(sep)] for a separator of one character. *)
Fixpoint split_char (sep : ascii) (s : string) : list string :=
  match s with
  | "" => [""]
  | String c r =>
      if bool_decide (c = sep) then "" :: split_char sep r
      else cons_head c (split_char sep r)
  end.

(** [s.replace(c, by)] for a pattern of one character. *)
Fixpoint replace_char (c : ascii) (by_ : string) (s : string) : string :=
  match s with
  | "" => ""
  | String a r =>
      if bool_decide (a = c) then by_ +:+ replace_char c by_ r
      else String a (replace_char c by_ r)
  end.

(** [sep.join(l)] *)
Definition join (sep : string) (l : list string) : string :=
  String.concat sep l.

(** [s.count(c)] for a single character *)
Fixpoint count_char (c : ascii) (s : string) : nat :=
  match s with
  | "" => 0
  | String a r => (if bool_decide (a = c) then 1 else 0) + count_char c r
  end.

Definition is_terminal (c : ascii) : bool :=
  bool_decide (c = "."%char) || bool_decide (c = "!"%char)
  || bool_decide (c = "?"%char).

(** Vocabulary for stating what [strip] removes. *)

Fixpoint all_space (s : string) : bool :=
  match s with
  | "" => true
  | String c r => is_space c && all_space r
  end.

Fixpoint last_char (s : string) : option ascii :=
  match s with
  | "" => None
  | String c r => match last_char r with
                  | Some d => Some d
                  | None => Some c
                  end
  end.

Definition starts_with_space (s : string) : bool :=
  match s with
  | "" => false
  | String c _ => is_space c
  end.

(** All but the last element. *)
Definition but_last {A : Type} (l : list A) : list A :=
  take (List.length l - 1) l.
End Text.

(** ** Python [str] as a sequence of code points *)

Module Unicode.
(** A character of a [str] is a code point, and [len] counts them. *)
Definition char : Type := N.
Definition str : Type := list char.

(** [ord(a)] for an ASCII character [a] *)
Definition ord (a : ascii) : char := N_of_ascii a.

(** The [str] of an ASCII literal. *)
Fixpoint of_ascii (s : string) : str :=
  match s with
  | "" => []
  | String a r => ord a :: of_ascii r
  end.

(** [Py_UNICODE_ISSPACE]: the characters that [str.isspace] accepts, that
    [\s] matches in a [str] pattern and that [str.strip()] removes.
    These are tab to carriage return, the separators U+001C to U+001F,
    space, U+0085, U+00A0, U+1680, U+2000 to U+200A, U+2028, U+2029,
    U+202F, U+205F and U+3000. *)
Definition is_space (c : char) : bool :=
  ((9 <=? c) && (c <=? 13) || (28 <=? c) && (c <=? 32)
   || (c =? 0x85) || (c =? 0xA0) || (c =? 0x1680)
   || (0x2000 <=? c) && (c <=? 0x200A)
   || (c =? 0x2028) || (c =? 0x2029) || (c =? 0x202F) || (c =? 0x205F)
   || (c =? 0x3000))%N.

Fixpoint lstrip (s : str) : str :=
  match s with
  | [] => []
  | c :: r => if is_space c then lstrip r else s
  end.

Fixpoint rstrip (s : str) : str :=
  match s with
  | [] => []
  | c :: r =>
      match rstrip r with
      | [] => if is_space c then [] else [c]
      | r' => c :: r'
      end
  end.

(** [s.strip()] *)
Definition strip (s : str) : str := rstrip (lstrip s).

(** [sep.join(l)] *)
Fixpoint join (sep : str) (l : list str) : str :=
  match l with
  | [] => []
  | [x] => x
  | x :: xs => x ++ sep ++ join sep xs
  end.

(** The first piece grows by one character. *)
Definition cons_head (c : char) (l : list str) : list str :=
  match l with
  | [] => [[c]]
  | x :: xs => (c :: x) :: xs
  end.

(** The class [[.!?]] *)
Definition is_terminal (c : char) : bool :=
  bool_decide (c = ord ".") || bool_decide (c = ord "!")
  || bool_decide (c = ord "?").

(** Where the scan of [re.split(r'(?<=[.!?])\s+', text)] stands: right
    after a terminal mark, inside a separator that is being consumed, or
    anywhere else. *)
Inductive scan := AfterTerminal | InSeparator | Elsewhere.

Definition scan_of (c : char) : scan :=
  if is_terminal c then AfterTerminal else Elsewhere.

(** The pieces of the text from the current position on; the head of the
    result is the rest of the piece being read.  A separator is a
    maximal run of white space that directly follows a terminal mark. *)
Fixpoint re_split_go (st : scan) (s : str) : list str :=
  match s with
  | [] => [[]]
  | c :: r =>
      match st with
      | InSeparator =>
          if is_space c then re_split_go InSeparator r
          else cons_head c (re_split_go (scan_of c) r)
      | AfterTerminal =>
          if is_space c then [] :: re_split_go InSeparator r
          else cons_head c (re_split_go (scan_of c) r)
      | Elsewhere => cons_head c (re_split_go (scan_of c) r)
      end
  end.

(** [re.split(r'(?<=[.!?])\s+', text)] *)
Definition re_split_sentences (text : str) : list str :=
  re_split_go Elsewhere text.

(** Vocabulary for stating what a split is. *)

Definition all_space (s : str) : bool := forallb is_space s.

(** A separator: a run of white space that is not empty. *)
Definition is_separator (s : str) : Prop :=
  s ≠ [] ∧ all_space s = true.

(** The pieces with the separators put back between them. *)
Fixpoint interleave (pieces seps : list str) : str :=
  match pieces, seps with
  | p :: ps, sep :: seps' => p ++ sep ++ interleave ps seps'
  | p :: _, [] => p
  | [], _ => []
  end.

Definition ends_with_terminal (s : str) : Prop :=
  ∃ c, last s = Some c ∧ is_terminal c = true.

Definition starts_with_space (s : str) : bool :=
  match s with
  | [] => false
  | c :: _ => is_space c
  end.

(** A terminal mark directly followed by white space. *)
Fixpoint has_split_point (s : str) : bool :=
  match s with
  | [] => false
  | a :: r => (is_terminal a && starts_with_space r) || has_split_point r
  end.

(** [if sentence] *)
Definition non_empty (s : str) : bool := negb (bool_decide (s = [])).
End Unicode.

(** ** Identity and escaping ([utils/cypher_generator.py]) *)

Module Identity.
(** The values [cypher_escape] is applied to. *)
Inductive pyvalue :=
| PyNone
| PyStr (s : string)
| PyInt (z : Z)
| PyBool (b : bool).

(** [str(value)] *)
Definition py_str (v : pyvalue) : string :=
  match v with
  | PyNone => "None"
  | PyStr s => s
  | PyInt z => pretty z
  | PyBool true => "True"
  | PyBool false => "False"
  end.

Definition quote : ascii := "'"%char.

(** [s.replace("'", "''")] *)
Definition double_quotes (s : string) : string :=
  Text.replace_char quote "''" s.

(** [cypher_escape(value)] *)
Definition cypher_escape (value : pyvalue) : string :=
  double_quotes (match value with PyNone => "" | _ => py_str value end).

(** [cypher_quote(value)] *)
Definition cypher_quote (value : pyvalue) : string :=
  "'" +:+ cypher_escape value +:+ "'".

(** [s.replace("'", "\\'")]: a backslash in front of each quote. *)
Definition backslash_quotes (s : string) : string :=
  Text.replace_char quote (String "\"%char "'") s.

(** A time bound as the writer receives it: [None] when the key is
    absent or holds [None]. *)
Definition bound : Type := option string.

(** [t in (None, '', 'null')] *)
Definition is_null_bound (t : bound) : bool :=
  match t with
  | None => true
  | Some s => bool_decide (s = "") || bool_decide (s = "null")
  end.

(** [start_key] / [end_key] *)
Definition bound_key (t : bound) : string :=
  if is_null_bound t then "__NULL__" else default "" t.

(** [cypher_escape(x) if x else 'unknown'], which is also
    [cypher_escape(x or 'unknown')] *)
Definition escaped_or_unknown (x : option string) : string :=
  match x with
  | None => "unknown"
  | Some s => if bool_decide (s = "") then "unknown"
              else cypher_escape (PyStr s)
  end.

(** [x.replace("'", "\\'") if x else 'unknown'] *)
Definition backslashed_or_unknown (x : option string) : string :=
  match x with
  | None => "unknown"
  | Some s => if bool_decide (s = "") then "unknown"
              else backslash_quotes s
  end.

(** No single quote in a name or type. *)
Definition quote_free (x : option string) : Prop :=
  match x with
  | None => True
  | Some s => Text.count_char quote s = 0
  end.

(** The signature of a geometry that is not a point:
    ['geo:' + sha1(coords_min or 'null')[:16]], from the minimised JSON
    text of the coordinates. *)
Definition geo_signature (coords_min : string) : string :=
  "geo:" +:+ Sha1.hex16 (if bool_decide (coords_min = "") then "null"
                         else coords_min).

Definition ctx_id_of_key (key_str : string) : string :=
  "ctx_" +:+ Sha1.hex16 key_str.

(** The content of a context as far as its identity goes.  The coordinate
    signature is carried as text: its point form prints rounded floats. *)
Record context_content := {
  cc_start : bound;
  cc_end : bound;
  cc_name : option string;
  cc_type : option string;
  cc_coord_sig : string
}.

(** Fresh creation (the branch that creates a new hyperedge). *)
Definition fresh_key (c : context_content) : string :=
  bound_key (cc_start c) +:+ "|" +:+ bound_key (cc_end c) +:+ "|" +:+
  escaped_or_unknown (cc_name c) +:+ "|" +:+
  escaped_or_unknown (cc_type c) +:+ "|" +:+ cc_coord_sig c.

Definition fresh_context_id (c : context_content) : string :=
  ctx_id_of_key (fresh_key c).

(** [_generate_append_cypher], contexts for new temporal intervals. *)
Definition append_temporal_key (c : context_content) : string :=
  bound_key (cc_start c) +:+ "|" +:+ bound_key (cc_end c) +:+ "|" +:+
  escaped_or_unknown (cc_name c) +:+ "|" +:+
  escaped_or_unknown (cc_type c) +:+ "|" +:+ cc_coord_sig c.

Definition append_temporal_context_id (c : context_content) : string :=
  ctx_id_of_key (append_temporal_key c).

(** [_generate_append_cypher], contexts for new spatial contexts. *)
Definition append_spatial_key (c : context_content) : string :=
  bound_key (cc_start c) +:+ "|" +:+ bound_key (cc_end c) +:+ "|" +:+
  backslashed_or_unknown (cc_name c) +:+ "|" +:+
  backslashed_or_unknown (cc_type c) +:+ "|" +:+ cc_coord_sig c.

Definition append_spatial_context_id (c : context_content) : string :=
  ctx_id_of_key (append_spatial_key c).

(** The modification branch that rewires a hyperedge to one new context. *)
Definition modification_key (c : context_content) : string :=
  bound_key (cc_start c) +:+ "|" +:+
  escaped_or_unknown (cc_name c) +:+ "|" +:+
  escaped_or_unknown (cc_type c) +:+ "|" +:+ cc_coord_sig c +:+ "|" +:+
  bound_key (cc_end c).

Definition modification_context_id (c : context_content) : string :=
  ctx_id_of_key (modification_key c).

(** [sorted(l)] on strings.  The order is total and antisymmetric, so the
    result does not depend on the sorting algorithm. *)
Definition sorted (l : list string) : list string :=
  merge_sort String.le l.

(** [set(l)], enumerated in order of first occurrence (Python leaves the
    order unspecified; every use sorts the result). *)
Definition py_set (l : list string) : list string := remove_dups l.

Definition hyperedge_key (relation_type : string)
    (subjects objects context_ids : list string) : string :=
  Text.join "||"
    [ cypher_escape (PyStr relation_type);
      Text.join "|" ((λ s, cypher_escape (PyStr s)) <$> sorted subjects);
      Text.join "|" ((λ o, cypher_escape (PyStr o)) <$> sorted objects);
      Text.join "|" (sorted (sorted (py_set context_ids))) ].

(** [deterministic_he_id] *)
Definition hyperedge_id (relation_type : string)
    (subjects objects context_ids : list string) : string :=
  "he_" +:+ Sha1.hex16 (hyperedge_key relation_type subjects objects
                          context_ids).

(** *** Literals that [_generate_append_cypher] interpolates *)

(** [from_time] / [to_time] of a context that the append statement
    creates: the bound between quotes. *)
Definition append_time_literal (t : bound) : string :=
  if is_null_bound t then "null" else "'" +:+ default "" t +:+ "'".

(** [location_name = '...'] in the branch for new temporal intervals. *)
Definition append_temporal_name_literal (name : option string) : string :=
  "'" +:+ escaped_or_unknown name +:+ "'".

(** [location_name = '...'] in the branch for new spatial contexts. *)
Definition append_spatial_name_literal (name : option string) : string :=
  "'" +:+ backslashed_or_unknown name +:+ "'".

(** [MERGE (new_subject_i:Node {id: '...'})] *)
Definition append_entity_literal (name : string) : string :=
  "'" +:+ cypher_escape (PyStr name) +:+ "'".

(** [from_time_lit] / [to_time_lit] of the modification branch. *)
Definition modification_time_literal (t : bound) : string :=
  if is_null_bound t then "null" else cypher_quote (PyStr (default "" t)).
End Identity.

(** ** Polygon decimation ([expand_spatial] in [utils/process_text.py]) *)

Module Geocoder.
Section Decimation.
(** A vertex is a [[lon, lat]] pair; only its equality matters here. *)
Context {vertex : Type} `{EqDecision vertex}.

Definition ring : Type := list vertex.

Definition MAX_POINTS : nat := 20.

Definition ensure_closed (r : ring) : ring :=
  match r, last r with
  | v0 :: _, Some vl => if decide (v0 = vl) then r else r ++ [v0]
  | _, _ => r
  end.

(** [ring[:-1]] when the ring is closed *)
Definition ring_unique_vertices (r : ring) : ring :=
  match r, last r with
  | v0 :: _, Some vl =>
      if decide (v0 = vl) then take (List.length r - 1) r else r
  | _, _ => r
  end.

(** The [while] loop that collects the sampled indices, with the
    products taken exactly: for [step = n / float(target)] the test
    [k * step < n] is taken as [k * n < n * target] and [int(k * step)]
    as [k * n / target].  Python rounds the quotient and the product to
    double precision, which can give the index one below the exact one
    ([int(15 * (164 / 20.0))] is 122, not 123); the two agree when
    [target] divides [n] and [n] is below [2 ** 53], since every
    intermediate value is then an integer that a double holds. *)
Fixpoint sample_indices (fuel n target k : nat) (indices : list nat)
    : list nat :=
  match fuel with
  | O => indices
  | S fuel' =>
      if (List.length indices <? target)%nat && (k * n <? n * target)%nat
      then
        let idx := (k * n / target)%nat in
        let indices' :=
          match last indices with
          | Some i => if decide (idx = i) then indices
                      else indices ++ [idx]
          | None => indices ++ [idx]
          end in
        sample_indices fuel' n target (S k) indices'
      else indices
  end.

(** [if not out or out[0] != out[-1]: out = out + [out[0]]]; [None] is
    the [IndexError] of [out[0]] on an empty list. *)
Definition close_ring (out : ring) : option ring :=
  match out, last out with
  | v0 :: _, Some vl => Some (if decide (v0 = vl) then out else out ++ [v0])
  | _, _ => None
  end.

(** [decimate_ring(ring, target_vertices)]; [None] stands for the
    exception Python raises ([out[0]] on an empty list, a division by
    zero, an index out of range). *)
Definition decimate_ring (r : ring) (target_vertices : nat)
    : option ring :=
  let r := ensure_closed r in
  let unique := ring_unique_vertices r in
  let n := List.length unique in
  out ← (if (n <=? Nat.max 4 target_vertices)%nat then Some unique
         else if decide (target_vertices = 0%nat) then None
         else
           let indices :=
             sample_indices (S target_vertices) n target_vertices 0 [] in
           let indices :=
             if decide (0%nat ∈ indices) then indices
             else 0%nat :: indices in
           let indices := take target_vertices indices in
           mapM (λ i, unique !! i) indices);
  close_ring out.

(** A ring whose last position repeats the first. *)
Definition closed (r : ring) : Prop :=
  r ≠ [] ∧ head r = last r.

(** The GeoJSON geometries that are simplified. *)
Inductive geometry :=
| Polygon (rings : list ring)
| MultiPolygon (polygons : list (list ring)).

(** What [expand_spatial] stores for a boundary: the point supplied
    with the place, or the simplified geometry. *)
Inductive simplified :=
| ProviderPoint
| Geometry (g : geometry).

Definition polygons_of (g : geometry) : list (list ring) :=
  match g with
  | Polygon rings => [rings]
  | MultiPolygon polygons => polygons
  end.

Definition num_rings (g : geometry) : nat :=
  sum_list (List.length <$> polygons_of g).

Definition simplify (g : geometry) : option simplified :=
  let polygons := polygons_of g in
  let num_rings := num_rings g in
  if decide (num_rings = 0%nat) then Some ProviderPoint
  else if (MAX_POINTS <? num_rings * 4)%nat then Some ProviderPoint
  else
    let per_ring_cap := Nat.max 4 (MAX_POINTS / num_rings) in
    simplified_polygons ←
      mapM (λ poly, mapM (λ r, decimate_ring r per_ring_cap) poly)
           polygons;
    match g with
    | Polygon _ =>
        rings ← head simplified_polygons; Some (Geometry (Polygon rings))
    | MultiPolygon _ => Some (Geometry (MultiPolygon simplified_polygons))
    end.

(** The total vertex count across all rings, as stored. *)
Definition vertex_count (g : geometry) : nat :=
  sum_list ((λ poly, sum_list (List.length <$> poly)) <$> polygons_of g).

(** The same count without the closing position of each ring: the
    vertices in the sense of [ring_unique_vertices]. *)
Definition kept_vertex_count (g : geometry) : nat :=
  sum_list ((λ poly, sum_list ((λ r, List.length (ring_unique_vertices r))
                                 <$> poly))
              <$> polygons_of g).

Definition all_rings (P : ring → Prop) (g : geometry) : Prop :=
  Forall (Forall P) (polygons_of g).
End Decimation.

(** A ring of [n] distinct vertices [0 .. n-1], closed. *)
Definition closed_ring (n : nat) : list nat := seq 0 n ++ [0%nat].

(** The indices of an even stride, taken exactly: [k * n // target] for
    [k = 0 .. target - 1]. *)
Definition stride_indices (n target : nat) : list nat :=
  (λ k, k * n / target) <$> seq 0 target.
End Geocoder.

(** ** The classifier ([detect_modification_sentences]) *)

Module Classifier.
Definition modification_indicators : list string :=
  ["actually"; "in fact"; "oops"; "my mistake"; "update"; "correction";
   "modification"].

Definition non_empty (s : string) : bool := negb (bool_decide (s = "")).

(** [[s.strip() for s in text.split('.') if s.strip()]] *)
Definition sentences (text : string) : list string :=
  List.filter non_empty (Text.strip <$> Text.split_char "."%char text).

(** [any(indicator in sentence.lower() for indicator in ...)] *)
Definition is_modification (sentence : string) : bool :=
  existsb (λ indicator, Text.contains indicator (Text.lower sentence))
          modification_indicators.

Definition regular_sentences (text : string) : list string :=
  List.filter (λ s, negb (is_modification s)) (sentences text).

Definition modification_sentences (text : string) : list string :=
  List.filter is_modification (sentences text).

(** The pair the keyword pass returns. *)
Definition keyword_result (text : string) : string * string :=
  ( match regular_sentences text with
    | [] => text
    | l => Text.join ". " l
    end,
    match modification_sentences text with
    | [] => ""
    | l => Text.join ". " l
    end ).

(** What the refinement call comes back with: an exception (from the
    client's construction or from the request), [None], or the text of
    the answer. *)
Inductive llm_outcome :=
| LlmRaises
| LlmReturnsNone
| LlmReturns (response : string).

Inductive section_name := Regular | Modification.

(** One step of the loop over the lines of the answer. *)
Definition read_line
    (st : option section_name * list string * list string)
    (line : string) : option section_name * list string * list string :=
  let '(current_section, regular, modification) := st in
  let line := Text.strip line in
  if bool_decide (line = "REGULAR:") then (Some Regular, regular, modification)
  else if bool_decide (line = "MODIFICATION:")
  then (Some Modification, regular, modification)
  else if non_empty line then
    match current_section with
    | Some Regular => (current_section, regular ++ [line], modification)
    | Some Modification => (current_section, regular, modification ++ [line])
    | None => st
    end
  else st.

Definition newline : ascii := ascii_of_nat 10.

Definition llm_result (text response : string) : string * string :=
  let '(_, llm_regular, llm_modification) :=
    foldl read_line (None, [], [])
          (Text.split_char newline (Text.strip response)) in
  match llm_regular, llm_modification with
  | [], [] => keyword_result text
  | _, _ =>
      ( match llm_regular with
        | [] => text
        | l => Text.join (String newline "") l
        end,
        match llm_modification with
        | [] => ""
        | l => Text.join (String newline "") l
        end )
  end.

(** [detect_modification_sentences(text, with_LLM_call, ...)] *)
Definition detect_modification_sentences (text : string)
    (with_LLM_call : bool) (llm : llm_outcome) : string * string :=
  if negb with_LLM_call then keyword_result text
  else
    match llm with
    | LlmRaises => keyword_result text
    | LlmReturnsNone => keyword_result text
    | LlmReturns response => llm_result text response
    end.

(** Following the words of the design document: the text split on
    sentence-terminal punctuation (the full stop, the exclamation mark
    and the question mark). *)
Fixpoint split_on_terminal_punctuation (s : string) : list string :=
  match s with
  | "" => [""]
  | String c r =>
      if Text.is_terminal c then "" :: split_on_terminal_punctuation r
      else Text.cons_head c (split_on_terminal_punctuation r)
  end.

Definition sentences_by_terminal_punctuation (text : string)
    : list string :=
  List.filter non_empty (Text.strip <$> split_on_terminal_punctuation text).
End Classifier.

(** ** Sentence segmentation and chunking *)

Module Segmenter.
Import Unicode.

(** [split_into_sentences(text)] *)
Definition split_into_sentences (text : str) : list str :=
  List.filter (λ sentence, non_empty sentence
                           && (3 <? List.length sentence)%nat)
              (strip <$> re_split_sentences text).

(** The loop [for i in range(0, len(sentences), chunk_size)]. *)
Fixpoint chunk_loop (fuel i chunk_size : nat) (sentences : list str)
    : list (nat * str) :=
  match fuel with
  | O => []
  | S fuel' =>
      if (i <? List.length sentences)%nat then
        ((i / chunk_size)%nat,
         join (of_ascii " ") (take chunk_size (drop i sentences)))
        :: chunk_loop fuel' (i + chunk_size) chunk_size sentences
      else []
  end.

(** [split_text_into_chunks(text, chunk_size)]; [None] is the
    [ValueError] that [range] raises for a step of zero, and a negative
    step gives an empty range. *)
Definition split_text_into_chunks (text : str) (chunk_size : Z)
    : option (list (nat * str)) :=
  let sentences := split_into_sentences text in
  if decide (chunk_size = 0%Z) then None
  else if decide (chunk_size < 0)%Z then Some []
  else Some (chunk_loop (List.length sentences) 0 (Z.to_nat chunk_size)
                        sentences).
End Segmenter.

(** ** The property graph and the clauses of the generated statements *)

Module Graph.
Inductive role := Subject | Object.

#[global] Instance role_eq_dec : EqDecision role.
Proof. solve_decision. Defined.

Record hyperedge_props := {
  relation_type : string;
  entity_count : nat
}.

(** The coordinates are held as the text of their signature. *)
Record context_props := {
  from_time : option string;
  to_time : option string;
  location_name : option string;
  spatial_type : option string;
  coordinates : string
}.

#[global] Instance context_props_eq_dec : EqDecision context_props.
Proof. solve_decision. Defined.

(** Nodes are keyed by their [id] (the schema declares it unique for each
    label); relationships are kept as lists, since CREATE may add a
    second relationship between the same two nodes. *)
Record graph := {
  entities : gset string;
  hyperedges : gmap string hyperedge_props;
  contexts : gmap string context_props;
  connects : list (string * role * string);
  valid_in : list (string * string)
}.

Definition empty : graph :=
  {| entities := ∅; hyperedges := ∅; contexts := ∅;
     connects := []; valid_in := [] |}.

(** [MERGE (n:Node {id: ...})] *)
Definition merge_entity (id : string) (g : graph) : graph :=
  {| entities := {[id]} ∪ entities g; hyperedges := hyperedges g;
     contexts := contexts g; connects := connects g;
     valid_in := valid_in g |}.

(** [MERGE (c:Context {id: ...}) ON CREATE SET ...] *)
Definition merge_context (id : string) (p : context_props) (g : graph)
    : graph :=
  {| entities := entities g; hyperedges := hyperedges g;
     contexts := match contexts g !! id with
                 | Some _ => contexts g
                 | None => <[id := p]> (contexts g)
                 end;
     connects := connects g; valid_in := valid_in g |}.

(** [MERGE (h:Hyperedge {id: ...}) ON CREATE SET ...] *)
Definition merge_hyperedge (id : string) (p : hyperedge_props) (g : graph)
    : graph :=
  {| entities := entities g;
     hyperedges := match hyperedges g !! id with
                   | Some _ => hyperedges g
                   | None => <[id := p]> (hyperedges g)
                   end;
     contexts := contexts g; connects := connects g;
     valid_in := valid_in g |}.

(** [CREATE (h)-[:CONNECTS {role: r}]->(n)] *)
Definition create_connects (h : string) (r : role) (n : string) (g : graph)
    : graph :=
  {| entities := entities g; hyperedges := hyperedges g;
     contexts := contexts g; connects := connects g ++ [(h, r, n)];
     valid_in := valid_in g |}.

(** [MERGE (h)-[:CONNECTS {role: r}]->(n)] *)
Definition merge_connects (h : string) (r : role) (n : string) (g : graph)
    : graph :=
  if decide ((h, r, n) ∈ connects g) then g else create_connects h r n g.

(** [MERGE (h)-[:VALID_IN]->(c)] *)
Definition merge_valid_in (h c : string) (g : graph) : graph :=
  if decide ((h, c) ∈ valid_in g) then g
  else {| entities := entities g; hyperedges := hyperedges g;
          contexts := contexts g; connects := connects g;
          valid_in := valid_in g ++ [(h, c)] |}.

(** [count((h)-[:CONNECTS]->(:Node))] *)
Definition connects_count (h : string) (g : graph) : nat :=
  List.length (List.filter (λ e, bool_decide (e.1.1 = h)) (connects g)).

(** [WITH h MATCH (h)-[:CONNECTS]->(n:Node) WITH h, count(n) AS ec
    SET h.entity_count = ec]: with no relationship there is no row and
    nothing is set. *)
Definition recount (h : string) (g : graph) : graph :=
  match connects_count h g with
  | O => g
  | ec =>
      {| entities := entities g;
         hyperedges :=
           alter (λ p, {| relation_type := relation_type p;
                          entity_count := ec |}) h (hyperedges g);
         contexts := contexts g; connects := connects g;
         valid_in := valid_in g |}
  end.

(** [DELETE r] for every [(h)-[r:VALID_IN]->(c)] with [h] among the rows
    and [c] accepted by [sel]. *)
Definition delete_valid_in (rows : list string) (sel : string → bool)
    (g : graph) : graph :=
  {| entities := entities g; hyperedges := hyperedges g;
     contexts := contexts g; connects := connects g;
     valid_in :=
       List.filter (λ e, negb (bool_decide (e.1 ∈ rows) && sel e.2))
                   (valid_in g) |}.

(** [NOT (c)<-[:VALID_IN]-()] *)
Definition orphaned (c : string) (g : graph) : bool :=
  bool_decide (c ∉ (valid_in g).*2).

(** [DETACH DELETE c] for a context *)
Definition detach_delete_context (c : string) (g : graph) : graph :=
  {| entities := entities g; hyperedges := hyperedges g;
     contexts := delete c (contexts g); connects := connects g;
     valid_in := List.filter (λ e, negb (bool_decide (e.2 = c)))
                             (valid_in g) |}.

(** [WITH c WHERE c IS NOT NULL AND NOT (c)<-[:VALID_IN]-()
    DETACH DELETE c], over the contexts bound in the rows.  The filter is
    evaluated on the graph as the preceding DELETE left it. *)
Definition delete_orphans (cs : list string) (g : graph) : graph :=
  foldl (λ g' c, detach_delete_context c g') g
        (List.filter (λ c, orphaned c g) cs).

(** [DETACH DELETE h] for a hyperedge *)
Definition detach_delete_hyperedge (h : string) (g : graph) : graph :=
  {| entities := entities g; hyperedges := delete h (hyperedges g);
     contexts := contexts g;
     connects := List.filter (λ e, negb (bool_decide (e.1.1 = h)))
                             (connects g);
     valid_in := List.filter (λ e, negb (bool_decide (e.1 = h)))
                             (valid_in g) |}.

(** The contexts a hyperedge is valid in, one per relationship. *)
Definition contexts_of (h : string) (g : graph) : list string :=
  (List.filter (λ e, bool_decide (e.1 = h)) (valid_in g)).*2.

(** [collect(DISTINCT n.id)] over [(h)-[:CONNECTS {role: r}]->(n)] *)
Definition connected (h : string) (r : role) (g : graph) : list string :=
  remove_dups
    ((List.filter (λ e, bool_decide (e.1.1 = h) && bool_decide (e.1.2 = r))
                  (connects g)).*2).

(** The invariants of the design document. *)
Definition entity_count_consistent (h : string) (g : graph) : Prop :=
  entity_count <$> (hyperedges g !! h) = Some (connects_count h g).

Definition no_orphan_context (g : graph) : Prop :=
  ∀ c, is_Some (contexts g !! c) → c ∈ (valid_in g).*2.
End Graph.

(** ** The graph writer ([CypherGenerator], [Neo4jStorage.delete_hyperedge]) *)

Module Writer.
Import Graph.

(** A geocoded spatial context: [{name, type, coordinates}]. *)
Record spatial_ctx := {
  sc_name : option string;
  sc_type : option string;
  sc_coordinates : string
}.

#[global] Instance spatial_ctx_eq_dec : EqDecision spatial_ctx.
Proof. solve_decision. Defined.

(** [{start_time, end_time}] *)
Definition interval : Type := Identity.bound * Identity.bound.

Record temporal_fact := {
  subjects : list string;
  objects : list string;
  relation : string;
  temporal_intervals : list interval;
  spatial_contexts : list spatial_ctx
}.

(** [{'name': 'unknown', 'type': 'unknown', 'coordinates': None}] *)
Definition unknown_spatial : spatial_ctx :=
  {| sc_name := Some "unknown"; sc_type := Some "unknown";
     sc_coordinates := Identity.geo_signature "null" |}.

(** [l if l else [unknown]] *)
Definition or_unknown (l : list spatial_ctx) : list spatial_ctx :=
  match l with [] => [unknown_spatial] | _ => l end.

Definition content (t : interval) (s : spatial_ctx)
    : Identity.context_content :=
  {| Identity.cc_start := t.1; Identity.cc_end := t.2;
     Identity.cc_name := sc_name s; Identity.cc_type := sc_type s;
     Identity.cc_coord_sig := sc_coordinates s |}.

(** [None if t in (None, '', 'null') else t] *)
Definition stored_time (t : Identity.bound) : option string :=
  if Identity.is_null_bound t then None else t.

(** [x if x else 'unknown'] *)
Definition stored_or_unknown (x : option string) : option string :=
  match x with
  | None => Some "unknown"
  | Some s => if bool_decide (s = "") then Some "unknown" else Some s
  end.

(** *** Fresh creation *)

Definition fresh_context (t : interval) (s : spatial_ctx)
    : string * context_props :=
  (Identity.fresh_context_id (content t s),
   {| from_time := stored_time t.1; to_time := stored_time t.2;
      location_name := sc_name s; spatial_type := sc_type s;
      coordinates := sc_coordinates s |}).

Definition fresh_contexts (f : temporal_fact)
    : list (string * context_props) :=
  t ← temporal_intervals f;
  s ← or_unknown (spatial_contexts f);
  [fresh_context t s].

Definition fresh_hyperedge_id (f : temporal_fact) : string :=
  Identity.hyperedge_id (relation f) (subjects f) (objects f)
                        (fresh_contexts f).*1.

Definition merge_contexts (cs : list (string * context_props)) (g : graph)
    : graph :=
  foldl (λ g' c, merge_context c.1 c.2 g') g cs.

(** The statement that creates a hyperedge, clause by clause. *)
Definition fresh_create (f : temporal_fact) (g : graph) : graph :=
  let h := fresh_hyperedge_id f in
  let g := foldl (λ g' s, merge_entity s g') g (subjects f) in
  let g := foldl (λ g' o, merge_entity o g') g (objects f) in
  let g := merge_contexts (fresh_contexts f) g in
  let g := merge_hyperedge h
             {| relation_type := relation f;
                entity_count :=
                  List.length (subjects f) + List.length (objects f) |} g in
  let g := foldl (λ g' s, merge_connects h Subject s g') g (subjects f) in
  let g := foldl (λ g' o, merge_connects h Object o g') g (objects f) in
  foldl (λ g' c, merge_valid_in h c g') g (fresh_contexts f).*1.

(** *** Append to an existing hyperedge *)

(** The record [_find_appendable_hyperedge] returns. *)
Record existing_hyperedge := {
  eh_id : string;
  eh_relation : string;
  eh_subjects : list string;
  eh_objects : list string;
  eh_temporal : list interval;
  eh_spatial : list spatial_ctx;
  append_criterion : nat
}.

Definition append_context_props (t : interval) (s : spatial_ctx)
    : context_props :=
  {| from_time := stored_time t.1; to_time := stored_time t.2;
     location_name := stored_or_unknown (sc_name s);
     spatial_type := stored_or_unknown (sc_type s);
     coordinates := sc_coordinates s |}.

Definition append_temporal_context (t : interval) (s : spatial_ctx)
    : string * context_props :=
  (Identity.append_temporal_context_id (content t s),
   append_context_props t s).

Definition append_spatial_context (t : interval) (s : spatial_ctx)
    : string * context_props :=
  (Identity.append_spatial_context_id (content t s),
   append_context_props t s).

Definition attach_contexts (h : string) (cs : list (string * context_props))
    (g : graph) : graph :=
  foldl (λ g' c, merge_valid_in h c.1 (merge_context c.1 c.2 g')) g cs.

Definition connect_new (h : string) (r : role) (names : list string)
    (g : graph) : graph :=
  foldl (λ g' n, create_connects h r n (merge_entity n g')) g names.

(** The statement [_generate_append_cypher] builds, clause by clause.
    Without an id no statement is built; when the MATCH finds no
    hyperedge the statement has no row to work on. *)
Definition append_to (e : existing_hyperedge) (f : temporal_fact)
    (g : graph) : graph :=
  let h := eh_id e in
  if bool_decide (h = "") then g
  else if bool_decide (hyperedges g !! h = None) then g
  else
    let new_subjects :=
      List.filter (λ s, bool_decide (s ∉ eh_subjects e)) (subjects f) in
    let g := connect_new h Subject new_subjects g in
    let new_objects :=
      List.filter (λ o, bool_decide (o ∉ eh_objects e)) (objects f) in
    let g := connect_new h Object new_objects g in
    let new_temporal :=
      List.filter (λ t, bool_decide (t ∉ eh_temporal e))
                  (temporal_intervals f) in
    let all_spatial := eh_spatial e ++ spatial_contexts f in
    let g := attach_contexts h
               (t ← new_temporal; s ← or_unknown all_spatial;
                [append_temporal_context t s]) g in
    let new_spatial :=
      List.filter (λ s, bool_decide (s ∉ eh_spatial e))
                  (spatial_contexts f) in
    let all_temporal := eh_temporal e ++ temporal_intervals f in
    let g := attach_contexts h
               (t ← all_temporal; s ← new_spatial;
                [append_spatial_context t s]) g in
    recount h g.

(** *** Matching hyperedges by their content *)

(** [size(ids) = size(l) AND all(x IN ids WHERE x IN l)
    AND all(x IN l WHERE x IN ids)] *)
Definition cy_set_eq {A : Type} `{EqDecision A} (ids l : list A) : bool :=
  bool_decide (List.length ids = List.length l)
  && forallb (λ x, bool_decide (x ∈ l)) ids
  && forallb (λ x, bool_decide (x ∈ ids)) l.

(** [NOT EXISTS((h)-[:CONNECTS {role: 'object'}]->())] *)
Definition no_object (h : string) (g : graph) : bool :=
  bool_decide (connected h Object g = []).

(** [coalesce(x, '__NULL__')] and the same mapping on the Python side *)
Definition coalesce (x : option string) : string := default "__NULL__" x.

(** [collect(DISTINCT [coalesce(c.from_time, ...), coalesce(c.to_time,
    ...)])] over the contexts of [h] *)
Definition context_times (h : string) (g : graph)
    : list (string * string) :=
  remove_dups
    (omap (λ c, (λ p, (coalesce (from_time p), coalesce (to_time p)))
                  <$> (contexts g !! c))
          (contexts_of h g)).

(** [collect(DISTINCT coalesce(c2.location_name, '__NULL__'))] *)
Definition context_names (h : string) (g : graph) : list string :=
  remove_dups
    (omap (λ c, (λ p, coalesce (location_name p)) <$> (contexts g !! c))
          (contexts_of h g)).

Definition temporal_times_coalesced (f : temporal_fact)
    : list (string * string) :=
  (λ t : interval, (coalesce t.1, coalesce t.2)) <$> temporal_intervals f.

Definition spatial_names_coalesced (f : temporal_fact) : list string :=
  (λ s, coalesce (sc_name s)) <$> spatial_contexts f.

Definition has_relation (h : string) (rel : string) (g : graph) : bool :=
  bool_decide (relation_type <$> (hyperedges g !! h) = Some rel).

(** The object part of criteria 1 and 2. *)
Definition objects_match (f : temporal_fact) (h : string) (g : graph)
    : bool :=
  match objects f with
  | [] => no_object h g
  | _ => cy_set_eq (connected h Object g) (objects f)
  end.

Definition subjects_match (f : temporal_fact) (h : string) (g : graph)
    : bool :=
  cy_set_eq (connected h Subject g) (subjects f).

(** The context part of criteria 1 and 3: each test is only made when the
    fact brings intervals, respectively location names. *)
Definition contexts_match (f : temporal_fact) (h : string) (g : graph)
    : bool :=
  match temporal_intervals f with
  | [] => true
  | _ => cy_set_eq (context_times h g) (temporal_times_coalesced f)
  end
  &&
  match spatial_contexts f with
  | [] => true
  | _ => cy_set_eq (context_names h g) (spatial_names_coalesced f)
  end.

(** The WHERE part of the query of each criterion. *)
Definition criterion_matches (criterion : nat) (f : temporal_fact)
    (h : string) (g : graph) : bool :=
  has_relation h (relation f) g &&
  match criterion with
  | 1 => objects_match f h g && contexts_match f h g
  | 2 => subjects_match f h g && objects_match f h g
  | 3 => subjects_match f h g && contexts_match f h g
  | _ => false
  end.

Definition candidates (criterion : nat) (f : temporal_fact) (g : graph)
    : list string :=
  List.filter (λ h, criterion_matches criterion f h g)
              (map_to_list (hyperedges g)).*1.

(** [... RETURN h.id ORDER BY h.id LIMIT 1], then [result.single()];
    criteria 2 and 3 are not tried for a fact without subjects. *)
Definition probe (criterion : nat) (f : temporal_fact) (g : graph)
    : option string :=
  match criterion, subjects f with
  | 1, _ => head (merge_sort String.le (candidates 1 f g))
  | _, [] => None
  | _, _ => head (merge_sort String.le (candidates criterion f g))
  end.

Definition context_interval (p : context_props) : interval :=
  (from_time p, to_time p).

Definition context_spatial (p : context_props) : spatial_ctx :=
  {| sc_name := location_name p; sc_type := spatial_type p;
     sc_coordinates := coordinates p |}.

(** The second query, which fetches the whole hyperedge: it matches a
    subject, an object and a context. *)
Definition full_record (criterion : nat) (h : string) (g : graph)
    : option existing_hyperedge :=
  p ← hyperedges g !! h;
  let subjs := connected h Subject g in
  let objs := connected h Object g in
  let ctxs := omap (λ c, contexts g !! c) (contexts_of h g) in
  if bool_decide (subjs = []) || bool_decide (objs = [])
     || bool_decide (ctxs = [])
  then None
  else Some {| eh_id := h; eh_relation := relation_type p;
               eh_subjects := subjs; eh_objects := objs;
               eh_temporal := remove_dups (context_interval <$> ctxs);
               eh_spatial := remove_dups (context_spatial <$> ctxs);
               append_criterion := criterion |}.

(** One turn of the loop [for criterion in [1, 2, 3]]. *)
Definition attempt (criterion : nat) (f : temporal_fact) (g : graph)
    : option existing_hyperedge :=
  h ← probe criterion f g; full_record criterion h g.

(** [_find_appendable_hyperedge]; [storage] is [None] when no graph store
    was handed over. *)
Definition find_appendable_hyperedge (f : temporal_fact)
    (storage : option graph) : option existing_hyperedge :=
  match storage with
  | None => None
  | Some g =>
      match attempt 1 f g with
      | Some e => Some e
      | None =>
          match attempt 2 f g with
          | Some e => Some e
          | None => attempt 3 f g
          end
      end
  end.

(** *** Modification: rewiring to one new context *)

(** The rows of the MATCH that opens a modification statement: the
    hyperedges with the relation and exactly the subjects and objects of
    the affected fact. *)
Definition locate (rel : string) (subjs objs : list string) (g : graph)
    : list string :=
  List.filter
    (λ h, has_relation h rel g
          && cy_set_eq (connected h Subject g) subjs
          && match objs with
             | [] => no_object h g
             | _ => cy_set_eq (connected h Object g) objs
             end)
    (map_to_list (hyperedges g)).*1.

(** [MERGE (new_ctx ...) ON CREATE SET ... / MERGE (h)-[:VALID_IN]->
    (new_ctx) / OPTIONAL MATCH (h)-[r_old:VALID_IN]->(oldC) WHERE oldC <>
    new_ctx DELETE r_old / WITH oldC WHERE oldC IS NOT NULL AND NOT
    (oldC)<-[:VALID_IN]-() DETACH DELETE oldC], for the rows bound to
    [h].  The clauses take effect one after the other, in the order in
    which the statement has them. *)
Definition rewire_contexts (rows : list string) (new_ctx : string)
    (p : context_props) (g : graph) : graph :=
  match rows with
  | [] => g
  | _ =>
      let g := merge_context new_ctx p g in
      let g := foldl (λ g' h, merge_valid_in h new_ctx g') g rows in
      let is_old := λ c, negb (bool_decide (c = new_ctx)) in
      let old := List.filter is_old (h ← rows; contexts_of h g) in
      let g := delete_valid_in rows is_old g in
      delete_orphans old g
  end.

(** *** [Neo4jStorage.delete_hyperedge] (connected store) *)

Definition delete_hyperedge (id : string) (g : graph) : graph :=
  let rows := match hyperedges g !! id with
              | Some _ => [id]
              | None => []
              end in
  let cs := h ← rows; contexts_of h g in
  let g := delete_valid_in rows (λ _, true) g in
  let g := delete_orphans cs g in
  match hyperedges g !! id with
  | Some _ => detach_delete_hyperedge id g
  | None => g
  end.
End Writer.

(** ** The gate in front of causal inference ([chunking_streaming_pipeline]) *)

Module Pipeline.
(** What the statement generator yields for a fact: a statement, with the
    result of [execute_cypher], or the empty string (its fallback when
    building the statement raised). *)
Inductive item :=
| Statement (success : bool)
| EmptyStatement.

(** The graph phase of one fact: the items that come out of the
    generator, and whether the loop over them is left by an exception. *)
Record write := {
  items : list item;
  raises : bool
}.

(** How often a fact enters the tally of successes, and of failures. *)
Definition successes (w : write) : nat :=
  List.length (List.filter (λ i, match i with Statement true => true
                                       | _ => false end) (items w)).

Definition failures (w : write) : nat :=
  List.length (List.filter (λ i, match i with Statement false => true
                                       | _ => false end) (items w))
  + (if raises w then 1 else 0).

Section Tallies.
Context {fact : Type}.

Record tallies := {
  all_structured_data : list fact;
  successful_temporal_facts : list fact;
  failed_temporal_facts : list fact
}.

Definition start : tallies :=
  {| all_structured_data := []; successful_temporal_facts := [];
     failed_temporal_facts := [] |}.

Definition add_successful (f : fact) (t : tallies) : tallies :=
  {| all_structured_data := all_structured_data t;
     successful_temporal_facts := successful_temporal_facts t ++ [f];
     failed_temporal_facts := failed_temporal_facts t |}.

Definition add_failed (f : fact) (t : tallies) : tallies :=
  {| all_structured_data := all_structured_data t;
     successful_temporal_facts := successful_temporal_facts t;
     failed_temporal_facts := failed_temporal_facts t ++ [f] |}.

Definition add_fact (f : fact) (t : tallies) : tallies :=
  {| all_structured_data := all_structured_data t ++ [f];
     successful_temporal_facts := successful_temporal_facts t;
     failed_temporal_facts := failed_temporal_facts t |}.

Definition record_item (f : fact) (t : tallies) (i : item) : tallies :=
  match i with
  | Statement true => add_successful f t
  | Statement false => add_failed f t
  | EmptyStatement => t
  end.

(** The part of [process_sentence_end_to_end] that stores a sanitised
    fact and sends it to the graph; without a graph connection the
    fact counts as successful. *)
Definition record_fact (graph_connected : bool) (t : tallies)
    (fw : fact * write) : tallies :=
  let '(f, w) := fw in
  let t := add_fact f t in
  if graph_connected then
    let t := foldl (record_item f) t (items w) in
    if raises w then add_failed f t else t
  else add_successful f t.

Definition regular_phase (graph_connected : bool)
    (facts : list (fact * write)) : tallies :=
  foldl (record_fact graph_connected) start facts.

Definition total_temporal_facts (t : tallies) : nat :=
  List.length (all_structured_data t).
Definition successful_count (t : tallies) : nat :=
  List.length (successful_temporal_facts t).
Definition failed_count (t : tallies) : nat :=
  List.length (failed_temporal_facts t).

(** Whether the causal-inference phase is entered once the regular
    sentences are done. *)
Definition causal_phase_runs (t : tallies) : bool :=
  match all_structured_data t with
  | [] => false
  | _ =>
      if (0 <? failed_count t)%nat then false
      else if (successful_count t =? 0)%nat then false
      else true
  end.

(** A fact is in the graph when one of its statements was executed
    with success (or when there is no graph to write to). *)
Definition committed (graph_connected : bool) (w : write) : bool :=
  negb graph_connected
  || (existsb (λ i, match i with Statement true => true | _ => false end)
              (items w)
      && forallb (λ i, match i with Statement false => false | _ => true end)
                 (items w)
      && negb (raises w)).
End Tallies.
End Pipeline.

(** ** Lists of literals ([cypher_string_list]) *)

Module Literals.
Import Identity.

(** [", ".join(cypher_quote(v) for v in values)] *)
Definition list_items (values : list pyvalue) : string :=
  Text.join ", " (cypher_quote <$> values).

(** [cypher_string_list(values)] *)
Definition cypher_string_list (values : list pyvalue) : string :=
  "[" +:+ list_items values +:+ "]".

(** The text does not go on with a quote. *)
Definition no_quote_ahead (rest : string) : Prop :=
  match rest with
  | String c _ => c ≠ quote
  | "" => True
  end.
End Literals.

(** ** JSON values, as [json.loads] and the structured outputs give them *)

Module Json.
(** A number stands for an [int] or a [float]; the functions below only
    test its type and whether it is zero. *)
#[warnings="-register-all"] Inductive value :=
| Null
| Bool (b : bool)
| Num (z : Z)
| Str (s : string)
| Arr (items : list value)
| Dict (fields : list (string * value)).

(** A [dict] with string keys, in insertion order; a key occurs once. *)
Definition dict : Type := list (string * value).

(** [d.get(key)], and [d[key]] with [None] for the [KeyError] *)
Fixpoint get (key : string) (d : dict) : option value :=
  match d with
  | [] => None
  | (k, v) :: rest => if decide (key = k) then Some v else get key rest
  end.

(** [key in d] *)
Definition has_key (key : string) (d : dict) : bool :=
  match get key d with Some _ => true | None => false end.

(** [d[key] = v]: the value is replaced in place, a new key goes last. *)
Fixpoint set (key : string) (v : value) (d : dict) : dict :=
  match d with
  | [] => [(key, v)]
  | (k, w) :: rest =>
      if decide (key = k) then (k, v) :: rest else (k, w) :: set key v rest
  end.

(** [bool(v)] *)
Definition truthy (v : value) : bool :=
  match v with
  | Null => false
  | Bool b => b
  | Num z => negb (z =? 0)%Z
  | Str s => negb (bool_decide (s = ""))
  | Arr items => match items with [] => false | _ => true end
  | Dict fields => match fields with [] => false | _ => true end
  end.

(** [v is None] *)
Definition is_none (v : value) : bool :=
  match v with Null => true | _ => false end.

(** [v == s] for a string [s] *)
Definition is_string (s : string) (v : value) : bool :=
  match v with Str s' => bool_decide (s' = s) | _ => false end.

Definition is_nil {A : Type} (l : list A) : bool :=
  match l with [] => true | _ => false end.

(** [t.get(key)] on a value that should be a [dict]; [None] is the
    [AttributeError] of a value without [get]. *)
Definition item_get (key : string) (t : value) : option value :=
  match t with
  | Dict d => Some (default Null (get key d))
  | _ => None
  end.

(** [all(f(x) for x in l)]: the generator stops at the first [False], and
    an exception in [f] ends it. *)
Fixpoint all_m {A : Type} (f : A → option bool) (l : list A) : option bool :=
  match l with
  | [] => Some true
  | x :: rest => b ← f x; if b : bool then all_m f rest else Some false
  end.

(** A loop that keeps the items passing [f], and ends with the exception
    of [f] if there is one. *)
Fixpoint filter_m {A : Type} (f : A → option bool) (l : list A)
    : option (list A) :=
  match l with
  | [] => Some []
  | x :: rest =>
      b ← f x; kept ← filter_m f rest;
      Some (if b : bool then x :: kept else kept)
  end.

(** [for x in v]: the items of a list, the characters of a string, the
    keys of a [dict]; [None] is the [TypeError] of a value that is not
    iterable. *)
Definition py_iter (v : value) : option (list value) :=
  match v with
  | Arr items => Some items
  | Str s => Some ((λ c, Str (String c "")) <$> String.list_ascii_of_string s)
  | Dict d => Some ((λ kv, Str kv.1) <$> d)
  | _ => None
  end.
End Json.

(** ** Structured facts: validation, clean-up, templates *)

Module Facts.
Import Json.

(** [[field for field in required if field not in data]] *)
Definition missing_fields (required : list string) (data : dict)
    : list string :=
  List.filter (λ field, negb (has_key field data)) required.

(** The last check of a temporal fact in [validate_structured_data]
    ([utils/process_text.py]): "appears to be empty/null". *)
Definition appears_empty (subjects objects : list value) (relation : string)
    (intervals contexts : list value) : option bool :=
  if negb (is_nil subjects) then Some false
  else if negb (is_nil objects) then Some false
  else if negb (bool_decide (relation = "")) then Some false
  else
    no_times ← all_m (λ t, start ← item_get "start_time" t;
                           if is_none start
                           then end_ ← item_get "end_time" t;
                                Some (is_none end_)
                           else Some false) intervals;
    if no_times : bool
    then all_m (λ s, name ← item_get "name" s; Some (is_none name)) contexts
    else Some false.

(** The checks of a temporal fact; [Some true] when it is kept. *)
Definition check_temporal_fact (data : dict) : option bool :=
  if negb (is_nil (missing_fields
                     ["subjects"; "objects"; "relation_type";
                      "temporal_intervals"; "spatial_contexts"] data))
  then Some false
  else
    subjects ← get "subjects" data;
    objects ← get "objects" data;
    relation ← get "relation_type" data;
    intervals ← get "temporal_intervals" data;
    contexts ← get "spatial_contexts" data;
    match subjects, objects with
    | Arr subjects, Arr objects =>
        if is_nil subjects then Some false
        else
          match relation with
          | Str relation =>
              if bool_decide (relation = "") then Some false
              else
                match intervals, contexts with
                | Arr intervals, Arr contexts =>
                    empty ← appears_empty subjects objects relation
                                          intervals contexts;
                    Some (negb empty)
                | _, _ => Some false
                end
          | _ => Some false
          end
    | _, _ => Some false
    end.

(** The checks of a state change event, the same in both validators. *)
Definition check_state_change_event (data : dict) : option bool :=
  if negb (is_nil (missing_fields ["affected_fact"; "caused_by"; "causes"]
                                  data))
  then Some false
  else
    affected_fact ← get "affected_fact" data;
    caused_by ← get "caused_by" data;
    causes ← get "causes" data;
    match affected_fact with
    | Dict affected =>
        if negb (has_key "subjects" affected)
           || negb (has_key "objects" affected)
           || negb (has_key "relation_type" affected)
        then Some false
        else
          match caused_by, causes with
          | Arr _, Arr _ => Some true
          | _, _ => Some false
          end
    | _ => Some false
    end.

(** The body of the loop of [validate_structured_data]: is the item
    kept? *)
Definition check_item (data : value) : option bool :=
  match data with
  | Dict d =>
      let fact_type := default (Str "temporal_fact") (get "fact_type" d) in
      if is_string "temporal_fact" fact_type then check_temporal_fact d
      else if is_string "state_change_event" fact_type
           then check_state_change_event d
           else Some false
  | _ => Some false
  end.

(** [validate_structured_data(data_list)] of [utils/process_text.py];
    [None] is an exception. *)
Definition validate_structured_data (data_list : list value)
    : option (list value) :=
  filter_m check_item data_list.

(** [TextToHyperSTructurePipeline.validate_structured_data(data)] of
    [utils/text_to_cypher.py]; [None] is the [AttributeError] of a value
    without [get]. *)
Definition pipeline_validate (data : value) : option bool :=
  match data with
  | Dict d =>
      let fact_type := default (Str "temporal_fact") (get "fact_type" d) in
      if is_string "temporal_fact" fact_type then
        if negb (is_nil (missing_fields
                           ["subjects"; "objects"; "relation_type";
                            "temporal_intervals"] d))
        then Some false
        else
          subjects ← get "subjects" d;
          objects ← get "objects" d;
          relation ← get "relation_type" d;
          intervals ← get "temporal_intervals" d;
          match subjects with
          | Arr (_ :: _) =>
              match objects with
              | Arr _ =>
                  match relation with
                  | Str relation =>
                      if bool_decide (relation = "") then Some false
                      else match intervals with
                           | Arr (_ :: _) => Some true
                           | _ => Some false
                           end
                  | _ => Some false
                  end
              | _ => Some false
              end
          | _ => Some false
          end
      else if is_string "state_change_event" fact_type
           then check_state_change_event d
           else Some false
  | _ => None
  end.

(** What a kept temporal fact looks like. *)
Definition well_formed_temporal_fact (d : dict) : Prop :=
  is_string "temporal_fact" (default (Str "temporal_fact")
                                     (get "fact_type" d)) = true
  ∧ ∃ subjects objects relation intervals contexts,
      get "subjects" d = Some (Arr subjects) ∧ subjects ≠ []
      ∧ get "objects" d = Some (Arr objects)
      ∧ get "relation_type" d = Some (Str relation) ∧ relation ≠ ""
      ∧ get "temporal_intervals" d = Some (Arr intervals)
      ∧ get "spatial_contexts" d = Some (Arr contexts).

(** What a kept state change event looks like. *)
Definition well_formed_state_change_event (d : dict) : Prop :=
  get "fact_type" d = Some (Str "state_change_event")
  ∧ ∃ affected caused_by causes,
      get "affected_fact" d = Some (Dict affected)
      ∧ is_Some (get "subjects" affected)
      ∧ is_Some (get "objects" affected)
      ∧ is_Some (get "relation_type" affected)
      ∧ get "caused_by" d = Some (Arr caused_by)
      ∧ get "causes" d = Some (Arr causes).

Definition well_formed (data : value) : Prop :=
  match data with
  | Dict d => well_formed_temporal_fact d ∨ well_formed_state_change_event d
  | _ => False
  end.

(** *** [sanitise_fact] of [chunking_streaming_pipeline] *)

Section Sanitise.
(** [str(v)]: only its value on a string matters. *)
Variable py_str : value → string.

(** [s and s != '?' and s.lower() != 'unknown'], negated *)
Definition is_placeholder (s : string) : bool :=
  bool_decide (s = "") || bool_decide (s = "?")
  || bool_decide (Text.lower s = "unknown").

(** An entity or relation name as the clean-up leaves it. *)
Definition clean (s : string) : Prop :=
  Text.strip s = s ∧ is_placeholder s = false.

(** [[str(s).strip() for s in (v or []) if s is not None]] without the
    placeholders; [None] is the [TypeError] of iterating a number. *)
Definition clean_entities (v : option value) : option (list string) :=
  items ← match v with
          | Some v => if truthy v then py_iter v else Some []
          | None => Some []
          end;
  Some (List.filter (λ s, negb (is_placeholder s))
          ((λ s, Text.strip (py_str s))
             <$> List.filter (λ s, negb (is_none s)) items)).

(** [sanitise_fact(fact)]; [None] is its [None], which it also returns
    for an exception. *)
Definition sanitise_fact (fact : value) : option dict :=
  match fact with
  | Dict d =>
      let rel :=
        Text.strip (py_str (match get "relation_type" d with
                            | Some v => if truthy v then v else Str ""
                            | None => Str ""
                            end)) in
      if bool_decide (rel = "")
         || bool_decide (Text.lower rel = "unknown")
         || bool_decide (Text.lower rel = "?")
      then None
      else
        let d := set "relation_type" (Str rel) d in
        subs ← clean_entities (get "subjects" d);
        if is_nil subs then None
        else
          let d := set "subjects" (Arr (Str <$> subs)) d in
          objs ← clean_entities (get "objects" d);
          Some (set "objects" (Arr (Str <$> objs)) d)
  | _ => None
  end.
End Sanitise.

(** *** [extract_partial_structured_state_facts] *)

(** The template for one fact; [None] is the [KeyError] of a missing key
    or the [TypeError] of a fact that is not a [dict]. *)
Definition state_fact_template (fact : value) : option value :=
  match fact with
  | Dict d =>
      subjects ← get "subjects" d;
      objects ← get "objects" d;
      relation ← get "relation_type" d;
      Some (Dict [("fact_type", Str "state_change_event");
                  ("affected_fact",
                   Dict [("subjects", subjects); ("objects", objects);
                         ("relation_type", relation)]);
                  ("caused_by", Arr []);
                  ("causes", Arr [])])
  | _ => None
  end.

Definition extract_partial_structured_state_facts (facts : list value)
    : option (list value) :=
  mapM state_fact_template facts.

(** *** The guard of a state change event in the generator
    ([generate_cypher_from_structured_output]) *)

(** Does the generator go on to build the statement?  A value without
    the three keys, or one that is not a [dict] (its [get] raises, which
    the generator catches), is skipped. *)
Definition affected_fact_accepted (data : dict) : bool :=
  match default (Dict []) (get "affected_fact" data) with
  | Dict affected =>
      negb (is_nil affected)
      && has_key "subjects" affected && has_key "objects" affected
      && has_key "relation_type" affected
      && truthy (default Null (get "subjects" affected))
      && truthy (default Null (get "relation_type" affected))
  | _ => false
  end.
End Facts.

(** ** Spatial contexts of a fact ([expand_spatial_coordinates]) *)

Module Expansion.
Import Json.

Section Expand.
(** [expand_spatial(name)], the geocoder: its results, or [None] when it
    raises. *)
Variable expand_spatial : string → option (list value).
(** [str(v)] *)
Variable py_str : value → string.

Definition placeholder_names : list string :=
  ["unknown"; "none"; "n/a"; "not specified"; "unspecified"].

(** [{"name": name, "type": "Point", "coordinates": None}] *)
Definition unresolved_point (name : string) : value :=
  Dict [("name", Str name); ("type", Str "Point"); ("coordinates", Null)].

(** What one entry of [spatial_contexts] contributes. *)
Definition expand_location (location_name : value) : list value :=
  match location_name with
  | Null => []
  | Str s =>
      let name := Text.strip s in
      if bool_decide (name = "") then
        if truthy location_name
        then [unresolved_point (py_str location_name)] else []
      else if bool_decide (Text.lower name ∈ placeholder_names) then []
      else match expand_spatial name with
           | Some (first :: more) => first :: more
           | Some [] | None => [unresolved_point name]
           end
  | _ =>
      if truthy location_name
      then [unresolved_point (py_str location_name)] else []
  end.

(** [expand_spatial_coordinates(structured_data)]; [None] is the
    [TypeError] of a [spatial_contexts] that cannot be iterated. *)
Definition expand_spatial_coordinates (structured_data : dict)
    : option dict :=
  match get "spatial_contexts" structured_data with
  | None => Some structured_data
  | Some contexts =>
      items ← py_iter contexts;
      Some (set "spatial_contexts" (Arr (items ≫= expand_location))
                structured_data)
  end.
End Expand.

(** A geocoded context: a record with a name, a type and coordinates. *)
Definition context_record (v : value) : Prop :=
  ∃ d, v = Dict d ∧ is_Some (get "name" d) ∧ is_Some (get "type" d)
       ∧ is_Some (get "coordinates" d).
End Expansion.

(** ** Validity in time ([utils/temporal_checking.py]) *)

Module Temporal.
Import Json.

(** A [datetime] is naive or aware; either way it is a number of
    microseconds on its time line. *)
Inductive datetime :=
| Naive (t : Z)
| Aware (utc : Z).

(** [a <= b]; [None] is the [TypeError] of comparing a naive with an
    aware [datetime]. *)
Definition le (a b : datetime) : option bool :=
  match a, b with
  | Naive x, Naive y | Aware x, Aware y => Some (x <=? y)%Z
  | _, _ => None
  end.

(** [any(f(x) for x in l)] as the loop that returns at the first hit. *)
Fixpoint any_m {A : Type} (f : A → option bool) (l : list A) : option bool :=
  match l with
  | [] => Some false
  | x :: rest => b ← f x; if b : bool then Some true else any_m f rest
  end.

Section Checking.
(** [datetime.datetime.fromisoformat]; [None] is its [ValueError]. *)
Variable fromisoformat : string → option datetime.

(** [_parse_iso_or_none(value)] *)
Definition parse_iso_or_none (value : value) : option datetime :=
  match value with
  | Str s => if bool_decide (s = "") then None else fromisoformat s
  | _ => None
  end.

(** [extract_time_range_from_interval(interval)]; the outer [None] is
    the [AttributeError] of an interval that is not a [dict]. *)
Definition extract_time_range_from_interval (interval : value)
    : option (option datetime * option datetime) :=
  start ← item_get "start_time" interval;
  end_ ← item_get "end_time" interval;
  Some (parse_iso_or_none start, parse_iso_or_none end_).

(** [is_time_within_range(current_time, start_time, end_time)] *)
Definition is_time_within_range (current_time : datetime)
    (start_time end_time : option datetime) : option bool :=
  match start_time, end_time with
  | Some s, Some e =>
      after ← le s current_time;
      if after : bool then le current_time e else Some false
  | Some s, None => le s current_time
  | None, Some e => le current_time e
  | None, None => Some true
  end.

(** [get_temporal_intervals_from_hyperedge(hyperedge)] *)
Definition get_temporal_intervals_from_hyperedge (hyperedge : value)
    : option value :=
  match hyperedge with
  | Dict d => Some (default (Arr []) (get "temporal_intervals" d))
  | _ => None
  end.

(** [is_hyperedge_valid_at_time(hyperedge, current_time)] *)
Definition is_hyperedge_valid_at_time (hyperedge : value)
    (current_time : datetime) : option bool :=
  intervals ← get_temporal_intervals_from_hyperedge hyperedge;
  intervals ← py_iter intervals;
  any_m (λ interval,
           range ← extract_time_range_from_interval interval;
           is_time_within_range current_time range.1 range.2)
        intervals.
End Checking.

(** The time [t] lies within the bounds that are known. *)
Definition within (t : Z) (start_time end_time : option datetime) : Prop :=
  (∀ x, start_time = Some (Naive x) → (x ≤ t)%Z)
  ∧ (∀ y, end_time = Some (Naive y) → (t ≤ y)%Z).

Definition naive (d : option datetime) : Prop :=
  ∀ x, d = Some (Aware x) → False.
End Temporal.

(** ** The splitter of the query endpoint ([backend/main.py]) *)

Module Backend.
Import Unicode.
(** [_split_into_sentences(text)] of [backend/main.py] *)
Definition _split_into_sentences (text : str) : list str :=
  strip
    <$> List.filter (λ p, non_empty p && non_empty (strip p))
                    (re_split_sentences (strip text)).
End Backend.

(** ** Bounding boxes ([Neo4jStorage._bounding_boxes_overlap]) *)

Module Spatial.
Section Order.
(** A coordinate is a [float]; only its order matters here, and [lt] is
    [<] on it. *)
Context {coord : Type} (lt : coord → coord → bool).

(** A position [[lon, lat]]. *)
Definition position : Type := list coord.

(** [min(l)]: the first of the least values; [None] is the [ValueError]
    of an empty sequence. *)
Definition py_min (l : list coord) : option coord :=
  match l with
  | [] => None
  | x :: rest =>
      Some (foldl (λ best y, if lt y best then y else best) x rest)
  end.

(** [max(l)] *)
Definition py_max (l : list coord) : option coord :=
  match l with
  | [] => None
  | x :: rest =>
      Some (foldl (λ best y, if lt best y then y else best) x rest)
  end.

(** [(p[i] for p in poly)]; [None] is the [IndexError] of a position
    that is too short. *)
Definition coordinates (i : nat) (poly : list position)
    : option (list coord) :=
  mapM (λ p : list coord, p !! i) poly.

(** [_bounding_boxes_overlap(poly1, poly2)] *)
Definition bounding_boxes_overlap (poly1 poly2 : list position)
    : option bool :=
  match poly1, poly2 with
  | [], _ | _, [] => Some false
  | _, _ =>
      lon1 ← coordinates 0 poly1;
      min_lon1 ← py_min lon1; max_lon1 ← py_max lon1;
      lat1 ← coordinates 1 poly1;
      min_lat1 ← py_min lat1; max_lat1 ← py_max lat1;
      lon2 ← coordinates 0 poly2;
      min_lon2 ← py_min lon2; max_lon2 ← py_max lon2;
      lat2 ← coordinates 1 poly2;
      min_lat2 ← py_min lat2; max_lat2 ← py_max lat2;
      Some (negb (lt max_lon1 min_lon2 || lt max_lon2 min_lon1
                  || lt max_lat1 min_lat2 || lt max_lat2 min_lat1))
  end.
End Order.
End Spatial.

(** ** Stores *)

Module Store.
Import Graph.
(** A relationship joins two nodes that exist: the store deletes the
    relationships of a node with the node. *)
Definition attached (g : graph) : Prop :=
  (∀ e, e ∈ connects g → is_Some (hyperedges g !! e.1.1))
  ∧ (∀ e, e ∈ valid_in g →
          is_Some (hyperedges g !! e.1) ∧ is_Some (contexts g !! e.2)).
End Store.

(** ** Sample graphs and facts *)

Module Examples.
Import Graph Writer.

Definition home_2020 : context_props :=
  {| from_time := Some "2020-01-01T00:00:00"; to_time := None;
     location_name := Some "home"; spatial_type := Some "Point";
     coordinates := Identity.geo_signature "null" |}.

Definition work_2021 : context_props :=
  {| from_time := Some "2021-01-01T00:00:00"; to_time := None;
     location_name := Some "work"; spatial_type := Some "Point";
     coordinates := Identity.geo_signature "null" |}.

Definition likes (count : nat) : hyperedge_props :=
  {| relation_type := "likes"; entity_count := count |}.

(** John likes cats at home and at work; Mary likes cats at home. *)
Definition shared : graph :=
  {| entities := {["John"; "Mary"; "cats"]};
     hyperedges := {["he_1" := likes 2; "he_2" := likes 2]};
     contexts := {["ctx_home" := home_2020; "ctx_work" := work_2021]};
     connects := [("he_1", Subject, "John"); ("he_1", Object, "cats");
                  ("he_2", Subject, "Mary"); ("he_2", Object, "cats")];
     valid_in := [("he_1", "ctx_home"); ("he_1", "ctx_work");
                  ("he_2", "ctx_home")] |}.

(** John likes cats at home. *)
Definition john_likes_cats : graph :=
  {| entities := {["John"; "cats"]};
     hyperedges := {["he_1" := likes 2]};
     contexts := {["ctx_home" := home_2020]};
     connects := [("he_1", Subject, "John"); ("he_1", Object, "cats")];
     valid_in := [("he_1", "ctx_home")] |}.

Definition at_home : spatial_ctx :=
  {| sc_name := Some "home"; sc_type := Some "Point";
     sc_coordinates := Identity.geo_signature "null" |}.

(** "John likes", a fact without objects, in 2020 at home. *)
Definition john_likes : temporal_fact :=
  {| subjects := ["John"]; objects := []; relation := "likes";
     temporal_intervals := [(Some "2020-01-01T00:00:00", None)];
     spatial_contexts := [at_home] |}.

(** John dies at home in 2020: a hyperedge without objects. *)
Definition john_dies : graph :=
  {| entities := {["John"]};
     hyperedges := {["he_1" := {| relation_type := "dies";
                                  entity_count := 1 |}]};
     contexts := {["ctx_home" := home_2020]};
     connects := [("he_1", Subject, "John")];
     valid_in := [("he_1", "ctx_home")] |}.

(** "Mary dies", same time and place. *)
Definition mary_dies : temporal_fact :=
  {| subjects := ["Mary"]; objects := []; relation := "dies";
     temporal_intervals := [(Some "2020-01-01T00:00:00", None)];
     spatial_contexts := [at_home] |}.
End Examples.

Module FactExamples.
Import Json.

(** [str] on the scalar values. *)
Definition scalar_str (v : value) : string :=
  match v with
  | Str s => s
  | Num z => pretty z
  | Bool true => "True"
  | Bool false => "False"
  | Null => "None"
  | _ => ""
  end.

Definition raw_fact : dict :=
  [("relation_type", Str " likes ");
   ("subjects", Arr [Str "John "; Null; Str "Unknown"]);
   ("objects", Arr [Str "cats"; Str "?"]);
   ("temporal_intervals", Arr [])].

Definition sanitised_fact : dict :=
  [("relation_type", Str "likes");
   ("subjects", Arr [Str "John"]);
   ("objects", Arr [Str "cats"]);
   ("temporal_intervals", Arr [])].

End FactExamples.

Module ExpansionExamples.
Import Json.

(** A geocoder that cannot be reached. *)
Definition unreachable (name : string) : option (list value) := None.

Definition located_fact : dict :=
  [("relation_type", Str "lives in");
   ("spatial_contexts", Arr [Str " Paris "; Null; Str "Unknown"; Num 5])].

Definition expanded_fact : dict :=
  [("relation_type", Str "lives in");
   ("spatial_contexts",
    Arr [Expansion.unresolved_point "Paris";
         Expansion.unresolved_point "5"])].
End ExpansionExamples.

Module TemporalExamples.
Import Json Temporal.

(** A reading of a few ISO dates as microseconds; other strings are
    rejected. *)
Definition read_date (s : string) : option datetime :=
  if bool_decide (s = "2020-01-01T00:00:00") then Some (Naive 1577836800000000)
  else if bool_decide (s = "2021-12-31T23:59:59")
       then Some (Naive 1640995199000000)
       else None.

Definition worked_at : value :=
  Dict [("relation_type", Str "worked_at");
        ("temporal_intervals",
         Arr [Dict [("start_time", Str "2020-01-01T00:00:00");
                    ("end_time", Str "2021-12-31T23:59:59")];
              Dict [("start_time", Str "start of the wedding");
                    ("end_time", Null)]])].
End TemporalExamples.

Module SegmentExamples.
Import Unicode.
(** "Où? Hello[U+00A0]world. Bye." *)
Definition accented : str :=
  [79%N; 249%N; 63%N; 32%N] ++ of_ascii "Hello" ++ [160%N]
  ++ of_ascii "world." ++ [0x2003%N] ++ of_ascii "Bye.".
End SegmentExamples.

(** * Properties *)

(** ** Strings *)

Section StringFacts.
Lemma append_cons a s t : String a s +:+ t = String a (s +:+ t).
Proof. reflexivity. Qed.

Lemma append_nil_l s : "" +:+ s = s.
Proof. reflexivity. Qed.

Lemma append_nil_r s : s +:+ "" = s.
Proof.
  induction s as [|a s IH]; [done|]. by rewrite append_cons, IH.
Qed.

Lemma append_assoc s t u : (s +:+ t) +:+ u = s +:+ t +:+ u.
Proof.
  induction s as [|a s IH]; [done|]. by rewrite !append_cons, IH.
Qed.

Lemma length_append s t :
  String.length (s +:+ t) = String.length s + String.length t.
Proof.
  induction s as [|a s IH]; [done|]. rewrite append_cons. simpl.
  by rewrite IH.
Qed.

Lemma count_char_append c s t :
  Text.count_char c (s +:+ t) = Text.count_char c s + Text.count_char c t.
Proof.
  induction s as [|a s IH]; [done|]. rewrite append_cons. simpl.
  rewrite IH. lia.
Qed.

Lemma replace_char_append c by_ s t :
  Text.replace_char c by_ (s +:+ t)
  = Text.replace_char c by_ s +:+ Text.replace_char c by_ t.
Proof.
  induction s as [|a s IH]; [done|]. rewrite append_cons. simpl.
  rewrite IH. case_bool_decide; [|done].
  by rewrite append_assoc.
Qed.
End StringFacts.

(** ** SHA-1: known answers *)

Example sha1_empty :
  Sha1.hexdigest "" = "da39a3ee5e6b4b0d3255bfef95601890afd80709".
Proof. vm_compute. reflexivity. Qed.

Example sha1_abc :
  Sha1.hexdigest "abc" = "a9993e364706816aba3e25717850c26c9cd0d89d".
Proof. vm_compute. reflexivity. Qed.

(** A message that needs two blocks. *)
Example sha1_two_blocks :
  Sha1.hexdigest "abcdbcdecdefdefgefghfghighijhijkijkljklmklmnlmnomnopnopq"
  = "84983e441c3bd26ebaae4aa1f95129e5e54670f1".
Proof. vm_compute. reflexivity. Qed.

(** ** Escaping *)

Section Escaping.
Import Identity.

Lemma cypher_escape_none : cypher_escape PyNone = "".
Proof. reflexivity. Qed.

Lemma cypher_escape_int z : cypher_escape (PyInt z) = double_quotes (pretty z).
Proof. reflexivity. Qed.

(** Character by character: a quote becomes two quotes, anything else is
    kept. *)
Lemma cypher_escape_cons a s :
  cypher_escape (PyStr (String a s))
  = (if bool_decide (a = quote) then "''" else String a "")
    +:+ cypher_escape (PyStr s).
Proof. unfold cypher_escape, double_quotes; simpl. by case_bool_decide. Qed.

Lemma cypher_escape_append s t :
  cypher_escape (PyStr (s +:+ t))
  = cypher_escape (PyStr s) +:+ cypher_escape (PyStr t).
Proof. apply replace_char_append. Qed.

Lemma double_quotes_count s :
  Text.count_char quote (double_quotes s) = 2 * Text.count_char quote s.
Proof.
  unfold double_quotes. induction s as [|a s IH]; [done|]. simpl.
  case_bool_decide as Ha.
  - rewrite count_char_append, IH. simpl. lia.
  - simpl. rewrite bool_decide_false by done. rewrite IH. lia.
Qed.

Lemma double_quotes_length s :
  String.length (double_quotes s)
  = String.length s + Text.count_char quote s.
Proof.
  unfold double_quotes. induction s as [|a s IH]; [done|]. simpl.
  case_bool_decide.
  - rewrite length_append, IH. simpl. lia.
  - simpl. rewrite IH. lia.
Qed.

(** Without a quote the escape changes nothing. *)
Lemma double_quotes_id s :
  Text.count_char quote s = 0 → double_quotes s = s.
Proof.
  unfold double_quotes. induction s as [|a s IH]; [done|]. simpl.
  case_bool_decide; [done|]. intros Hs. by rewrite IH.
Qed.

Lemma backslash_quotes_id s :
  Text.count_char quote s = 0 → backslash_quotes s = s.
Proof.
  unfold backslash_quotes. induction s as [|a s IH]; [done|]. simpl.
  case_bool_decide; [done|]. intros Hs. by rewrite IH.
Qed.
End Escaping.

(** C8 (the code departs from the claim).  [cypher_escape] doubles every
    single quote, maps [None] to the empty string and stringifies other
    values; but the statement that appends to a hyperedge does not use it
    for every literal.  For a new spatial context named O'Hare the branch
    for new temporal intervals writes the doubled form, the branch for new
    spatial contexts writes a backslash in front of the quote, and a time
    bound is put between quotes unchanged. *)
Theorem append_literals_bypass_cypher_escape :
  Identity.cypher_escape (Identity.PyStr "O'Hare") = "O''Hare"
  ∧ Identity.cypher_escape Identity.PyNone = ""
  ∧ Identity.cypher_escape (Identity.PyInt (-42)) = "-42"
  ∧ Identity.append_temporal_name_literal (Some "O'Hare") = "'O''Hare'"
  ∧ Identity.append_spatial_name_literal (Some "O'Hare") = "'O\'Hare'"
  ∧ Identity.append_spatial_name_literal (Some "O'Hare")
    ≠ Identity.cypher_quote (Identity.PyStr "O'Hare")
  ∧ Identity.append_time_literal (Some "2020' OR '1'='1")
    = "'2020' OR '1'='1'"
  ∧ Identity.append_time_literal (Some "2020' OR '1'='1")
    ≠ Identity.cypher_quote (Identity.PyStr "2020' OR '1'='1").
Proof. vm_compute. repeat split; congruence. Qed.

(** ** Context identity *)

Section ContextIdentity.
Import Identity.

Lemma bound_key_null :
  bound_key None = "__NULL__" ∧ bound_key (Some "") = "__NULL__"
  ∧ bound_key (Some "null") = "__NULL__".
Proof. done. Qed.

Lemma bound_key_some s :
  s ≠ "" → s ≠ "null" → bound_key (Some s) = s.
Proof.
  intros H1 H2. unfold bound_key, is_null_bound.
  by rewrite !bool_decide_false.
Qed.

(** The two branches that follow the fresh one to the letter. *)
Lemma append_temporal_context_id_fresh c :
  append_temporal_context_id c = fresh_context_id c.
Proof. reflexivity. Qed.

Lemma backslashed_or_unknown_quote_free x :
  quote_free x → backslashed_or_unknown x = escaped_or_unknown x.
Proof.
  destruct x as [s|]; [|done]. simpl. intros Hs.
  case_bool_decide; [done|].
  unfold cypher_escape. simpl.
  by rewrite backslash_quotes_id, double_quotes_id.
Qed.

(** The branch for new spatial contexts agrees with them as long as name
    and type hold no quote. *)
Lemma append_spatial_context_id_fresh c :
  quote_free (cc_name c) → quote_free (cc_type c) →
  append_spatial_context_id c = fresh_context_id c.
Proof.
  intros Hn Ht. unfold append_spatial_context_id, fresh_context_id,
    append_spatial_key, fresh_key.
  by rewrite !backslashed_or_unknown_quote_free.
Qed.
End ContextIdentity.

(** C1 (the code departs from the claim).  The fresh branch and the branch
    for new temporal intervals hash [start|end|name|type|coord_signature],
    but the modification branch hashes [start|name|type|coord_signature|end]
    and the branch for new spatial contexts escapes name and type with a
    backslash: the same content gets different context ids.  Shown for the
    context 2020-01-01 to 2021-12-31 at "home" (no coordinates) on the
    modification branch, and for a context at "O'Hare" on the spatial
    append branch. *)
Theorem context_id_differs_between_paths :
  let home :=
    {| Identity.cc_start := Some "2020-01-01T00:00:00";
       Identity.cc_end := Some "2021-12-31T23:59:59";
       Identity.cc_name := Some "home";
       Identity.cc_type := Some "unknown";
       Identity.cc_coord_sig := Identity.geo_signature "null" |} in
  let ohare :=
    {| Identity.cc_start := None;
       Identity.cc_end := None;
       Identity.cc_name := Some "O'Hare";
       Identity.cc_type := Some "Point";
       Identity.cc_coord_sig := Identity.geo_signature "null" |} in
  Identity.fresh_key home
  = "2020-01-01T00:00:00|2021-12-31T23:59:59|home|unknown|geo:2be88ca4242c76e8"
  ∧ Identity.fresh_context_id home = "ctx_7e11ef9134a4af17"
  ∧ Identity.append_temporal_context_id home = "ctx_7e11ef9134a4af17"
  ∧ Identity.append_spatial_context_id home = "ctx_7e11ef9134a4af17"
  ∧ Identity.modification_key home
    = "2020-01-01T00:00:00|home|unknown|geo:2be88ca4242c76e8|2021-12-31T23:59:59"
  ∧ Identity.modification_context_id home = "ctx_713c1889e0c9673f"
  ∧ Identity.modification_context_id home ≠ Identity.fresh_context_id home
  ∧ Identity.fresh_key ohare
    = "__NULL__|__NULL__|O''Hare|Point|geo:2be88ca4242c76e8"
  ∧ Identity.append_spatial_key ohare
    = "__NULL__|__NULL__|O\'Hare|Point|geo:2be88ca4242c76e8"
  ∧ Identity.append_spatial_context_id ohare
    ≠ Identity.fresh_context_id ohare.
Proof. vm_compute. repeat split; congruence. Qed.

(** ** Hyperedge identity *)

Section HyperedgeIdentity.
Import Identity.

Lemma sorted_is_sorted l : Sorted String.le (sorted l).
Proof. apply Sorted_merge_sort, _. Qed.

Lemma sorted_permutation l : sorted l ≡ₚ l.
Proof. apply merge_sort_Permutation. Qed.

(** Sorting forgets the order of the input. *)
Lemma sorted_perm_eq l l' : l ≡ₚ l' → sorted l = sorted l'.
Proof.
  intros Hp. apply (Sorted_unique String.le); try apply sorted_is_sorted.
  by rewrite !sorted_permutation.
Qed.

Lemma sorted_idemp l : sorted (sorted l) = sorted l.
Proof. apply sorted_perm_eq, sorted_permutation. Qed.

(** The set of a list only depends on what occurs in it. *)
Lemma py_set_perm c c' :
  (∀ x, x ∈ c ↔ x ∈ c') → py_set c ≡ₚ py_set c'.
Proof.
  intros Hc. apply NoDup_Permutation; try apply NoDup_remove_dups.
  intros x. unfold py_set. by rewrite !elem_of_remove_dups.
Qed.

Lemma hyperedge_key_eq rel s s' o o' c c' :
  s ≡ₚ s' → o ≡ₚ o' → (∀ x, x ∈ c ↔ x ∈ c') →
  hyperedge_key rel s o c = hyperedge_key rel s' o' c'.
Proof.
  intros Hs Ho Hc. unfold hyperedge_key.
  rewrite (sorted_perm_eq s s' Hs), (sorted_perm_eq o o' Ho).
  by rewrite !sorted_idemp, (sorted_perm_eq _ _ (py_set_perm c c' Hc)).
Qed.
End HyperedgeIdentity.

(** C2.  The hyperedge id is the same for any order of the subjects, any
    order of the objects, and any order or repetition of the context ids. *)
Theorem hyperedge_id_order_independent
    (relation_type : string) (subjects subjects' objects objects' : list string)
    (context_ids context_ids' : list string) :
  subjects ≡ₚ subjects' →
  objects ≡ₚ objects' →
  (∀ x, x ∈ context_ids ↔ x ∈ context_ids') →
  Identity.hyperedge_id relation_type subjects objects context_ids
  = Identity.hyperedge_id relation_type subjects' objects' context_ids'.
Proof.
  intros Hs Ho Hc. unfold Identity.hyperedge_id.
  by rewrite (hyperedge_key_eq _ _ _ _ _ _ _ Hs Ho Hc).
Qed.

Lemma hyperedge_id_order_independent_witness :
  Identity.hyperedge_id "likes" ["Will"; "Molly"] ["cats"; "dogs"]
                        ["ctx_b"; "ctx_a"; "ctx_b"]
  = Identity.hyperedge_id "likes" ["Molly"; "Will"] ["dogs"; "cats"]
                          ["ctx_a"; "ctx_b"].
Proof.
  apply hyperedge_id_order_independent.
  - apply perm_swap.
  - apply perm_swap.
  - intros x. rewrite !elem_of_cons, !elem_of_nil. tauto.
Defined.

(** ** Polygon decimation *)

Section GeocoderFacts.
Context {vertex : Type} `{EqDecision vertex}.
Import Geocoder.

(** The loop leaves before its fuel runs out: more fuel changes nothing. *)
Lemma sample_indices_fuel fuel fuel' n target k indices :
  0 < n → target - k < fuel → fuel ≤ fuel' →
  sample_indices fuel n target k indices
  = sample_indices fuel' n target k indices.
Proof.
  intros Hn. revert fuel' k indices.
  induction fuel as [|fuel IH]; intros fuel' k indices Hk Hf; [lia|].
  destruct fuel' as [|fuel']; [lia|]. simpl.
  destruct (_ && _) eqn:Hc; [|done].
  apply andb_true_iff in Hc as [_ Hc]. apply Nat.ltb_lt in Hc.
  assert (k < target) by nia.
  apply IH; lia.
Qed.

Lemma close_length (out res : list vertex) :
  close_ring out = Some res →
  List.length res ≤ List.length out + 1.
Proof.
  unfold close_ring. destruct out as [|v0 out']; [done|].
  destruct (last (v0 :: out')) as [vl|]; [|done].
  intros [= <-]. case_decide; [lia|]. simpl. rewrite length_app. simpl. lia.
Qed.

Lemma decimate_ring_length (r : list vertex) t out :
  decimate_ring r t = Some out → List.length out ≤ Nat.max 4 t + 1.
Proof.
  unfold decimate_ring. intros Hd.
  apply bind_Some in Hd as (out0 & Hout0 & Hclose).
  apply close_length in Hclose.
  assert (List.length out0 ≤ Nat.max 4 t); [|lia].
  destruct (_ <=? _)%nat eqn:Hn.
  - apply Nat.leb_le in Hn. by injection Hout0 as <-.
  - case_decide; [done|].
    apply length_mapM in Hout0. rewrite <- Hout0, length_take. lia.
Qed.

Lemma sum_list_length_bound (rs : list (list vertex)) c :
  Forall (λ r, List.length r ≤ c) rs →
  sum_list (List.length <$> rs) ≤ List.length rs * c.
Proof. induction 1 as [|r rs Hr _ IH]; csimpl; lia. Qed.

Lemma decimate_poly_bound (poly poly' : list (list vertex)) cap :
  mapM (λ r, decimate_ring r cap) poly = Some poly' →
  sum_list (List.length <$> poly') ≤ List.length poly * (Nat.max 4 cap + 1).
Proof.
  intros Hm.
  assert (List.length poly = List.length poly') as ->
    by apply (length_mapM _ _ _ Hm).
  apply sum_list_length_bound.
  apply mapM_Some_1 in Hm.
  induction Hm as [|r r' poly poly' Hr _ IH]; constructor; [|done].
  by eapply decimate_ring_length.
Qed.

Lemma decimate_polys_bound (polys polys' : list (list (list vertex))) cap n :
  n = sum_list (List.length <$> polys) →
  mapM (λ poly, mapM (λ r, decimate_ring r cap) poly) polys = Some polys' →
  sum_list ((λ poly, sum_list (List.length <$> poly)) <$> polys')
  ≤ n * (Nat.max 4 cap + 1).
Proof.
  intros -> Hm. apply mapM_Some_1 in Hm.
  induction Hm as [|p p' polys polys' Hp _ IH]; csimpl; [lia|].
  apply decimate_poly_bound in Hp. lia.
Qed.

(** What the decimation does guarantee: twenty vertices plus one closing
    vertex for each ring, of which there are at most five. *)
Lemma simplify_vertex_count (g g' : @geometry vertex) :
  simplify g = Some (Geometry g') →
  num_rings g ≤ 5 ∧ vertex_count g' ≤ MAX_POINTS + num_rings g.
Proof.
  unfold simplify. case_decide as Hz; [done|].
  destruct (_ <? _)%nat eqn:Hcap; [done|].
  apply Nat.ltb_ge in Hcap. unfold MAX_POINTS in *.
  intros Hs. apply bind_Some in Hs as (polys' & Hm & Hg).
  apply (decimate_polys_bound _ _ _ (num_rings g) eq_refl) in Hm.
  remember (num_rings g) as n eqn:Hn.
  assert (H4 : 4 ≤ 20 / n) by (apply Nat.div_le_lower_bound; lia).
  rewrite !Nat.max_r, Nat.mul_add_distr_l, Nat.mul_1_r in Hm by lia.
  pose proof (Nat.Div0.mul_div_le 20 n) as Hd.
  split; [lia|].
  assert (Hv : vertex_count g'
               ≤ sum_list ((λ poly, sum_list (List.length <$> poly))
                             <$> polys')).
  2: lia.
  destruct g as [rings|polys].
  - destruct polys' as [|rings' polys'']; [done|].
    injection Hg as <-. unfold vertex_count, polygons_of. csimpl. lia.
  - injection Hg as <-. done.
Qed.
End GeocoderFacts.


(** C7 (the code departs from the claim).  The per-ring cap bounds the
    vertices that are kept before the ring is closed again, so the closing
    vertex comes on top: a polygon of one ring with 40 distinct vertices
    is stored with 21 vertices, and a polygon of five closed quadrilaterals
    is stored unchanged with 25, while six rings fall back to the point. *)
Theorem decimation_exceeds_vertex_cap :
  Geocoder.simplify (Geocoder.Polygon [Geocoder.closed_ring 40])
  = Some (Geocoder.Geometry (Geocoder.Polygon
      [[0; 2; 4; 6; 8; 10; 12; 14; 16; 18; 20; 22; 24; 26; 28; 30; 32; 34;
        36; 38; 0]]))
  ∧ Geocoder.vertex_count (Geocoder.Polygon
      [[0; 2; 4; 6; 8; 10; 12; 14; 16; 18; 20; 22; 24; 26; 28; 30; 32; 34;
        36; 38; 0]]) = 21
  ∧ Geocoder.simplify (Geocoder.Polygon (replicate 5 (Geocoder.closed_ring 4)))
    = Some (Geocoder.Geometry
              (Geocoder.Polygon (replicate 5 [0; 1; 2; 3; 0])))
  ∧ Geocoder.vertex_count
      (Geocoder.Polygon (replicate 5 [0; 1; 2; 3; 0])) = 25
  ∧ Geocoder.simplify (Geocoder.Polygon (replicate 6 (Geocoder.closed_ring 4)))
    = Some Geocoder.ProviderPoint
  ∧ Geocoder.MAX_POINTS < 21.
Proof. vm_compute. repeat split; lia. Qed.

(** ** Splitting, joining and searching text *)

Section TextFacts.
Import Text.

Lemma join_singleton sep x : join sep [x] = x.
Proof. reflexivity. Qed.

Lemma join_cons sep x y l :
  join sep (x :: y :: l) = x +:+ sep +:+ join sep (y :: l).
Proof. reflexivity. Qed.

Lemma cons_head_cons c x l : cons_head c (x :: l) = String c x :: l.
Proof. reflexivity. Qed.

Lemma join_cons_head sep c l :
  l ≠ [] → join sep (cons_head c l) = String c (join sep l).
Proof. destruct l as [|x [|y l]]; done. Qed.

Lemma cons_head_nonempty c l : cons_head c l ≠ [].
Proof. by destruct l. Qed.

Lemma split_char_nonempty c s : split_char c s ≠ [].
Proof.
  destruct s as [|a s]; simpl; [done|].
  case_bool_decide; [done|]. apply cons_head_nonempty.
Qed.

(** Splitting and joining again gives the text back. *)
Lemma split_char_join c s : join (String c "") (split_char c s) = s.
Proof.
  induction s as [|a s IH]; [done|]. simpl.
  pose proof (split_char_nonempty c s) as Hne.
  case_bool_decide as Ha.
  - destruct (split_char c s) as [|y l] eqn:Hs; [done|].
    rewrite join_cons, IH. by subst a.
  - by rewrite join_cons_head, IH.
Qed.

(** No piece holds the separator. *)
Lemma split_char_no_sep c s :
  Forall (λ p, count_char c p = 0) (split_char c s).
Proof.
  induction s as [|a s IH]; simpl; [by repeat constructor|].
  case_bool_decide as Ha; [by constructor|].
  destruct (split_char c s) as [|y l]; simpl.
  - repeat constructor. simpl. by rewrite bool_decide_false.
  - inversion_clear IH. constructor; [|done]. simpl.
    by rewrite bool_decide_false.
Qed.

Lemma starts_with_spec p s :
  starts_with p s = true ↔ ∃ post, s = p +:+ post.
Proof.
  revert s. induction p as [|a p IH]; intros s; simpl.
  - split; [by exists s|done].
  - destruct s as [|b s].
    + split; [done|]. by intros [post Hp].
    + rewrite andb_true_iff, bool_decide_eq_true, IH. split.
      * intros [-> [post ->]]. by exists post.
      * intros [post Hp]. rewrite append_cons in Hp.
        injection Hp as -> ->. eauto.
Qed.

(** [contains] is the substring test. *)
Lemma contains_spec p s :
  contains p s = true ↔ ∃ pre post, s = pre +:+ p +:+ post.
Proof.
  induction s as [|b s IH].
  - simpl. rewrite orb_false_r, starts_with_spec. split.
    + intros [post Hp]. by exists "", post.
    + intros (pre & post & Hp). destruct pre; [by exists post|done].
  - simpl. rewrite orb_true_iff, starts_with_spec, IH. split.
    + intros [[post Hp]|(pre & post & ->)].
      * by exists "", post.
      * by exists (String b pre), post.
    + intros (pre & post & Hp). destruct pre as [|a pre].
      * left. by exists post.
      * right. rewrite append_cons in Hp. injection Hp as -> ->. eauto.
Qed.
End TextFacts.

(** ** The classifier *)

Lemma is_modification_spec sentence :
  Classifier.is_modification sentence = true
  ↔ ∃ indicator pre post,
      indicator ∈ Classifier.modification_indicators
      ∧ Text.lower sentence = pre +:+ indicator +:+ post.
Proof.
  unfold Classifier.is_modification. rewrite existsb_exists. split.
  - intros (ind & Hin & Hc). apply contains_spec in Hc as (pre & post & Hc).
    exists ind, pre, post. by rewrite list_elem_of_In.
  - intros (ind & pre & post & Hin & Hc). exists ind.
    rewrite <- list_elem_of_In, contains_spec. eauto.
Qed.

(** C9, as the claim states it, fails: the keyword pass does not split at
    an exclamation mark.  "Stop! Actually no." is one sentence for the
    code, and a modification as a whole, where splitting on
    sentence-terminal punctuation gives the regular sentence "Stop" and
    the modification "Actually no". *)
Lemma keyword_pass_ignores_exclamation_mark :
  Classifier.sentences "Stop! Actually no." = ["Stop! Actually no"]
  ∧ Classifier.sentences_by_terminal_punctuation "Stop! Actually no."
    = ["Stop"; "Actually no"]
  ∧ Classifier.sentences "Stop! Actually no."
    ≠ Classifier.sentences_by_terminal_punctuation "Stop! Actually no."
  ∧ Classifier.is_modification "Stop" = false
  ∧ Classifier.keyword_result "Stop! Actually no."
    = ("Stop! Actually no.", "Stop! Actually no").
Proof. vm_compute. repeat split; congruence. Qed.

(** C9, amended.  The keyword pass splits the text at every full stop and
    nowhere else (joining the pieces with full stops gives the text back,
    and no piece holds one); its sentences are the stripped pieces that
    are not empty; a sentence is a modification exactly when its
    lower-cased text contains one of the seven indicators; and when the
    refinement call raises or returns nothing, or is not asked for, the
    result is the keyword result. *)
Theorem keyword_pass_splits_on_full_stops (text : string) :
  Text.join "." (Text.split_char "."%char text) = text
  ∧ Forall (λ piece, Text.count_char "."%char piece = 0)
           (Text.split_char "."%char text)
  ∧ Classifier.sentences text
    = List.filter Classifier.non_empty
        (Text.strip <$> Text.split_char "."%char text)
  ∧ (∀ sentence,
       Classifier.is_modification sentence = true
       ↔ ∃ indicator pre post,
           indicator ∈ ["actually"; "in fact"; "oops"; "my mistake";
                        "update"; "correction"; "modification"]
           ∧ Text.lower sentence = pre +:+ indicator +:+ post)
  ∧ (∀ with_LLM_call,
       Classifier.detect_modification_sentences text with_LLM_call
         Classifier.LlmRaises = Classifier.keyword_result text
       ∧ Classifier.detect_modification_sentences text with_LLM_call
           Classifier.LlmReturnsNone = Classifier.keyword_result text)
  ∧ (∀ llm,
       Classifier.detect_modification_sentences text false llm
       = Classifier.keyword_result text).
Proof.
  split; [apply split_char_join|].
  split; [apply split_char_no_sep|].
  split; [done|].
  split; [apply is_modification_spec|].
  split; [|done].
  by intros [].
Qed.

(** ** Sentence segmentation *)

Section SplitFacts.
Import Unicode.

Lemma but_last_singleton {A} (x : A) : Text.but_last [x] = [].
Proof. reflexivity. Qed.

Lemma but_last_cons {A} (x y : A) l :
  Text.but_last (x :: y :: l) = x :: Text.but_last (y :: l).
Proof. unfold Text.but_last. simpl. by rewrite Nat.sub_0_r. Qed.

Lemma is_terminal_not_space c : is_terminal c = true → is_space c = false.
Proof.
  unfold is_terminal. intros Ht.
  repeat (apply orb_true_iff in Ht as [Ht|Ht]);
    apply bool_decide_eq_true in Ht; by subst.
Qed.

Lemma pieces_cons_head_nonempty c l : cons_head c l ≠ [].
Proof. by destruct l. Qed.

Lemma re_split_go_nonempty st s : re_split_go st s ≠ [].
Proof.
  revert st. induction s as [|c r IH]; intros st; simpl; [done|].
  destruct st, (is_space c); auto using pieces_cons_head_nonempty.
Qed.

Lemma interleave_cons_head c l seps :
  l ≠ [] → interleave (cons_head c l) seps = c :: interleave l seps.
Proof. destruct l as [|x l]; [done|]. by destruct seps. Qed.

Lemma length_cons_head c (l : list str) :
  l ≠ [] → List.length (cons_head c l) = List.length l.
Proof. by destruct l. Qed.

(** The pieces and the separators between them make up the text; inside a
    separator the white space still to come belongs to it. *)
Lemma re_split_go_interleave st s :
  ∃ ws seps,
    s = ws ++ interleave (re_split_go st s) seps
    ∧ all_space ws = true
    ∧ (st ≠ InSeparator → ws = [])
    ∧ List.length seps + 1 = List.length (re_split_go st s)
    ∧ Forall is_separator seps.
Proof.
  revert st. induction s as [|c r IH]; intros st.
  { exists [], []. by repeat split. }
  assert (Hcons : ∃ ws seps,
    c :: r = ws ++ interleave (cons_head c (re_split_go (scan_of c) r)) seps
    ∧ all_space ws = true ∧ ws = []
    ∧ List.length seps + 1
      = List.length (cons_head c (re_split_go (scan_of c) r))
    ∧ Forall is_separator seps).
  { destruct (IH (scan_of c)) as (ws & seps & Hr & _ & Hws & Hlen & Hseps).
    rewrite Hws in Hr; [|unfold scan_of; by destruct (is_terminal c)].
    exists [], seps. pose proof (re_split_go_nonempty (scan_of c) r).
    rewrite interleave_cons_head, length_cons_head by done.
    repeat split; try done. simpl in *. by rewrite <- Hr. }
  destruct Hcons as (ws0 & seps0 & H1 & H2 & H3 & H4 & H5).
  simpl. destruct st; destruct (is_space c) eqn:Hc;
    try (exists ws0, seps0; by repeat split).
  - destruct (IH InSeparator) as (ws & seps & Hr & Hall & _ & Hlen & Hseps).
    exists [], ((c :: ws) :: seps). repeat split; try done.
    + simpl. by rewrite <- Hr.
    + simpl. lia.
    + constructor; [|done]. split; [done|]. simpl. by rewrite Hc, Hall.
  - destruct (IH InSeparator) as (ws & seps & Hr & Hall & _ & Hlen & Hseps).
    exists (c :: ws), seps. repeat split; try done.
    + simpl. by rewrite <- Hr.
    + simpl. by rewrite Hc, Hall.
Qed.

Lemma ends_with_terminal_cons c s :
  ends_with_terminal s → ends_with_terminal (c :: s).
Proof. intros (d & Hd & Ht). exists d. by rewrite last_cons, Hd. Qed.

Lemma ends_with_terminal_single c :
  is_terminal c = true → ends_with_terminal [c].
Proof. intros Hc. by exists c. Qed.

Lemma scan_of_after c : scan_of c = AfterTerminal → is_terminal c = true.
Proof. unfold scan_of. by destruct (is_terminal c). Qed.

Lemma scan_of_not_separator c : scan_of c ≠ InSeparator.
Proof. unfold scan_of. by destruct (is_terminal c). Qed.

(** A piece that is followed by another one ends with a terminal mark. *)
Lemma re_split_go_ends st s p ps :
  re_split_go st s = p :: ps →
  (ps ≠ [] → (p = [] ∧ st = AfterTerminal) ∨ ends_with_terminal p)
  ∧ Forall ends_with_terminal (Text.but_last ps).
Proof.
  revert st p ps. induction s as [|c r IH]; intros st p ps Hgo.
  { injection Hgo as <- <-. by split. }
  assert (Hcons : cons_head c (re_split_go (scan_of c) r) = p :: ps →
    (ps ≠ [] → (p = [] ∧ st = AfterTerminal) ∨ ends_with_terminal p)
    ∧ Forall ends_with_terminal (Text.but_last ps)).
  { destruct (re_split_go (scan_of c) r) as [|x xs] eqn:Hx;
      [by apply re_split_go_nonempty in Hx|].
    intros [= <- <-]. destruct (IH _ _ _ Hx) as [Hhead Hrest].
    split; [|done]. intros Hxs. right.
    destruct (Hhead Hxs) as [[-> Hsc]|Hend].
    - by apply ends_with_terminal_single, scan_of_after.
    - by apply ends_with_terminal_cons. }
  simpl in Hgo. destruct st; destruct (is_space c); auto.
  injection Hgo as <- <-. split; [auto|].
  destruct (re_split_go InSeparator r) as [|x xs] eqn:Hx;
    [by apply re_split_go_nonempty in Hx|].
  destruct (IH _ _ _ Hx) as [Hhead Hrest].
  destruct xs as [|y ys]; [by rewrite but_last_singleton|].
  rewrite but_last_cons. constructor; [|done].
  by destruct Hhead as [[_ ?]|?].
Qed.

(** No piece holds a place where the text should have been split, and no
    piece but the first starts with white space. *)
Lemma re_split_go_no_split_point st s :
  Forall (λ p, has_split_point p = false) (re_split_go st s)
  ∧ Forall (λ p, starts_with_space p = false) (tail (re_split_go st s))
  ∧ (st ≠ Elsewhere →
     starts_with_space (default [] (head (re_split_go st s))) = false).
Proof.
  revert st. induction s as [|c r IH]; intros st.
  { simpl. by repeat constructor. }
  assert (Hcons :
    Forall (λ p, has_split_point p = false)
           (cons_head c (re_split_go (scan_of c) r))
    ∧ Forall (λ p, starts_with_space p = false)
             (tail (cons_head c (re_split_go (scan_of c) r)))
    ∧ (is_space c = false →
       starts_with_space
         (default [] (head (cons_head c (re_split_go (scan_of c) r))))
       = false)).
  { destruct (IH (scan_of c)) as (Hsp & Htl & Hhd).
    destruct (re_split_go (scan_of c) r) as [|x xs] eqn:Hx;
      [by apply re_split_go_nonempty in Hx|].
    simpl in *. inversion_clear Hsp as [|?? Hx0 Hxs].
    split; [|by split].
    constructor; [|done]. simpl. rewrite Hx0, orb_false_r.
    unfold scan_of in Hhd. destruct (is_terminal c); [|done].
    simpl. by apply Hhd. }
  destruct Hcons as (H1 & H2 & H3).
  simpl. destruct st; destruct (is_space c) eqn:Hc;
    try (by split; [|split]; auto).
  - destruct (IH InSeparator) as (Hsp & Htl & Hhd).
    split; [by constructor|]. split; [|done]. simpl.
    destruct (re_split_go InSeparator r) as [|x xs]; [done|].
    constructor; [by apply Hhd|done].
  - apply IH.
Qed.

Lemma pieces_end_with_terminal text :
  Forall ends_with_terminal (Text.but_last (re_split_sentences text)).
Proof.
  unfold re_split_sentences.
  destruct (re_split_go Elsewhere text) as [|p ps] eqn:Hgo; [constructor|].
  destruct (re_split_go_ends _ _ _ _ Hgo) as [Hhead Hrest].
  destruct ps as [|q ps]; [by rewrite but_last_singleton|].
  rewrite but_last_cons. constructor; [|done].
  by destruct Hhead as [[_ ?]|?].
Qed.
End SplitFacts.

Section StripFacts.
Import Text.

Lemma all_space_append s t :
  all_space (s +:+ t) = all_space s && all_space t.
Proof.
  induction s as [|c s IH]; [done|]. rewrite append_cons. simpl.
  by rewrite IH, andb_assoc.
Qed.

(** [lstrip] removes a run of white space in front, and all of it. *)
Lemma lstrip_spec s :
  ∃ ws, s = ws +:+ lstrip s ∧ all_space ws = true
        ∧ starts_with_space (lstrip s) = false.
Proof.
  induction s as [|c s (ws & Hs & Hws & Hst)]; [by exists ""|]. simpl.
  destruct (is_space c) eqn:Hc.
  - exists (String c ws). rewrite append_cons, <- Hs. simpl.
    by rewrite Hc, Hws.
  - exists "". simpl. by rewrite Hc.
Qed.

(** [rstrip] removes a run of white space at the end, and all of it. *)
Lemma rstrip_spec s :
  ∃ ws, s = rstrip s +:+ ws ∧ all_space ws = true
        ∧ ∀ c, last_char (rstrip s) = Some c → is_space c = false.
Proof.
  induction s as [|c s (ws & Hs & Hws & Hlast)].
  { exists "". by repeat split. }
  simpl. destruct (rstrip s) as [|d r'] eqn:Hr.
  - destruct (is_space c) eqn:Hc.
    + exists (String c ws). rewrite append_nil_l in *. subst s. simpl.
      by rewrite Hc, Hws.
    + exists ws. rewrite append_cons, <- Hs. repeat split; [done|].
      simpl. by intros ? [= <-].
  - exists ws. rewrite append_cons, <- Hs. repeat split; [done|].
    intros e. simpl. intros He. apply Hlast. simpl.
    by destruct (last_char r').
Qed.

(** [strip] takes white space off both ends and nothing else. *)
Lemma strip_spec s :
  ∃ ws1 ws2, s = ws1 +:+ strip s +:+ ws2
             ∧ all_space ws1 = true ∧ all_space ws2 = true.
Proof.
  destruct (lstrip_spec s) as (ws1 & H1 & Hws1 & _).
  destruct (rstrip_spec (lstrip s)) as (ws2 & H2 & Hws2 & _).
  exists ws1, ws2. unfold strip. by rewrite <- H2, <- H1.
Qed.
End StripFacts.

Section CodePointStripFacts.
Import Unicode.

Lemma all_space_app s t : all_space (s ++ t) = all_space s && all_space t.
Proof. apply forallb_app. Qed.

(** [lstrip] removes a run of white space in front, and all of it. *)
Lemma str_lstrip_spec s :
  ∃ ws, s = ws ++ lstrip s ∧ all_space ws = true
        ∧ starts_with_space (lstrip s) = false.
Proof.
  induction s as [|c s (ws & Hs & Hws & Hst)]; [by exists []|]. simpl.
  destruct (is_space c) eqn:Hc.
  - exists (c :: ws). simpl. by rewrite <- Hs, Hc, Hws.
  - exists []. simpl. by rewrite Hc.
Qed.

(** [rstrip] removes a run of white space at the end, and all of it. *)
Lemma str_rstrip_spec s :
  ∃ ws, s = rstrip s ++ ws ∧ all_space ws = true
        ∧ ∀ c, last (rstrip s) = Some c → is_space c = false.
Proof.
  induction s as [|c s (ws & Hs & Hws & Hlast)].
  { exists []. by repeat split. }
  simpl. destruct (rstrip s) as [|d r'] eqn:Hr.
  - destruct (is_space c) eqn:Hc.
    + exists (c :: ws). simpl in *. subst s. simpl.
      by rewrite Hc, Hws.
    + exists ws. simpl in *. subst s.
      split; [done|]. split; [done|]. by intros ? [= <-].
  - exists ws. split; [simpl in *; congruence|]. split; [done|].
    intros e. rewrite last_cons.
    destruct (last (d :: r')) as [y|] eqn:Hl.
    + intros [= <-]. by apply Hlast.
    + rewrite last_cons in Hl. by destruct (last r').
Qed.

(** [strip] takes white space off both ends and nothing else. *)
Lemma str_strip_spec s :
  ∃ ws1 ws2, s = ws1 ++ strip s ++ ws2
             ∧ all_space ws1 = true ∧ all_space ws2 = true.
Proof.
  destruct (str_lstrip_spec s) as (ws1 & H1 & Hws1 & _).
  destruct (str_rstrip_spec (lstrip s)) as (ws2 & H2 & Hws2 & _).
  exists ws1, ws2. unfold strip. by rewrite <- H2, <- H1.
Qed.

Lemma str_lstrip_fixed s : starts_with_space s = false → lstrip s = s.
Proof. destruct s as [|c s]; simpl; [done|]. by intros ->. Qed.

Lemma str_rstrip_fixed s :
  (∀ c, last s = Some c → is_space c = false) → rstrip s = s.
Proof.
  induction s as [|c s IH]; [done|]. intros Hlast. simpl.
  rewrite IH.
  - destruct s as [|d s']; [|done].
    by rewrite (Hlast c).
  - intros d Hd. apply Hlast. by rewrite last_cons, Hd.
Qed.

Lemma str_rstrip_starts_with_space s :
  starts_with_space s = false → starts_with_space (rstrip s) = false.
Proof.
  destruct s as [|c s]; [done|]. simpl. intros Hc.
  destruct (rstrip s); simpl; by rewrite ?Hc.
Qed.

Lemma str_strip_idemp s : strip (strip s) = strip s.
Proof.
  unfold strip.
  destruct (str_lstrip_spec s) as (_ & _ & _ & Hst).
  destruct (str_rstrip_spec (lstrip s)) as (_ & _ & _ & Hlast).
  rewrite (str_lstrip_fixed (rstrip (lstrip s)))
    by by apply str_rstrip_starts_with_space.
  by apply str_rstrip_fixed.
Qed.
End CodePointStripFacts.

Section ChunkFacts.
Import Unicode Segmenter.

Lemma chunk_loop_done fuel i chunk_size (sentences : list str) :
  List.length sentences ≤ i → chunk_loop fuel i chunk_size sentences = [].
Proof.
  intros Hi. destruct fuel; [done|]. simpl.
  by rewrite (proj2 (Nat.ltb_ge _ _)).
Qed.

(** The loop cuts the sentences from position [i = k * chunk_size] on into
    consecutive groups, numbered from [k]. *)
Lemma chunk_loop_spec chunk_size (sentences : list str) fuel k :
  0 < chunk_size →
  List.length sentences - k * chunk_size ≤ fuel →
  ∃ groups,
    chunk_loop fuel (k * chunk_size) chunk_size sentences
    = imap (λ j g, (k + j, join (of_ascii " ") g)) groups
    ∧ concat groups = drop (k * chunk_size) sentences
    ∧ (groups ≠ [] → k * chunk_size < List.length sentences)
    ∧ Forall (λ g, 0 < List.length g ≤ chunk_size) groups
    ∧ Forall (λ g, List.length g = chunk_size) (Text.but_last groups).
Proof.
  intros Hcs. revert k.
  induction fuel as [|fuel IH]; intros k Hfuel.
  { exists []. repeat split; try done.
    by rewrite drop_ge by lia. }
  simpl. destruct (_ <? _)%nat eqn:Hlt.
  - apply Nat.ltb_lt in Hlt.
    destruct (IH (S k)) as (groups & Hloop & Hcat & Hne & Hlen & Hfull);
      [simpl; lia|].
    exists (take chunk_size (drop (k * chunk_size) sentences) :: groups).
    repeat split.
    + simpl. rewrite Nat.div_mul by lia.
      replace (k * chunk_size + chunk_size) with (S k * chunk_size) by lia.
      rewrite Hloop, Nat.add_0_r. f_equal.
      apply imap_ext. intros j g _. simpl. f_equal. lia.
    + simpl. rewrite Hcat.
      replace (S k * chunk_size) with (k * chunk_size + chunk_size) by lia.
      by rewrite <- drop_drop, take_drop.
    + done.
    + constructor; [|done]. rewrite length_take, length_drop. lia.
    + destruct groups as [|g groups]; [by rewrite but_last_singleton|].
      rewrite but_last_cons. constructor; [|done].
      rewrite length_take, length_drop.
      assert (S k * chunk_size < List.length sentences) by (by apply Hne).
      lia.
  - apply Nat.ltb_ge in Hlt. exists []. repeat split; try done.
    by rewrite drop_ge.
Qed.

Lemma filter_ext_elem {A} (P Q : A → bool) l :
  (∀ x, P x = Q x) → List.filter P l = List.filter Q l.
Proof.
  intros HPQ. induction l as [|x l IH]; [done|]. simpl.
  by rewrite HPQ, IH.
Qed.

(** A sentence longer than three characters is not empty. *)
Lemma long_sentences pieces :
  List.filter (λ sentence, non_empty sentence
                           && (3 <? List.length sentence)%nat) pieces
  = List.filter (λ s, (3 <? List.length s)%nat) pieces.
Proof. apply filter_ext_elem. by intros []. Qed.
End ChunkFacts.

(** C10.  [split_into_sentences] cuts the text at the runs of white space
    that directly follow a full stop, an exclamation mark or a question
    mark (the pieces and these separators make up the text, every piece
    that is followed by another ends with such a mark, and no piece holds
    a further place to cut), strips the pieces and keeps, in order, those
    longer than three characters; a shorter one is dropped.  For a positive
    chunk size [split_text_into_chunks] cuts these sentences, in order,
    into groups of [chunk_size] sentences (the last group may be shorter),
    joins each group with spaces and numbers the chunks 0, 1, 2, ... *)
Theorem sentences_and_chunks (text : Unicode.str) (chunk_size : Z) :
  (0 < chunk_size)%Z →
  let pieces := Unicode.re_split_sentences text in
  let sentences := Segmenter.split_into_sentences text in
  (∃ seps, List.length seps + 1 = List.length pieces
           ∧ Forall Unicode.is_separator seps
           ∧ Unicode.interleave pieces seps = text)
  ∧ Forall Unicode.ends_with_terminal (Text.but_last pieces)
  ∧ Forall (λ p, Unicode.has_split_point p = false) pieces
  ∧ Forall (λ p, Unicode.starts_with_space p = false) (tail pieces)
  ∧ sentences
    = List.filter (λ s, (3 <? List.length s)%nat) (Unicode.strip <$> pieces)
  ∧ Forall (λ s, 3 < List.length s) sentences
  ∧ (∀ p, List.length (Unicode.strip p) ≤ 3 → Unicode.strip p ∉ sentences)
  ∧ ∃ groups,
      Segmenter.split_text_into_chunks text chunk_size
      = Some (imap (λ k g, (k, Unicode.join (Unicode.of_ascii " ") g))
                   groups)
      ∧ concat groups = sentences
      ∧ Forall (λ g, 0 < List.length g ≤ Z.to_nat chunk_size) groups
      ∧ Forall (λ g, List.length g = Z.to_nat chunk_size)
               (Text.but_last groups).
Proof.
  intros Hcs pieces sentences.
  assert (Hsent : sentences
    = List.filter (λ s, (3 <? List.length s)%nat)
                  (Unicode.strip <$> pieces)) by apply long_sentences.
  assert (Hfilter : ∀ s, s ∈ sentences → 3 < List.length s).
  { intros s Hs. rewrite Hsent in Hs.
    apply list_elem_of_In, filter_In in Hs as [_ Hs].
    by apply Nat.ltb_lt in Hs. }
  split.
  { destruct (re_split_go_interleave Unicode.Elsewhere text)
      as (ws & seps & Ht & _ & Hws & Hlen & Hseps).
    exists seps. repeat split; [done..|].
    rewrite Hws in Ht by done. by symmetry. }
  split; [apply pieces_end_with_terminal|].
  destruct (re_split_go_no_split_point Unicode.Elsewhere text)
    as (Hsp & Htl & _).
  do 2 (split; [done|]).
  split; [exact Hsent|].
  split; [by apply Forall_forall|].
  split.
  { intros p Hp Hin. apply Hfilter in Hin. lia. }
  unfold Segmenter.split_text_into_chunks.
  rewrite decide_False, decide_False by lia.
  destruct (chunk_loop_spec (Z.to_nat chunk_size) sentences
              (List.length sentences) 0)
    as (groups & Hloop & Hcat & _ & Hlen & Hfull); [lia..|].
  exists groups. split; [|by split].
  f_equal. exact Hloop.
Qed.

Lemma sentences_and_chunks_witness :
  (0 < 2)%Z
  ∧ Segmenter.split_into_sentences
      (Unicode.of_ascii
         "One one. Hi. Two two!  Three three? Four four. Five five.")
    = Unicode.of_ascii
        <$> ["One one."; "Two two!"; "Three three?"; "Four four.";
             "Five five."]
  ∧ ∃ groups,
      Segmenter.split_text_into_chunks
        (Unicode.of_ascii
           "One one. Hi. Two two!  Three three? Four four. Five five.") 2
      = Some (imap (λ k g, (k, Unicode.join (Unicode.of_ascii " ") g))
                   groups)
      ∧ concat groups
        = Segmenter.split_into_sentences
            (Unicode.of_ascii
               "One one. Hi. Two two!  Three three? Four four. Five five.").
Proof.
  split; [lia|]. split; [by vm_compute|].
  destruct (sentences_and_chunks
              (Unicode.of_ascii
                 "One one. Hi. Two two!  Three three? Four four. Five five.")
              2 ltac:(lia))
    as (_ & _ & _ & _ & _ & _ & _ & groups & Hc & Hg & _).
  by exists groups.
Defined.

(** Characters are counted, not bytes, and white space is Unicode's:
    "Où?" has three characters and is dropped, a no-break space inside a
    sentence stays, and an em space after a full stop is a place to
    cut. *)
Lemma sentences_of_accented_text :
  Unicode.re_split_sentences SegmentExamples.accented
  = [[79; 249; 63]%N;
     Unicode.of_ascii "Hello" ++ [160%N] ++ Unicode.of_ascii "world.";
     Unicode.of_ascii "Bye."]
  ∧ Segmenter.split_into_sentences SegmentExamples.accented
    = [Unicode.of_ascii "Hello" ++ [160%N] ++ Unicode.of_ascii "world.";
       Unicode.of_ascii "Bye."].
Proof. by vm_compute. Qed.

(** ** Entity count *)

Section GraphFacts.
Import Graph Writer.

Lemma connects_count_app h g es :
  List.length (List.filter (λ e : string * role * string,
                              bool_decide (e.1.1 = h)) (connects g ++ es))
  = connects_count h g
    + List.length (List.filter (λ e : string * role * string,
                                  bool_decide (e.1.1 = h)) es).
Proof. unfold connects_count. by rewrite List.filter_app, length_app. Qed.

(** Entities, one after the other: nothing but the entity set changes. *)
Lemma foldl_merge_entity names g :
  let g' := foldl (λ g' n, merge_entity n g') g names in
  hyperedges g' = hyperedges g ∧ contexts g' = contexts g
  ∧ connects g' = connects g ∧ valid_in g' = valid_in g.
Proof.
  revert g. induction names as [|n names IH]; intros g; [done|].
  apply (IH (merge_entity n g)).
Qed.

Lemma merge_contexts_other cs g :
  hyperedges (merge_contexts cs g) = hyperedges g
  ∧ connects (merge_contexts cs g) = connects g
  ∧ valid_in (merge_contexts cs g) = valid_in g.
Proof.
  unfold merge_contexts. revert g.
  induction cs as [|c cs IH]; intros g; [done|].
  apply (IH (merge_context c.1 c.2 g)).
Qed.

Lemma foldl_merge_valid_in h cs g :
  let g' := foldl (λ g' c, merge_valid_in h c g') g cs in
  hyperedges g' = hyperedges g ∧ connects g' = connects g.
Proof.
  revert g. induction cs as [|c cs IH]; intros g; [done|].
  simpl. destruct (IH (merge_valid_in h c g)) as [-> ->].
  unfold merge_valid_in. by case_decide.
Qed.

(** MERGE of the relationships to distinct entities that are not yet
    connected adds one relationship for each. *)
Lemma foldl_merge_connects h r names g :
  NoDup names →
  (∀ n, n ∈ names → (h, r, n) ∉ connects g) →
  let g' := foldl (λ g' n, merge_connects h r n g') g names in
  hyperedges g' = hyperedges g
  ∧ connects g' = connects g ++ ((λ n, (h, r, n)) <$> names)
  ∧ valid_in g' = valid_in g.
Proof.
  revert g. induction names as [|n names IH]; intros g Hnd Hnew.
  { simpl. by rewrite app_nil_r. }
  apply NoDup_cons in Hnd as [Hn Hnd]. simpl.
  assert (Hm : merge_connects h r n g = create_connects h r n g).
  { unfold merge_connects. rewrite decide_False; [done|].
    apply Hnew. by left. }
  rewrite Hm.
  destruct (IH (create_connects h r n g) Hnd) as (-> & -> & ->).
  - intros m Hm'. simpl. rewrite elem_of_app, list_elem_of_singleton.
    intros [Hin|[= ->]]; [|done]. eapply Hnew; [|done]. by right.
  - simpl. by rewrite <- app_assoc.
Qed.

Lemma connect_new_spec h r names g :
  hyperedges (connect_new h r names g) = hyperedges g
  ∧ connects (connect_new h r names g)
    = connects g ++ ((λ n, (h, r, n)) <$> names).
Proof.
  unfold connect_new. revert g.
  induction names as [|n names IH]; intros g.
  { simpl. by rewrite app_nil_r. }
  simpl. destruct (IH (create_connects h r n (merge_entity n g))) as [-> ->].
  simpl. by rewrite <- app_assoc.
Qed.

Lemma attach_contexts_spec h cs g :
  hyperedges (attach_contexts h cs g) = hyperedges g
  ∧ connects (attach_contexts h cs g) = connects g.
Proof.
  unfold attach_contexts. revert g.
  induction cs as [|c cs IH]; intros g; [done|].
  simpl. destruct (IH (merge_valid_in h c.1 (merge_context c.1 c.2 g)))
    as [-> ->].
  unfold merge_valid_in. by case_decide.
Qed.

(** The recount makes the property equal to the number of relationships,
    as soon as there is one. *)
Lemma recount_consistent h g :
  is_Some (hyperedges g !! h) → 0 < connects_count h g →
  entity_count_consistent h (recount h g).
Proof.
  intros [p Hp] Hc. unfold entity_count_consistent, recount.
  destruct (connects_count h g) as [|n] eqn:Hn; [lia|].
  unfold connects_count in *. simpl.
  by rewrite lookup_alter_eq, Hp, Hn.
Qed.

(** The append statement leaves [entity_count] equal to the number of
    CONNECTS relationships of the hyperedge. *)
Lemma append_to_consistent e f g :
  eh_id e ≠ "" →
  is_Some (hyperedges g !! eh_id e) →
  0 < connects_count (eh_id e) g →
  entity_count_consistent (eh_id e) (append_to e f g).
Proof.
  intros Hid [p Hp] Hc. unfold append_to.
  rewrite bool_decide_false by done.
  rewrite bool_decide_false by (by rewrite Hp).
  apply recount_consistent.
  - rewrite !(proj1 (attach_contexts_spec _ _ _)).
    rewrite !(proj1 (connect_new_spec _ _ _ _)). by rewrite Hp.
  - unfold connects_count at 1.
    rewrite (proj2 (attach_contexts_spec _ _ _)).
    rewrite (proj2 (attach_contexts_spec _ _ _)).
    rewrite (proj2 (connect_new_spec _ _ _ _)).
    rewrite (proj2 (connect_new_spec _ _ _ _)).
    rewrite !List.filter_app, !length_app. unfold connects_count in Hc. lia.
Qed.

Lemma filter_source_fmap h r (names : list string) :
  List.filter (λ e : string * role * string, bool_decide (e.1.1 = h))
              ((λ n, (h, r, n)) <$> names)
  = (λ n, (h, r, n)) <$> names.
Proof.
  induction names as [|n names IH]; [done|]. csimpl.
  rewrite bool_decide_true by done. by rewrite IH.
Qed.

Lemma connects_count_zero h g r n :
  connects_count h g = 0 → (h, r, n) ∉ connects g.
Proof.
  unfold connects_count. intros Hz Hin.
  apply list_elem_of_In in Hin.
  assert (Hf : In (h, r, n)
                  (List.filter (λ e : string * role * string,
                                  bool_decide (e.1.1 = h)) (connects g))).
  { apply filter_In. split; [done|]. by apply bool_decide_eq_true. }
  destruct (List.filter _ (connects g)); [done|]. simpl in Hz. lia.
Qed.

(** Fresh creation is consistent when the hyperedge is new and neither the
    subjects nor the objects repeat an entity. *)
Lemma fresh_create_consistent f g :
  NoDup (subjects f) → NoDup (objects f) →
  hyperedges g !! fresh_hyperedge_id f = None →
  connects_count (fresh_hyperedge_id f) g = 0 →
  entity_count_consistent (fresh_hyperedge_id f) (fresh_create f g).
Proof.
  intros Hs Ho Hnew Hzero. unfold fresh_create.
  set (h := fresh_hyperedge_id f) in *.
  set (g1 := foldl (λ g' s, merge_entity s g') g (subjects f)).
  set (g2 := foldl (λ g' o, merge_entity o g') g1 (objects f)).
  set (g3 := merge_contexts (fresh_contexts f) g2).
  set (p := {| relation_type := relation f;
               entity_count := List.length (subjects f)
                               + List.length (objects f) |}).
  set (g4 := merge_hyperedge h p g3).
  set (g5 := foldl (λ g' s, merge_connects h Subject s g') g4 (subjects f)).
  set (g6 := foldl (λ g' o, merge_connects h Object o g') g5 (objects f)).
  destruct (foldl_merge_entity (subjects f) g) as (Hh1 & _ & Hc1 & _).
  destruct (foldl_merge_entity (objects f) g1) as (Hh2 & _ & Hc2 & _).
  destruct (merge_contexts_other (fresh_contexts f) g2) as (Hh3 & Hc3 & _).
  fold g1 in Hh1, Hc1. fold g2 in Hh2, Hc2. fold g3 in Hh3, Hc3.
  assert (Hg3 : hyperedges g3 !! h = None) by (by rewrite Hh3, Hh2, Hh1).
  assert (Hc4 : connects g4 = connects g)
    by (by unfold g4; simpl; rewrite Hc3, Hc2, Hc1).
  assert (Hh4 : hyperedges g4 !! h = Some p).
  { unfold g4, merge_hyperedge. simpl. rewrite Hg3. apply lookup_insert_eq. }
  destruct (foldl_merge_connects h Subject (subjects f) g4 Hs)
    as (Hh5 & Hc5 & _).
  { intros n _. rewrite Hc4. by apply connects_count_zero. }
  fold g5 in Hh5, Hc5.
  destruct (foldl_merge_connects h Object (objects f) g5 Ho)
    as (Hh6 & Hc6 & _).
  { intros n _. rewrite Hc5, Hc4, elem_of_app, list_elem_of_fmap.
    intros [Hin|(m & [=] & _)].
    by apply (connects_count_zero h g Object n) in Hin. }
  fold g6 in Hh6, Hc6.
  destruct (foldl_merge_valid_in h (fresh_contexts f).*1 g6) as [Hh7 Hc7].
  unfold entity_count_consistent, connects_count.
  rewrite Hh7, Hc7, Hh6, Hh5, Hh4, Hc6, Hc5, Hc4. simpl. f_equal.
  rewrite !List.filter_app, !length_app, !filter_source_fmap, !length_fmap.
  unfold connects_count in Hzero. lia.
Qed.
End GraphFacts.


(** C4 (the code departs from the claim).  Fresh creation sets
    [entity_count] to the length of the subject list plus the length of
    the object list, while the relationships are MERGEd: a fact that names
    John twice as subject and cats as object leaves the new hyperedge with
    [entity_count = 3] and two CONNECTS relationships.  (The append
    statement counts the relationships themselves, see
    [append_to_consistent].) *)
Theorem fresh_create_entity_count_mismatch :
  let f :=
    {| Writer.subjects := ["John"; "John"];
       Writer.objects := ["cats"];
       Writer.relation := "likes";
       Writer.temporal_intervals := [(Some "2020-01-01T00:00:00", None)];
       Writer.spatial_contexts := [] |} in
  let h := Writer.fresh_hyperedge_id f in
  let g := Writer.fresh_create f Graph.empty in
  h = "he_358453c1ce67edba"
  ∧ Graph.connects g = [(h, Graph.Subject, "John"); (h, Graph.Object, "cats")]
  ∧ Graph.connects_count h g = 2
  ∧ Graph.entity_count <$> (Graph.hyperedges g !! h) = Some 3
  ∧ ¬ Graph.entity_count_consistent h g.
Proof.
  unfold Graph.entity_count_consistent. vm_compute.
  repeat split; congruence.
Qed.

(** ** Contexts are never orphaned *)

Section ContextFacts.
Import Graph Writer.

Lemma filter_all {A} (P : A → bool) (l : list A) :
  (∀ x, x ∈ l → P x = true) → List.filter P l = l.
Proof.
  induction l as [|x l IH]; intros Hl; [done|]. simpl.
  rewrite Hl by left. rewrite IH; [done|]. intros y Hy. apply Hl. by right.
Qed.

Lemma elem_of_filter {A} (P : A → bool) (l : list A) x :
  x ∈ List.filter P l ↔ x ∈ l ∧ P x = true.
Proof. by rewrite !list_elem_of_In, filter_In. Qed.

Lemma elem_of_targets (es : list (string * string)) c :
  c ∈ es.*2 ↔ ∃ h, (h, c) ∈ es.
Proof.
  rewrite list_elem_of_fmap. split.
  - intros ([h c'] & -> & Hin). by exists h.
  - intros [h Hin]. by exists (h, c).
Qed.

Lemma detach_delete_context_orphan c g :
  c ∉ (valid_in g).*2 → valid_in (detach_delete_context c g) = valid_in g.
Proof.
  intros Hc. simpl. apply filter_all. intros [h c'] Hin.
  apply negb_true_iff, bool_decide_eq_false. simpl. intros ->.
  apply Hc, elem_of_targets. by exists h.
Qed.

(** Deleting contexts without incoming relationship removes these nodes
    and nothing else. *)
Lemma foldl_detach_delete cs g :
  (∀ c, c ∈ cs → c ∉ (valid_in g).*2) →
  let g' := foldl (λ g' c, detach_delete_context c g') g cs in
  valid_in g' = valid_in g
  ∧ hyperedges g' = hyperedges g
  ∧ ∀ c, contexts g' !! c
         = if decide (c ∈ cs) then None else contexts g !! c.
Proof.
  revert g. induction cs as [|c cs IH]; intros g Hcs.
  { by repeat split. }
  simpl.
  assert (Hv : valid_in (detach_delete_context c g) = valid_in g).
  { apply detach_delete_context_orphan, Hcs. by left. }
  destruct (IH (detach_delete_context c g)) as (-> & -> & Hctx).
  { intros c' Hc'. rewrite Hv. apply Hcs. by right. }
  repeat split; [done|]. intros c'. rewrite Hctx. simpl.
  destruct (decide (c' = c)) as [->|Hne].
  - rewrite (decide_True (P := c ∈ c :: cs)) by left.
    case_decide; [done|]. apply lookup_delete_eq.
  - rewrite lookup_delete_ne by done.
    destruct (decide (c' ∈ cs)) as [Hin|Hnin].
    + by rewrite decide_True by (by right).
    + rewrite decide_False; [done|].
      rewrite elem_of_cons. tauto.
Qed.

Lemma delete_orphans_spec cs g :
  valid_in (delete_orphans cs g) = valid_in g
  ∧ hyperedges (delete_orphans cs g) = hyperedges g
  ∧ ∀ c, contexts (delete_orphans cs g) !! c
         = if decide (c ∈ cs ∧ c ∉ (valid_in g).*2) then None
           else contexts g !! c.
Proof.
  unfold delete_orphans.
  destruct (foldl_detach_delete (List.filter (λ c, orphaned c g) cs) g)
    as (Hv & Hh & Hc).
  { intros c Hc. apply elem_of_filter in Hc as [_ Hc].
    by apply bool_decide_eq_true in Hc. }
  repeat split; [done..|]. intros c. rewrite Hc.
  unfold orphaned.
  destruct (decide (c ∈ cs ∧ c ∉ (valid_in g).*2)) as [[H1 H2]|Hn].
  - rewrite decide_True; [done|]. apply elem_of_filter.
    split; [done|]. by apply bool_decide_eq_true.
  - rewrite decide_False; [done|]. rewrite elem_of_filter, bool_decide_eq_true.
    tauto.
Qed.

Lemma merge_valid_in_spec h new g :
  contexts (merge_valid_in h new g) = contexts g
  ∧ hyperedges (merge_valid_in h new g) = hyperedges g
  ∧ ∀ e, e ∈ valid_in (merge_valid_in h new g)
         ↔ e ∈ valid_in g ∨ e = (h, new).
Proof.
  unfold merge_valid_in. case_decide as Hin; simpl.
  - split; [done|]. split; [done|]. intros e. split; [tauto|].
    by intros [?| ->].
  - split; [done|]. split; [done|]. intros e.
    by rewrite elem_of_app, list_elem_of_singleton.
Qed.

Lemma foldl_merge_valid_in_spec rows new g :
  let g' := foldl (λ g' h, merge_valid_in h new g') g rows in
  contexts g' = contexts g
  ∧ hyperedges g' = hyperedges g
  ∧ ∀ e, e ∈ valid_in g' ↔ e ∈ valid_in g ∨ (e.1 ∈ rows ∧ e.2 = new).
Proof.
  revert g. induction rows as [|h rows IH]; intros g.
  { simpl. split; [done|]. split; [done|]. intros e. split; [tauto|].
    intros [?|[Hin _]]; [done|]. by apply not_elem_of_nil in Hin. }
  simpl. destruct (IH (merge_valid_in h new g)) as (-> & -> & He).
  destruct (merge_valid_in_spec h new g) as (-> & -> & Hm).
  split; [done|]. split; [done|]. intros e. rewrite He, Hm, elem_of_cons.
  destruct e as [h' c]. simpl. split.
  - intros [[?|[= -> ->]]|[? ?]]; tauto.
  - intros [?|[[->|?] ->]]; tauto.
Qed.

Lemma delete_valid_in_spec rows sel g e :
  e ∈ valid_in (delete_valid_in rows sel g)
  ↔ e ∈ valid_in g ∧ ¬ (e.1 ∈ rows ∧ sel e.2 = true).
Proof.
  simpl. rewrite elem_of_filter, negb_true_iff, andb_false_iff.
  rewrite bool_decide_eq_false.
  split; intros [Hin Hn]; (split; [done|]).
  - intros [H1 H2]. destruct Hn as [Hn|Hn]; [done|]. by rewrite H2 in Hn.
  - destruct (decide (e.1 ∈ rows)); [|by left].
    right. destruct (sel e.2); [|done]. tauto.
Qed.

Lemma elem_of_contexts_of h c g :
  c ∈ contexts_of h g ↔ (h, c) ∈ valid_in g.
Proof.
  unfold contexts_of. rewrite list_elem_of_fmap. split.
  - intros ([h' c'] & -> & Hin). apply elem_of_filter in Hin as [Hin Hh].
    apply bool_decide_eq_true in Hh. simpl in *. by subst.
  - intros Hin. exists (h, c). split; [done|]. apply elem_of_filter.
    split; [done|]. by apply bool_decide_eq_true.
Qed.

Lemma elem_of_rows_contexts rows c g :
  c ∈ (h ← rows; contexts_of h g) ↔ ∃ h, h ∈ rows ∧ (h, c) ∈ valid_in g.
Proof.
  rewrite list_elem_of_bind. split.
  - intros (h & Hc & Hh). exists h. by rewrite <- elem_of_contexts_of.
  - intros (h & Hh & Hc). exists h. by rewrite elem_of_contexts_of.
Qed.

Lemma merge_context_lookup new p g c :
  is_Some (contexts g !! c) →
  contexts (merge_context new p g) !! c = contexts g !! c.
Proof.
  intros Hc. simpl. destruct (contexts g !! new) eqn:Hnew; [done|].
  rewrite lookup_insert_ne; [done|]. intros ->. rewrite Hnew in Hc.
  by destruct Hc.
Qed.

Lemma merge_context_is_Some new p g :
  is_Some (contexts (merge_context new p g) !! new).
Proof.
  simpl. destruct (contexts g !! new) eqn:Hnew; [by rewrite Hnew|].
  by rewrite lookup_insert_eq.
Qed.

Lemma merge_context_inv new p g c :
  is_Some (contexts (merge_context new p g) !! c) →
  c = new ∨ is_Some (contexts g !! c).
Proof.
  simpl. destruct (contexts g !! new) eqn:Hnew; [by right|].
  destruct (decide (c = new)) as [->|Hne]; [by left|].
  rewrite lookup_insert_ne by done. by right.
Qed.

(** What the rewiring statement leaves behind. *)
Lemma rewire_contexts_spec rows new p g :
  rows ≠ [] →
  let g' := rewire_contexts rows new p g in
  (∀ e, e ∈ valid_in g'
        ↔ (e ∈ valid_in g ∨ (e.1 ∈ rows ∧ e.2 = new))
          ∧ ¬ (e.1 ∈ rows ∧ e.2 ≠ new))
  ∧ (∀ c, contexts g' !! c
          = if decide ((c ≠ new ∧ c ∈ (h ← rows; contexts_of h g))
                       ∧ c ∉ (valid_in g').*2)
            then None else contexts (merge_context new p g) !! c).
Proof.
  intros Hrows. unfold rewire_contexts.
  destruct rows as [|h0 rows0] eqn:Hr; [done|]. rewrite <- Hr. clear Hr Hrows.
  set (g1 := merge_context new p g).
  set (g2 := foldl (λ g' h, merge_valid_in h new g') g1 rows).
  set (is_old := λ c, negb (bool_decide (c = new))).
  set (old := List.filter is_old (h ← rows; contexts_of h g2)).
  set (g3 := delete_valid_in rows is_old g2).
  destruct (foldl_merge_valid_in_spec rows new g1) as (Hc2 & _ & He2).
  fold g2 in Hc2, He2.
  destruct (delete_orphans_spec old g3) as (Hv4 & _ & Hc4).
  assert (He4 : ∀ e, e ∈ valid_in (delete_orphans old g3)
                     ↔ (e ∈ valid_in g ∨ (e.1 ∈ rows ∧ e.2 = new))
                       ∧ ¬ (e.1 ∈ rows ∧ e.2 ≠ new)).
  { intros e. rewrite Hv4. unfold g3. rewrite delete_valid_in_spec, He2.
    unfold is_old. rewrite negb_true_iff, bool_decide_eq_false. done. }
  split; [done|]. intros c. rewrite Hc4.
  change (contexts g3) with (contexts g2). rewrite Hc2, <- Hv4.
  assert (Hold : c ∈ old ↔ c ≠ new ∧ c ∈ (h ← rows; contexts_of h g)).
  { unfold old. rewrite elem_of_filter, !elem_of_rows_contexts.
    unfold is_old. rewrite negb_true_iff, bool_decide_eq_false.
    split.
    - intros [(h & Hh & Hin) Hne]. split; [done|]. exists h. split; [done|].
      apply He2 in Hin as [?|[_ ?]]; done.
    - intros [Hne (h & Hh & Hin)]. split; [|done]. exists h. split; [done|].
      apply He2. by left. }
  destruct (decide (c ∈ old ∧ _)) as [[H1 H2]|Hn].
  - rewrite decide_True; [done|]. split; [by apply Hold|done].
  - rewrite decide_False; [done|]. rewrite <- Hold. done.
Qed.

Lemma rewire_contexts_no_orphan rows new p g :
  no_orphan_context g → no_orphan_context (rewire_contexts rows new p g).
Proof.
  intros Hg. destruct (decide (rows = [])) as [->|Hrows]; [done|].
  destruct (rewire_contexts_spec rows new p g Hrows) as [He Hc].
  intros c Hsome. rewrite Hc in Hsome.
  destruct (decide _) as [|Hn]; [by destruct Hsome|].
  apply merge_context_inv in Hsome as [->|Hsome].
  - destruct rows as [|h0 rows0]; [done|].
    apply elem_of_targets. exists h0. apply He. simpl. split.
    + right. split; [by left|done].
    + by intros [_ ?].
  - destruct (decide (c = new)) as [->|Hne].
    { destruct rows as [|h0 rows0]; [done|].
      apply elem_of_targets. exists h0. apply He. simpl. split.
      - right. split; [by left|done].
      - by intros [_ ?]. }
    destruct (decide (c ∈ (valid_in (rewire_contexts rows new p g)).*2))
      as [|Hnin]; [done|].
    exfalso. apply Hn. split; [|done]. split; [done|].
    apply Hg, elem_of_targets in Hsome as [h Hin].
    apply elem_of_rows_contexts.
    destruct (decide (h ∈ rows)) as [Hh|Hh]; [by exists h|].
    exfalso. apply Hnin, elem_of_targets. exists h. apply He. simpl.
    split; [by left|]. by intros [? _].
Qed.

Lemma delete_valid_in_nil sel g :
  valid_in (delete_valid_in [] sel g) = valid_in g.
Proof.
  simpl. by apply filter_all.
Qed.

(** What [delete_hyperedge] leaves behind. *)
Lemma delete_hyperedge_spec id g :
  let g' := delete_hyperedge id g in
  (∀ e, e ∈ valid_in g'
        ↔ e ∈ valid_in g ∧ (is_Some (hyperedges g !! id) → e.1 ≠ id))
  ∧ (∀ c, contexts g' !! c
          = if decide ((is_Some (hyperedges g !! id) ∧ (id, c) ∈ valid_in g)
                       ∧ c ∉ (valid_in g').*2)
            then None else contexts g !! c).
Proof.
  unfold delete_hyperedge.
  destruct (hyperedges g !! id) as [p|] eqn:Hid.
  - set (cs := h ← [id]; contexts_of h g).
    set (g1 := delete_valid_in [id] (λ _, true) g).
    destruct (delete_orphans_spec cs g1) as (Hv & Hh & Hc).
    assert (Hh2 : hyperedges (delete_orphans cs g1) !! id = Some p)
      by (by rewrite Hh).
    rewrite Hh2.
    assert (He1 : ∀ e, e ∈ valid_in g1 ↔ e ∈ valid_in g ∧ e.1 ≠ id).
    { intros e. unfold g1. rewrite delete_valid_in_spec.
      rewrite list_elem_of_singleton. tauto. }
    assert (Hv3 : valid_in (detach_delete_hyperedge id (delete_orphans cs g1))
                  = valid_in g1).
    { simpl. rewrite Hv. apply filter_all. intros e He.
      apply negb_true_iff, bool_decide_eq_false. by apply He1 in He as [_ ?]. }
    split.
    + intros e. rewrite Hv3, He1. split; [tauto|].
      intros [? Hne]. split; [done|]. by apply Hne.
    + intros c. rewrite Hv3. simpl. rewrite Hc.
      change (contexts g1) with (contexts g).
      assert (Hcs : c ∈ cs ↔ (id, c) ∈ valid_in g).
      { unfold cs. rewrite elem_of_rows_contexts. split.
        - intros (h & Hh' & Hin). apply list_elem_of_singleton in Hh'.
          by subst.
        - intros Hin. exists id. split; [by left|done]. }
      destruct (decide (c ∈ cs ∧ _)) as [[H1 H2]|Hn].
      * rewrite decide_True; [done|]. split; [|done]. split; [done|].
        by apply Hcs.
      * rewrite decide_False; [done|]. rewrite <- Hcs. tauto.
  - assert (Hd : match
        hyperedges (delete_orphans (h ← []; contexts_of h g)
                      (delete_valid_in [] (λ _, true) g)) !! id
      with
      | Some _ =>
          detach_delete_hyperedge id
            (delete_orphans (h ← []; contexts_of h g)
               (delete_valid_in [] (λ _, true) g))
      | None =>
          delete_orphans (h ← []; contexts_of h g)
            (delete_valid_in [] (λ _, true) g)
      end = delete_valid_in [] (λ _, true) g).
    { change (hyperedges (delete_orphans (h ← []; contexts_of h g)
                (delete_valid_in [] (λ _, true) g)))
        with (hyperedges g). by rewrite Hid. }
    rewrite Hd. split.
    + intros e. rewrite delete_valid_in_nil. split; [|tauto].
      intros ?. split; [done|]. by intros [].
    + intros c. rewrite decide_False; [done|]. by intros [[[] _] _].
Qed.

Lemma delete_hyperedge_no_orphan id g :
  no_orphan_context g → no_orphan_context (delete_hyperedge id g).
Proof.
  intros Hg. destruct (delete_hyperedge_spec id g) as [He Hc].
  intros c Hsome. rewrite Hc in Hsome.
  destruct (decide _) as [|Hn]; [by destruct Hsome|].
  destruct (decide (c ∈ (valid_in (delete_hyperedge id g)).*2))
    as [|Hnin]; [done|].
  exfalso. apply Hg, elem_of_targets in Hsome as [h Hin].
  destruct (decide (is_Some (hyperedges g !! id) ∧ h = id)) as [[Hid ->]|Hh].
  - apply Hn. by repeat split.
  - apply Hnin, elem_of_targets. exists h. apply He. split; [done|].
    simpl. intros Hid ->. by apply Hh.
Qed.

(** Afterwards the store holds no hyperedge of that id. *)
Lemma delete_hyperedge_gone id g :
  hyperedges (delete_hyperedge id g) !! id = None.
Proof.
  unfold delete_hyperedge.
  destruct (hyperedges g !! id) as [p|] eqn:Hid.
  - destruct (delete_orphans_spec (h ← [id]; contexts_of h g)
                (delete_valid_in [id] (λ _, true) g)) as (_ & Hh & _).
    rewrite Hh. change (hyperedges (delete_valid_in [id] (λ _, true) g))
      with (hyperedges g).
    rewrite Hid. apply lookup_delete_eq.
  - destruct (delete_orphans_spec (h ← []; contexts_of h g)
                (delete_valid_in [] (λ _, true) g)) as (_ & Hh & _).
    rewrite Hh. change (hyperedges (delete_valid_in [] (λ _, true) g))
      with (hyperedges g).
    by rewrite Hid, Hh.
Qed.

Lemma no_orphan_context_check g :
  forallb (λ c, bool_decide (c ∈ (valid_in g).*2))
          (map_to_list (contexts g)).*1 = true →
  no_orphan_context g.
Proof.
  intros Hall c [p Hp]. rewrite forallb_forall in Hall.
  eapply bool_decide_eq_true_1, Hall, list_elem_of_In, list_elem_of_fmap.
  exists (c, p). split; [done|]. by apply elem_of_map_to_list.
Qed.
End ContextFacts.

Section WriteFacts.
Import Graph Writer.

Lemma foldl_merge_entity_contexts names g :
  contexts (foldl (λ g' n, merge_entity n g') g names) = contexts g.
Proof. by destruct (foldl_merge_entity names g) as (_ & ? & _). Qed.

Lemma foldl_merge_entity_valid_in names g :
  valid_in (foldl (λ g' n, merge_entity n g') g names) = valid_in g.
Proof. by destruct (foldl_merge_entity names g) as (_ & _ & _ & ?). Qed.

Lemma foldl_merge_connects_other h r names g :
  let g' := foldl (λ g' n, merge_connects h r n g') g names in
  contexts g' = contexts g ∧ valid_in g' = valid_in g.
Proof.
  revert g. induction names as [|n names IH]; intros g; [done|].
  simpl. destruct (IH (merge_connects h r n g)) as [-> ->].
  unfold merge_connects. by case_decide.
Qed.

Lemma merge_contexts_is_Some cs g c :
  is_Some (contexts (merge_contexts cs g) !! c)
  ↔ is_Some (contexts g !! c) ∨ c ∈ cs.*1.
Proof.
  unfold merge_contexts. revert g.
  induction cs as [|[id p] cs IH]; intros g.
  { simpl. split; [by left|]. intros [?|Hin]; [done|].
    by apply not_elem_of_nil in Hin. }
  cbn [foldl]. rewrite IH. csimpl. rewrite elem_of_cons. split.
  - intros [Hs|?]; [|tauto].
    apply merge_context_inv in Hs as [->|?]; tauto.
  - intros [Hs|[->|?]]; [| |tauto]; left.
    + destruct Hs as [q Hq]. exists q.
      rewrite <- Hq. by apply merge_context_lookup.
    + apply merge_context_is_Some.
Qed.

(** MERGE of the VALID_IN relationships from one hyperedge. *)
Lemma foldl_merge_valid_in_from h cs g :
  let g' := foldl (λ g' c, merge_valid_in h c g') g cs in
  contexts g' = contexts g
  ∧ ∀ e, e ∈ valid_in g' ↔ e ∈ valid_in g ∨ (e.1 = h ∧ e.2 ∈ cs).
Proof.
  revert g. induction cs as [|c cs IH]; intros g.
  { simpl. split; [done|]. intros e. split; [tauto|].
    intros [?|[_ Hin]]; [done|]. by apply not_elem_of_nil in Hin. }
  simpl. destruct (IH (merge_valid_in h c g)) as (-> & He).
  destruct (merge_valid_in_spec h c g) as (-> & _ & Hm).
  split; [done|]. intros e. rewrite He, Hm, elem_of_cons.
  destruct e as [h' c']. simpl. split.
  - intros [[?|[= -> ->]]|[? ?]]; tauto.
  - intros [?|[-> [->|?]]]; tauto.
Qed.

(** Fresh creation attaches every context it creates. *)
Lemma fresh_create_no_orphan f g :
  no_orphan_context g → no_orphan_context (fresh_create f g).
Proof.
  intros Hg c. unfold fresh_create.
  set (h := fresh_hyperedge_id f).
  set (g1 := foldl (λ g' s, merge_entity s g') g (subjects f)).
  set (g2 := foldl (λ g' o, merge_entity o g') g1 (objects f)).
  set (g3 := merge_contexts (fresh_contexts f) g2).
  set (g4 := merge_hyperedge h _ g3).
  set (g5 := foldl (λ g' s, merge_connects h Subject s g') g4 (subjects f)).
  set (g6 := foldl (λ g' o, merge_connects h Object o g') g5 (objects f)).
  destruct (foldl_merge_valid_in_from h (fresh_contexts f).*1 g6) as [-> He].
  destruct (foldl_merge_connects_other h Object (objects f) g5) as [Hc6 Hv6].
  destruct (foldl_merge_connects_other h Subject (subjects f) g4)
    as [Hc5 Hv5].
  fold g6 in Hc6, Hv6. fold g5 in Hc5, Hv5.
  assert (Hc4 : contexts g4 = contexts g3) by done.
  assert (Hv4 : valid_in g4 = valid_in g) .
  { change (valid_in g4) with (valid_in g3). unfold g3.
    rewrite (proj2 (proj2 (merge_contexts_other (fresh_contexts f) g2))).
    unfold g2. rewrite foldl_merge_entity_valid_in.
    unfold g1. by rewrite foldl_merge_entity_valid_in. }
  rewrite Hc6, Hc5, Hc4. unfold g3. rewrite merge_contexts_is_Some.
  unfold g2. rewrite foldl_merge_entity_contexts.
  unfold g1. rewrite foldl_merge_entity_contexts.
  intros [Hs|Hin]; apply elem_of_targets.
  - apply Hg, elem_of_targets in Hs as [h' Hin]. exists h'. apply He.
    left. by rewrite Hv6, Hv5, Hv4.
  - exists h. apply He. by right.
Qed.

Lemma no_orphan_context_ext g g' :
  contexts g' = contexts g → valid_in g' = valid_in g →
  no_orphan_context g → no_orphan_context g'.
Proof. intros Hc Hv Hg c. rewrite Hc, Hv. apply Hg. Qed.

Lemma connect_new_no_orphan h r names g :
  no_orphan_context g → no_orphan_context (connect_new h r names g).
Proof.
  unfold connect_new. revert g.
  induction names as [|n names IH]; intros g Hg; [done|].
  simpl. apply IH. by eapply no_orphan_context_ext.
Qed.

Lemma attach_context_no_orphan h c p g :
  no_orphan_context g →
  no_orphan_context (merge_valid_in h c (merge_context c p g)).
Proof.
  intros Hg c'.
  destruct (merge_valid_in_spec h c (merge_context c p g)) as (-> & _ & He).
  intros Hs. apply elem_of_targets.
  apply merge_context_inv in Hs as [->|Hs].
  - exists h. apply He. by right.
  - apply Hg, elem_of_targets in Hs as [h' Hin]. exists h'. apply He.
    by left.
Qed.

Lemma attach_contexts_no_orphan h cs g :
  no_orphan_context g → no_orphan_context (attach_contexts h cs g).
Proof.
  unfold attach_contexts. revert g.
  induction cs as [|c cs IH]; intros g Hg; [done|].
  simpl. by apply IH, attach_context_no_orphan.
Qed.

Lemma recount_no_orphan h g :
  no_orphan_context g → no_orphan_context (recount h g).
Proof.
  unfold recount. destruct (connects_count h g); [done|].
  by apply no_orphan_context_ext.
Qed.

(** The append statement attaches every context it creates. *)
Lemma append_to_no_orphan e f g :
  no_orphan_context g → no_orphan_context (append_to e f g).
Proof.
  intros Hg. unfold append_to.
  case_bool_decide; [done|]. case_bool_decide; [done|].
  by apply recount_no_orphan, attach_contexts_no_orphan,
    attach_contexts_no_orphan, connect_new_no_orphan, connect_new_no_orphan.
Qed.
End WriteFacts.





(** C5.  In a graph without orphaned context no statement of the writer
    leaves one behind.  Fresh creation and append attach every context they
    create.  Rewiring the matched hyperedges to a new context removes
    their old VALID_IN relationships (afterwards each of them is valid in
    the new context and in nothing else), and deleting a hyperedge removes
    the hyperedge with all its VALID_IN relationships; the relationships
    of the other hyperedges stay as they are.  Each context that loses its
    relationship from the hyperedge is gone afterwards exactly when no
    VALID_IN relationship to it remains, that is, when no other hyperedge
    was valid in it; a context that another hyperedge is valid in keeps
    that relationship and its node. *)
Theorem contexts_never_orphaned (g : Graph.graph) :
  Graph.no_orphan_context g →
  (∀ f, Graph.no_orphan_context (Writer.fresh_create f g))
  ∧ (∀ e f, Graph.no_orphan_context (Writer.append_to e f g))
  ∧ (∀ rows new_ctx p,
     let g' := Writer.rewire_contexts rows new_ctx p g in
     Graph.no_orphan_context g'
     ∧ (∀ h c, h ∈ rows → ((h, c) ∈ Graph.valid_in g' ↔ c = new_ctx))
     ∧ (∀ h c, h ∉ rows →
               ((h, c) ∈ Graph.valid_in g' ↔ (h, c) ∈ Graph.valid_in g))
     ∧ (∀ h c, h ∈ rows → (h, c) ∈ Graph.valid_in g → c ≠ new_ctx →
               (c ∉ (Graph.valid_in g').*2
                ↔ ∀ h', (h', c) ∈ Graph.valid_in g → h' ∈ rows))
     ∧ (∀ h c, h ∈ rows → (h, c) ∈ Graph.valid_in g → c ≠ new_ctx →
               is_Some (Graph.contexts g !! c) →
               (Graph.contexts g' !! c = None
                ↔ c ∉ (Graph.valid_in g').*2))
     ∧ (∀ h c, h ∉ rows → (h, c) ∈ Graph.valid_in g →
               is_Some (Graph.contexts g !! c) →
               (h, c) ∈ Graph.valid_in g'
               ∧ Graph.contexts g' !! c = Graph.contexts g !! c))
  ∧ (∀ id,
     let g' := Writer.delete_hyperedge id g in
     Graph.no_orphan_context g'
     ∧ Graph.hyperedges g' !! id = None
     ∧ (is_Some (Graph.hyperedges g !! id) →
        ∀ c, (id, c) ∉ Graph.valid_in g')
     ∧ (∀ h c, h ≠ id →
               ((h, c) ∈ Graph.valid_in g' ↔ (h, c) ∈ Graph.valid_in g))
     ∧ (∀ c, is_Some (Graph.hyperedges g !! id) →
             (id, c) ∈ Graph.valid_in g →
             (c ∉ (Graph.valid_in g').*2
              ↔ ∀ h', (h', c) ∈ Graph.valid_in g → h' = id))
     ∧ (∀ c, is_Some (Graph.hyperedges g !! id) →
             (id, c) ∈ Graph.valid_in g →
             is_Some (Graph.contexts g !! c) →
             (Graph.contexts g' !! c = None
              ↔ c ∉ (Graph.valid_in g').*2))
     ∧ (∀ h c, h ≠ id → (h, c) ∈ Graph.valid_in g →
               (h, c) ∈ Graph.valid_in g'
               ∧ Graph.contexts g' !! c = Graph.contexts g !! c)).
Proof.
  intros Hg.
  split; [intros f; by apply fresh_create_no_orphan|].
  split; [intros e f; by apply append_to_no_orphan|].
  split.
  - intros rows new_ctx p g'.
    split; [by apply rewire_contexts_no_orphan|]. split; [|split; [|split]].
    + intros h c Hh.
      assert (Hrows : rows ≠ []) by (by intros ->; apply not_elem_of_nil in Hh).
      destruct (rewire_contexts_spec rows new_ctx p g Hrows) as [He _].
      fold g' in He. rewrite He. simpl. split.
      * intros [_ Hn]. destruct (decide (c = new_ctx)); [done|].
        by destruct Hn.
      * intros ->. split; [by right|]. by intros [_ ?].
    + intros h c Hh.
      destruct (decide (rows = [])) as [->|Hrows]; [done|].
      destruct (rewire_contexts_spec rows new_ctx p g Hrows) as [He _].
      fold g' in He. rewrite He. simpl. split.
      * by intros [[?|[? _]] _].
      * intros Hin. split; [by left|]. by intros [? _].
    + intros h c Hh Hin Hne.
      assert (Hrows : rows ≠ []) by (by intros ->; apply not_elem_of_nil in Hh).
      destruct (rewire_contexts_spec rows new_ctx p g Hrows) as [He _].
      fold g' in He. rewrite elem_of_targets. split.
      * intros Hnin h' Hin'.
        destruct (decide (h' ∈ rows)) as [|Hh']; [done|].
        exfalso. apply Hnin. exists h'. apply He. simpl.
        split; [by left|]. by intros [? _].
      * intros Hall [h' Hin']. apply He in Hin' as [[Hin'|[_ Hc]] Hn];
          simpl in *; [|done].
        apply Hn. split; [by apply (Hall h')|done].
    + split.
      * intros h c Hh Hin Hne Hsome.
        assert (Hrows : rows ≠ [])
          by (by intros ->; apply not_elem_of_nil in Hh).
        destruct (rewire_contexts_spec rows new_ctx p g Hrows) as [He Hc].
        fold g' in He, Hc. rewrite Hc.
        destruct (decide _) as [[_ Hnin]|Hn]; [done|].
        rewrite merge_context_lookup by done. split.
        -- intros Hnone. rewrite Hnone in Hsome. by destruct Hsome.
        -- intros Hnin. exfalso. apply Hn. split; [|done]. split; [done|].
           apply elem_of_rows_contexts. by exists h.
      * intros h c Hh Hin Hsome.
        destruct (decide (rows = [])) as [->|Hrows]; [done|].
        destruct (rewire_contexts_spec rows new_ctx p g Hrows) as [He Hc].
        fold g' in He, Hc.
        assert (Hin' : (h, c) ∈ Graph.valid_in g').
        { apply He. simpl. split; [by left|]. by intros [? _]. }
        split; [done|]. rewrite Hc, decide_False.
        -- by apply merge_context_lookup.
        -- intros [_ Hnin]. apply Hnin, elem_of_targets. by exists h.
  - intros id g'. destruct (delete_hyperedge_spec id g) as [He Hc].
    fold g' in He, Hc.
    split; [by apply delete_hyperedge_no_orphan|].
    split; [apply delete_hyperedge_gone|].
    split.
    { intros Hid c Hin. apply He in Hin as [_ Hne]. by apply Hne. }
    split.
    { intros h c Hh. rewrite He. simpl. split; [by intros [? _]|].
      intros Hin. split; [done|]. by intros _. }
    split.
    { intros c Hid Hin. rewrite elem_of_targets. split.
      - intros Hnin h' Hin'.
        destruct (decide (h' = id)) as [|Hh']; [done|].
        exfalso. apply Hnin. exists h'. apply He. split; [done|].
        by intros _.
      - intros Hall [h' Hin']. apply He in Hin' as [Hin' Hne].
        by apply (Hne Hid), Hall. }
    split.
    + intros c Hid Hin Hsome. rewrite Hc.
      destruct (decide _) as [[_ Hnin]|Hn]; [done|]. split.
      * intros Hnone. rewrite Hnone in Hsome. by destruct Hsome.
      * intros Hnin. exfalso. apply Hn. by repeat split.
    + intros h c Hh Hin.
      assert (Hin' : (h, c) ∈ Graph.valid_in g') by (by apply He).
      split; [done|]. rewrite Hc, decide_False; [done|].
      intros [_ Hnin]. apply Hnin, elem_of_targets. by exists h.
Qed.

(** John's hyperedge is valid at home, where Mary's is too, and at work,
    where no other is.  Rewired to a new context, or deleted, it leaves
    the context of home in place and takes the one of work away. *)
Lemma contexts_never_orphaned_witness :
  Graph.no_orphan_context Examples.shared
  ∧ (let g' := Writer.rewire_contexts ["he_1"] "ctx_new" Examples.home_2020
                 Examples.shared in
     Graph.no_orphan_context g'
     ∧ (∀ c, ("he_1", c) ∈ Graph.valid_in g' ↔ c = "ctx_new")
     ∧ Graph.contexts g' !! "ctx_work" = None
     ∧ Graph.contexts g' !! "ctx_home" = Some Examples.home_2020)
  ∧ (let g' := Writer.delete_hyperedge "he_1" Examples.shared in
     Graph.no_orphan_context g'
     ∧ Graph.hyperedges g' !! "he_1" = None
     ∧ Graph.valid_in g' = [("he_2", "ctx_home")]
     ∧ Graph.contexts g' !! "ctx_work" = None
     ∧ Graph.contexts g' !! "ctx_home" = Some Examples.home_2020).
Proof.
  assert (H : Graph.no_orphan_context Examples.shared).
  { apply no_orphan_context_check. vm_compute. reflexivity. }
  split; [exact H|].
  destruct (contexts_never_orphaned Examples.shared H)
    as (_ & _ & Hrewire & Hdelete).
  split.
  - destruct (Hrewire ["he_1"] "ctx_new" Examples.home_2020)
      as (Hno & Hnew & _).
    split; [exact Hno|]. split.
    + intros c. apply Hnew. by left.
    + by vm_compute.
  - destruct (Hdelete "he_1") as (Hno & Hgone & _).
    split; [exact Hno|]. split; [exact Hgone|]. by vm_compute.
Defined.

(** ** Append or create *)

Section AppendFacts.
Import Graph Writer.

(** The test of the queries is set equality, written as equal sizes and
    containment both ways. *)
Lemma cy_set_eq_spec {A} `{EqDecision A} (ids l : list A) :
  cy_set_eq ids l = true
  ↔ List.length ids = List.length l
    ∧ (∀ x, x ∈ ids → x ∈ l) ∧ (∀ x, x ∈ l → x ∈ ids).
Proof.
  unfold cy_set_eq. rewrite !andb_true_iff, bool_decide_eq_true.
  rewrite !forallb_forall. split.
  - intros [[Hlen H1] H2]. split; [done|]. split; intros x Hx.
    + eapply bool_decide_eq_true_1, H1. by apply list_elem_of_In.
    + eapply bool_decide_eq_true_1, H2. by apply list_elem_of_In.
  - intros (Hlen & H1 & H2). repeat split; [done| |]; intros x Hx.
    + apply bool_decide_eq_true_2, H1. by apply list_elem_of_In.
    + apply bool_decide_eq_true_2, H2. by apply list_elem_of_In.
Qed.

Lemma elem_of_candidates k f g h :
  h ∈ candidates k f g
  ↔ is_Some (hyperedges g !! h) ∧ criterion_matches k f h g = true.
Proof.
  unfold candidates. rewrite elem_of_filter, list_elem_of_fmap. split.
  - intros [([h' p] & -> & Hin) Hm]. split; [|done].
    apply elem_of_map_to_list in Hin. simpl. by rewrite Hin.
  - intros [[p Hp] Hm]. split; [|done]. exists (h, p). split; [done|].
    by apply elem_of_map_to_list.
Qed.

(** [ORDER BY h.id LIMIT 1]: the least element of the list. *)
Lemma head_sorted_least (l : list string) h :
  head (merge_sort String.le l) = Some h →
  h ∈ l ∧ ∀ h', h' ∈ l → String.le h h'.
Proof.
  intros Hh.
  pose proof (merge_sort_Permutation String.le l) as Hp.
  pose proof (StronglySorted_merge_sort String.le l) as Hs.
  destruct (merge_sort String.le l) as [|x rest]; [done|].
  injection Hh as ->. split.
  - rewrite <- Hp. by left.
  - intros h' Hin. rewrite <- Hp in Hin.
    apply StronglySorted_inv in Hs as [_ Hall].
    apply elem_of_cons in Hin as [->|Hin]; [done|].
    by rewrite Forall_forall in Hall; apply Hall.
Qed.

Lemma head_sorted_is_Some (l : list string) h :
  h ∈ l → is_Some (head (merge_sort String.le l)).
Proof.
  intros Hin. pose proof (merge_sort_Permutation String.le l) as Hp.
  destruct (merge_sort String.le l) as [|x rest]; [|by eexists].
  rewrite <- Hp in Hin. by apply not_elem_of_nil in Hin.
Qed.

Lemma probe_candidates k f g :
  k ∈ [1; 2; 3] →
  probe k f g
  = if bool_decide (k ≠ 1 ∧ subjects f = []) then None
    else head (merge_sort String.le (candidates k f g)).
Proof.
  rewrite !elem_of_cons, elem_of_nil.
  intros [->|[->|[->|[]]]]; simpl; destruct (subjects f); simpl; try done.
Qed.

(** The probe of a criterion returns the matching hyperedge with the least
    id. *)
Lemma probe_least k f g h :
  k ∈ [1; 2; 3] → probe k f g = Some h →
  (is_Some (hyperedges g !! h) ∧ criterion_matches k f h g = true)
  ∧ ∀ h', is_Some (hyperedges g !! h') →
          criterion_matches k f h' g = true → String.le h h'.
Proof.
  intros Hk. rewrite probe_candidates by done.
  case_bool_decide; [done|]. intros Hh.
  apply head_sorted_least in Hh as [Hin Hleast]. split.
  - by apply elem_of_candidates.
  - intros h' H1 H2. by apply Hleast, elem_of_candidates.
Qed.

Lemma probe_is_Some k f g h :
  k ∈ [1; 2; 3] → k = 1 ∨ subjects f ≠ [] →
  is_Some (hyperedges g !! h) → criterion_matches k f h g = true →
  is_Some (probe k f g).
Proof.
  intros Hk Hs H1 H2. rewrite probe_candidates by done.
  rewrite bool_decide_false by (by intros [? ?]; destruct Hs).
  apply (head_sorted_is_Some _ h), elem_of_candidates. done.
Qed.

Lemma attempt_Some k f g e :
  attempt k f g = Some e →
  probe k f g = Some (eh_id e) ∧ append_criterion e = k.
Proof.
  unfold attempt. intros Ha.
  apply bind_Some in Ha as (h & Hp & Hf). rewrite Hp.
  unfold full_record in Hf. apply bind_Some in Hf as (p & _ & Hf).
  destruct (_ || _); [done|]. by injection Hf as <-.
Qed.

(** The three criteria are tried in order and the first that yields a
    record decides. *)
Lemma find_appendable_hyperedge_order f g e :
  find_appendable_hyperedge f (Some g) = Some e
  ↔ ∃ k, k ∈ [1; 2; 3] ∧ attempt k f g = Some e
         ∧ ∀ k', k' ∈ [1; 2; 3] → k' < k → attempt k' f g = None.
Proof.
  unfold find_appendable_hyperedge. split.
  - destruct (attempt 1 f g) as [e1|] eqn:H1.
    { intros [= <-]. exists 1. split; [set_solver|]. split; [done|].
      intros k'. rewrite !elem_of_cons, elem_of_nil. lia. }
    destruct (attempt 2 f g) as [e2|] eqn:H2.
    { intros [= <-]. exists 2. split; [set_solver|]. split; [done|].
      intros k'. rewrite !elem_of_cons, elem_of_nil.
      intros [->|[->|[->|[]]]] ?; (done || lia). }
    intros H3. exists 3. split; [set_solver|]. split; [done|].
    intros k'. rewrite !elem_of_cons, elem_of_nil.
    intros [->|[->|[->|[]]]] ?; (done || lia).
  - intros (k & Hk & Ha & Hbefore).
    rewrite !elem_of_cons, elem_of_nil in Hk.
    destruct Hk as [->|[->|[->|[]]]].
    + by rewrite Ha.
    + rewrite (Hbefore 1) by (set_solver || lia). by rewrite Ha.
    + rewrite (Hbefore 1), (Hbefore 2) by (set_solver || lia). done.
Qed.

(** Under the criteria that compare objects, a fact without objects only
    matches hyperedges without object. *)
Lemma criterion_without_objects k f h g :
  k = 1 ∨ k = 2 → objects f = [] →
  criterion_matches k f h g = true → connected h Object g = [].
Proof.
  intros Hk Ho Hm. unfold criterion_matches in Hm.
  apply andb_true_iff in Hm as [_ Hm].
  assert (Hobj : objects_match f h g = true).
  { destruct Hk as [-> | ->]; apply andb_true_iff in Hm; tauto. }
  unfold objects_match in Hobj. rewrite Ho in Hobj.
  by apply bool_decide_eq_true in Hobj.
Qed.
End AppendFacts.

(** C6, as the claim states it, fails: criterion 3 compares subjects,
    relation and contexts and does not look at the objects.  With "John
    likes cats" (2020, at home) in the graph, the fact "John likes" without
    objects, same time and place, is turned down by criteria 1 and 2 and
    matched by criterion 3 with that hyperedge, which has an object. *)
Lemma objectless_fact_matches_hyperedge_with_objects :
  Writer.objects Examples.john_likes = []
  ∧ Writer.probe 1 Examples.john_likes Examples.john_likes_cats = None
  ∧ Writer.probe 2 Examples.john_likes Examples.john_likes_cats = None
  ∧ Writer.probe 3 Examples.john_likes Examples.john_likes_cats = Some "he_1"
  ∧ Graph.connected "he_1" Graph.Object Examples.john_likes_cats = ["cats"]
  ∧ ∃ e, Writer.find_appendable_hyperedge Examples.john_likes
           (Some Examples.john_likes_cats) = Some e
         ∧ Writer.eh_id e = "he_1"
         ∧ Writer.append_criterion e = 3
         ∧ Writer.eh_objects e = ["cats"].
Proof.
  do 5 (split; [by vm_compute|]).
  eexists. split; [by vm_compute|]. by vm_compute.
Qed.

(** C6, amended.  The writer probes the criteria in the order 1, 2, 3:
    the hyperedge it appends to is the one found by the first criterion
    whose probe matches (stated for the probes whose follow-up query
    returns the record of the hyperedge; what happens when that query
    returns none is left open here), and without a match there is nothing
    to append to.  Criterion 1 compares (relation, objects, contexts),
    criterion 2 (subjects, relation, objects), criterion 3 (subjects,
    relation, contexts); subjects and objects are compared by equal size
    and containment both ways, and where objects are compared, a fact
    without objects only matches a hyperedge without object; the probe of
    a criterion returns the matching hyperedge with the least id. *)
Theorem append_criteria_in_order (f : Writer.temporal_fact) (g : Graph.graph) :
  (∀ k h e, k ∈ [1; 2; 3] → Writer.probe k f g = Some h →
            (∀ k', k' ∈ [1; 2; 3] → k' < k → Writer.probe k' f g = None) →
            Writer.full_record k h g = Some e →
            Writer.find_appendable_hyperedge f (Some g) = Some e)
  ∧ ((∀ k, k ∈ [1; 2; 3] → Writer.probe k f g = None) →
     Writer.find_appendable_hyperedge f (Some g) = None)
  ∧ (∀ e, Writer.find_appendable_hyperedge f (Some g) = Some e →
          ∃ k, k ∈ [1; 2; 3]
               ∧ Writer.probe k f g = Some (Writer.eh_id e)
               ∧ Writer.append_criterion e = k)
  ∧ (∀ h,
       Writer.criterion_matches 1 f h g
       = Writer.has_relation h (Writer.relation f) g
         && (Writer.objects_match f h g && Writer.contexts_match f h g)
       ∧ Writer.criterion_matches 2 f h g
         = Writer.has_relation h (Writer.relation f) g
           && (Writer.subjects_match f h g && Writer.objects_match f h g)
       ∧ Writer.criterion_matches 3 f h g
         = Writer.has_relation h (Writer.relation f) g
           && (Writer.subjects_match f h g && Writer.contexts_match f h g))
  ∧ (∀ h, Writer.subjects_match f h g = true
          ↔ List.length (Graph.connected h Graph.Subject g)
            = List.length (Writer.subjects f)
            ∧ (∀ x, x ∈ Graph.connected h Graph.Subject g
                    → x ∈ Writer.subjects f)
            ∧ (∀ x, x ∈ Writer.subjects f
                    → x ∈ Graph.connected h Graph.Subject g))
  ∧ (∀ h, Writer.objects f ≠ [] →
          (Writer.objects_match f h g = true
           ↔ List.length (Graph.connected h Graph.Object g)
             = List.length (Writer.objects f)
             ∧ (∀ x, x ∈ Graph.connected h Graph.Object g
                     → x ∈ Writer.objects f)
             ∧ (∀ x, x ∈ Writer.objects f
                     → x ∈ Graph.connected h Graph.Object g)))
  ∧ (∀ h, Writer.objects f = [] →
          (Writer.objects_match f h g = true
           ↔ Graph.connected h Graph.Object g = []))
  ∧ (∀ k h, k ∈ [1; 2; 3] → Writer.probe k f g = Some h →
            (is_Some (Graph.hyperedges g !! h)
             ∧ Writer.criterion_matches k f h g = true)
            ∧ ∀ h', is_Some (Graph.hyperedges g !! h') →
                    Writer.criterion_matches k f h' g = true →
                    String.le h h')
  ∧ (∀ k h, k ∈ [1; 2; 3] → k = 1 ∨ Writer.subjects f ≠ [] →
            is_Some (Graph.hyperedges g !! h) →
            Writer.criterion_matches k f h g = true →
            is_Some (Writer.probe k f g))
  ∧ (∀ k h, k = 1 ∨ k = 2 → Writer.objects f = [] →
            Writer.probe k f g = Some h →
            Graph.connected h Graph.Object g = []).
Proof.
  split.
  { intros k h e Hk Hp Hbefore Hrec.
    apply find_appendable_hyperedge_order. exists k.
    split; [done|]. split.
    - unfold Writer.attempt. by rewrite Hp.
    - intros k' Hk' Hlt. unfold Writer.attempt.
      by rewrite (Hbefore k' Hk' Hlt). }
  split.
  { intros Hnone. unfold Writer.find_appendable_hyperedge, Writer.attempt.
    rewrite !Hnone; [done|set_solver..]. }
  split.
  { intros e He. apply find_appendable_hyperedge_order in He
      as (k & Hk & Ha & _).
    exists k. split; [done|]. by apply attempt_Some. }
  split; [done|].
  split; [intros h; apply cy_set_eq_spec|].
  split.
  { intros h Ho. unfold Writer.objects_match.
    destruct (Writer.objects f); [done|]. apply cy_set_eq_spec. }
  split.
  { intros h Ho. unfold Writer.objects_match, Writer.no_object.
    rewrite Ho. apply bool_decide_eq_true. }
  split; [intros k h; apply probe_least|].
  split; [intros k h; apply probe_is_Some|].
  intros k h Hk Ho Hp.
  assert (Hin : k ∈ [1; 2; 3]) by (destruct Hk as [-> | ->]; set_solver).
  apply probe_least in Hp as [[_ Hm] _]; [|done].
  by eapply criterion_without_objects.
Qed.

(** The follow-up query that fetches the record MATCHes an object
    relationship.  With "John dies" in the graph, which has no object,
    the fact "Mary dies" (same time and place) is matched by the probe of
    criterion 1, the follow-up query returns no record, criteria 2 and 3
    do not match, and the writer finds nothing to append to, where the
    comments of criterion 1 say "new fact has no objects - match existing
    hyperedges with no objects" and that it is there to "append new
    subjects". *)
Lemma objectless_hyperedge_is_passed_over :
  Writer.probe 1 Examples.mary_dies Examples.john_dies = Some "he_1"
  ∧ Graph.connected "he_1" Graph.Object Examples.john_dies = []
  ∧ Writer.full_record 1 "he_1" Examples.john_dies = None
  ∧ Writer.probe 2 Examples.mary_dies Examples.john_dies = None
  ∧ Writer.probe 3 Examples.mary_dies Examples.john_dies = None
  ∧ Writer.find_appendable_hyperedge Examples.mary_dies
      (Some Examples.john_dies) = None.
Proof. by vm_compute. Qed.

(** ** The gate in front of causal inference *)

Section GateFacts.
Import Pipeline.
Context {fact : Type}.
Implicit Types (t : @tallies fact) (f : fact) (w : write).

(** The gate looks at the two tallies only: it opens when there is a fact,
    no failure was recorded and a success was. *)
Lemma causal_phase_runs_spec t :
  causal_phase_runs t = true
  ↔ 0 < total_temporal_facts t ∧ failed_count t = 0 ∧ 0 < successful_count t.
Proof.
  unfold causal_phase_runs, total_temporal_facts.
  destruct (all_structured_data t) as [|f l]; simpl; [split; [done|lia]|].
  destruct (0 <? failed_count t)%nat eqn:Hf.
  { apply Nat.ltb_lt in Hf. split; [done|lia]. }
  apply Nat.ltb_ge in Hf.
  destruct (successful_count t =? 0)%nat eqn:Hs.
  { apply Nat.eqb_eq in Hs. split; [done|lia]. }
  apply Nat.eqb_neq in Hs. split; [lia|done].
Qed.

Lemma record_items_counts f t l :
  let t' := foldl (record_item f) t l in
  total_temporal_facts t' = total_temporal_facts t
  ∧ successful_count t'
    = successful_count t
      + successes {| items := l; raises := false |}
  ∧ failed_count t'
    = failed_count t
      + failures {| items := l; raises := false |}.
Proof.
  revert t. induction l as [|i l IH]; intros t.
  { unfold successes, failures. simpl. lia. }
  simpl. destruct (IH (record_item f t i)) as (-> & -> & ->).
  unfold successes, failures, total_temporal_facts, successful_count,
    failed_count. simpl.
  destruct i as [[|]|]; simpl; rewrite ?length_app; simpl; lia.
Qed.

Lemma record_fact_counts t f w :
  let t' := record_fact true t (f, w) in
  total_temporal_facts t' = total_temporal_facts t + 1
  ∧ successful_count t' = successful_count t + successes w
  ∧ failed_count t' = failed_count t + failures w.
Proof.
  simpl. destruct (record_items_counts f (add_fact f t) (items w))
    as (Ht & Hs & Hf).
  assert (Ha : total_temporal_facts (add_fact f t)
               = total_temporal_facts t + 1).
  { unfold total_temporal_facts. simpl. by rewrite length_app. }
  destruct w as [l r].
  unfold failures, successes, total_temporal_facts, successful_count,
    failed_count in *. simpl in *.
  destruct r; simpl; rewrite ?length_app; simpl; lia.
Qed.

(** The tallies at the end of the regular-sentence phase. *)
Lemma regular_phase_counts (facts : list (fact * write)) :
  let t := regular_phase true facts in
  total_temporal_facts t = List.length facts
  ∧ successful_count t = sum_list (successes <$> facts.*2)
  ∧ failed_count t = sum_list (failures <$> facts.*2).
Proof.
  unfold regular_phase.
  assert (H : ∀ t0,
    let t := foldl (record_fact true) t0 facts in
    total_temporal_facts t = total_temporal_facts t0 + List.length facts
    ∧ successful_count t
      = successful_count t0 + sum_list (successes <$> facts.*2)
    ∧ failed_count t = failed_count t0 + sum_list (failures <$> facts.*2)).
  { induction facts as [|[f w] facts IH]; intros t0.
    { simpl. lia. }
    destruct (IH (record_fact true t0 (f, w))) as (H1 & H2 & H3).
    destruct (record_fact_counts t0 f w) as (H4 & H5 & H6).
    cbv zeta. cbn [foldl]. rewrite H1, H2, H3, H4, H5, H6. csimpl. lia. }
  destruct (H start) as (H1 & H2 & H3). by rewrite H1, H2, H3.
Qed.

Lemma sum_list_fmap_elem {A} (h : A → nat) (l : list A) x :
  x ∈ l → h x ≤ sum_list (h <$> l).
Proof.
  induction l as [|y l IH]; intros Hin; [by apply not_elem_of_nil in Hin|].
  csimpl. apply elem_of_cons in Hin as [->|Hin]; [lia|].
  specialize (IH Hin). lia.
Qed.

(** A recorded failure, or no success at all, keeps the gate closed. *)
Lemma gate_closed (facts : list (fact * write)) :
  (∃ fw, fw ∈ facts ∧ 0 < failures fw.2)
  ∨ sum_list (successes <$> facts.*2) = 0 →
  causal_phase_runs (regular_phase true facts) = false.
Proof.
  intros Hc. apply not_true_is_false. rewrite causal_phase_runs_spec.
  destruct (regular_phase_counts facts) as (_ & -> & ->).
  intros (_ & Hf & Hs). destruct Hc as [([f w] & Hin & Hw)|Hz]. 2: lia.
  assert (failures w ≤ sum_list (failures <$> facts.*2));
    [|simpl in Hw; lia].
  rewrite <- list_fmap_compose.
  apply (sum_list_fmap_elem (failures ∘ snd) facts (f, w) Hin).
Qed.

(** When every fact comes with exactly one statement, an open gate means
    that all of them were written. *)
Lemma gate_open_single_statements (facts : list (fact * write)) :
  Forall (λ fw, ∃ b, items fw.2 = [Statement b]) facts →
  causal_phase_runs (regular_phase true facts) = true →
  Forall (λ fw, committed true fw.2 = true) facts.
Proof.
  intros Hsingle Hopen. apply causal_phase_runs_spec in Hopen as (_ & Hf & _).
  destruct (regular_phase_counts facts) as (_ & _ & Hfc).
  rewrite Hfc, <- list_fmap_compose in Hf.
  apply Forall_forall. intros [f w] Hin.
  pose proof (sum_list_fmap_elem (failures ∘ snd) facts (f, w) Hin) as Hle.
  assert (Hz : failures w = 0).
  { change (failures w) with ((failures ∘ snd) (f, w)). lia. }
  rewrite Forall_forall in Hsingle. destruct (Hsingle _ Hin) as [b Hb].
  simpl in Hb. unfold failures in Hz. unfold committed. simpl.
  rewrite Hb in *.
  destruct b, (raises w); simpl in *; (done || lia).
Qed.
End GateFacts.


(** C3 (the code departs from the claim).  The gate compares the tally of
    failures with zero and the tally of successes with zero; the number of
    facts is computed and never compared.  A fact for which the generator
    yields its empty fallback is stored, enters neither tally and is not
    written; when another fact is written, causal inference runs although
    one of the two facts is not in the graph. *)
Theorem gate_opens_with_unwritten_fact :
  let written := {| Pipeline.items := [Pipeline.Statement true];
                    Pipeline.raises := false |} in
  let unwritten := {| Pipeline.items := [Pipeline.EmptyStatement];
                      Pipeline.raises := false |} in
  let t := Pipeline.regular_phase true
             [("Marie Curie : wins : The Nobel Prize", written);
              ("Marie Curie : is : Alive", unwritten)] in
  Pipeline.total_temporal_facts t = 2
  ∧ Pipeline.successful_count t = 1
  ∧ Pipeline.failed_count t = 0
  ∧ Pipeline.committed true unwritten = false
  ∧ Pipeline.causal_phase_runs t = true.
Proof. by vm_compute. Qed.

(** * Further properties *)

(** ** Polygon decimation: what it guarantees *)

Section DecimationFacts.
Context {vertex : Type} `{EqDecision vertex}.
Import Geocoder.

Lemma close_ring_is_Some (out : list vertex) :
  out ≠ [] → is_Some (close_ring out).
Proof.
  intros Hne. apply last_is_Some in Hne as Hl. destruct Hl as [vl Hl].
  unfold close_ring. destruct out as [|v0 out']; [done|].
  rewrite Hl. eauto.
Qed.

Lemma ring_unique_vertices_eq (r : list vertex) v0 vl :
  head r = Some v0 → last r = Some vl →
  ring_unique_vertices r
  = if decide (v0 = vl) then take (List.length r - 1) r else r.
Proof.
  destruct r as [|v r']; [done|]. intros [= ->] Hl.
  unfold ring_unique_vertices. by rewrite Hl.
Qed.

Lemma ensure_closed_eq (r : list vertex) v0 vl :
  head r = Some v0 → last r = Some vl →
  ensure_closed r = if decide (v0 = vl) then r else r ++ [v0].
Proof.
  destruct r as [|v r']; [done|]. intros [= ->] Hl.
  unfold ensure_closed. by rewrite Hl.
Qed.

Lemma close_ring_eq (out : list vertex) v0 vl :
  head out = Some v0 → last out = Some vl →
  close_ring out = Some (if decide (v0 = vl) then out else out ++ [v0]).
Proof.
  destruct out as [|v r']; [done|]. intros [= ->] Hl.
  unfold close_ring. by rewrite Hl.
Qed.

Lemma head_snoc (l : list vertex) v0 x :
  head l = Some v0 → head (l ++ [x]) = Some v0.
Proof. by destruct l. Qed.

Lemma ring_unique_vertices_closed (out : list vertex) v0 :
  head out = Some v0 →
  ring_unique_vertices (out ++ [v0]) = out.
Proof.
  intros Hh.
  rewrite (ring_unique_vertices_eq _ v0 v0);
    [|by apply head_snoc|by rewrite last_snoc].
  rewrite decide_True by done.
  rewrite length_app. simpl.
  replace (List.length out + 1 - 1) with (List.length out) by lia.
  by rewrite take_app_length.
Qed.

Lemma ring_unique_vertices_length (r : list vertex) :
  List.length (ring_unique_vertices r) ≤ List.length r.
Proof.
  unfold ring_unique_vertices.
  destruct r as [|v0 r']; [done|]. destruct (last _); [|done].
  case_decide; [|done]. rewrite length_take. lia.
Qed.

Lemma close_ring_spec (out res : list vertex) :
  close_ring out = Some res →
  out ≠ [] ∧ closed res ∧ head res = head out
  ∧ List.length (ring_unique_vertices res) ≤ List.length out
  ∧ List.length res ≤ List.length out + 1.
Proof.
  destruct out as [|v0 out'] eqn:Eo; [done|]. rewrite <- Eo.
  assert (Hh : head out = Some v0) by by subst.
  assert (Hne : out ≠ []) by by subst.
  destruct (proj2 (last_is_Some out) Hne) as [vl Hl].
  rewrite (close_ring_eq _ _ _ Hh Hl). intros [= <-].
  split; [done|]. case_decide as Hv.
  - subst vl. split; [split; [done|congruence]|]. split; [done|].
    split; [apply ring_unique_vertices_length|lia].
  - split; [|split].
    + split; [by destruct out|].
      rewrite last_snoc. by apply head_snoc.
    + rewrite Hh. by apply head_snoc.
    + rewrite ring_unique_vertices_closed by done.
      rewrite length_app. simpl. lia.
Qed.

Lemma unique_vertices_nonempty (r : list vertex) :
  2 ≤ List.length r → ring_unique_vertices (ensure_closed r) ≠ [].
Proof.
  intros Hr.
  destruct r as [|v0 r'] eqn:Er; [simpl in Hr; lia|]. rewrite <- Er.
  assert (Hh : head r = Some v0) by by subst.
  assert (Hne : r ≠ []) by by subst.
  assert (Hlen : 2 ≤ List.length r) by by subst.
  clear Er Hr.
  destruct (proj2 (last_is_Some r) Hne) as [vl Hl].
  rewrite (ensure_closed_eq _ _ _ Hh Hl).
  case_decide as Hv.
  - rewrite (ring_unique_vertices_eq _ _ _ Hh Hl).
    rewrite decide_True by done.
    intros Ht. apply (f_equal List.length) in Ht.
    rewrite length_take in Ht. simpl in Ht. lia.
  - by rewrite ring_unique_vertices_closed.
Qed.

Lemma unique_vertices_head (r : list vertex) :
  2 ≤ List.length r →
  head (ring_unique_vertices (ensure_closed r)) = head r.
Proof.
  intros Hr.
  destruct r as [|v0 r'] eqn:Er; [done|]. rewrite <- Er.
  assert (Hh : head r = Some v0) by by subst.
  assert (Hne : r ≠ []) by by subst.
  assert (Hlen : 2 ≤ List.length r) by by subst.
  clear Er Hr.
  destruct (proj2 (last_is_Some r) Hne) as [vl Hl].
  rewrite (ensure_closed_eq _ _ _ Hh Hl).
  case_decide as Hv.
  - rewrite (ring_unique_vertices_eq _ _ _ Hh Hl).
    rewrite decide_True by done.
    destruct r as [|v [|w r'']]; try done. simpl in Hlen. lia.
  - by rewrite ring_unique_vertices_closed.
Qed.

Lemma stride_increases n t k :
  0 < t → t ≤ n → k * n / t < S k * n / t.
Proof.
  intros Ht Hn.
  apply Nat.lt_le_trans with (k * n / t + 1); [lia|].
  rewrite <- Nat.div_add by lia.
  apply Nat.Div0.div_le_mono. nia.
Qed.

Lemma sample_step (f : nat → nat) k :
  (∀ j, f j < f (S j)) →
  match last (f <$> seq 0 k) with
  | Some i => if decide (f k = i) then f <$> seq 0 k
              else (f <$> seq 0 k) ++ [f k]
  | None => (f <$> seq 0 k) ++ [f k]
  end = f <$> seq 0 (S k).
Proof.
  intros Hf. destruct k as [|k]; [done|].
  assert (Hl : last (f <$> seq 0 (S k)) = Some (f k))
    by (rewrite seq_S, fmap_app; apply last_snoc).
  rewrite Hl. pose proof (Hf k).
  rewrite decide_False by lia.
  by rewrite (seq_S (S k) 0), fmap_app.
Qed.

Lemma sample_indices_loop n t d :
  0 < t → t ≤ n →
  ∀ k fuel, k + d = t → d < fuel →
  sample_indices fuel n t k ((λ k, k * n / t) <$> seq 0 k)
  = stride_indices n t.
Proof.
  intros Ht Hn. induction d as [|d IH]; intros k fuel Hk Hf.
  - destruct fuel as [|fuel]; [lia|]. simpl.
    rewrite length_fmap, length_seq.
    replace k with t by lia. by rewrite Nat.ltb_irrefl.
  - destruct fuel as [|fuel]; [lia|].
    rewrite <- (IH (S k) fuel) by lia.
    rewrite <- (sample_step (λ k, k * n / t) k)
      by (intros j; by apply stride_increases).
    cbn [sample_indices].
    rewrite length_fmap, length_seq.
    replace (k <? t)%nat with true by (symmetry; apply Nat.ltb_lt; lia).
    replace (k * n <? n * t)%nat with true
      by (symmetry; apply Nat.ltb_lt; nia).
    done.
Qed.

Lemma sample_indices_stride n t :
  0 < t → t ≤ n → sample_indices (S t) n t 0 [] = stride_indices n t.
Proof.
  intros Ht Hn. apply (sample_indices_loop n t t Ht Hn 0 (S t)); lia.
Qed.

Lemma stride_indices_length n t : List.length (stride_indices n t) = t.
Proof. unfold stride_indices. by rewrite length_fmap, length_seq. Qed.

Lemma stride_indices_lookup n t k :
  k < t → stride_indices n t !! k = Some (k * n / t).
Proof.
  intros Hk. unfold stride_indices.
  rewrite list_lookup_fmap, lookup_seq_lt by done. done.
Qed.

Lemma stride_indices_zero n t : 0 < t → 0 ∈ stride_indices n t.
Proof.
  intros Ht. apply (list_elem_of_lookup_2 _ 0).
  rewrite stride_indices_lookup by done. simpl.
  by rewrite Nat.Div0.div_0_l.
Qed.

Lemma stride_indices_bound n t i :
  0 < n → i ∈ stride_indices n t → i < n.
Proof.
  intros Hn Hi. unfold stride_indices in Hi.
  apply list_elem_of_fmap in Hi as (k & -> & Hk).
  apply elem_of_seq in Hk.
  apply Nat.Div0.div_lt_upper_bound. nia.
Qed.

Lemma unique_vertices_length_le (r : list vertex) :
  List.length (ring_unique_vertices (ensure_closed r)) ≤ List.length r.
Proof.
  destruct r as [|v0 r'] eqn:Er; [done|]. rewrite <- Er.
  assert (Hh : head r = Some v0) by by subst.
  assert (Hne : r ≠ []) by by subst.
  clear Er.
  destruct (proj2 (last_is_Some r) Hne) as [vl Hl].
  rewrite (ensure_closed_eq _ _ _ Hh Hl).
  case_decide as Hv.
  - apply ring_unique_vertices_length.
  - by rewrite ring_unique_vertices_closed.
Qed.

Lemma unique_vertices_short (r : list vertex) :
  List.length r < 2 → ring_unique_vertices (ensure_closed r) = [].
Proof.
  destruct r as [|v [|w r']]; simpl; [done| |lia]. intros _.
  unfold ensure_closed, ring_unique_vertices. simpl.
  rewrite decide_True by done. simpl. by rewrite decide_True.
Qed.

Lemma decimate_ring_small (r : list vertex) t :
  List.length (ring_unique_vertices (ensure_closed r)) ≤ Nat.max 4 t →
  decimate_ring r t = close_ring (ring_unique_vertices (ensure_closed r)).
Proof.
  intros Hn. unfold decimate_ring.
  by rewrite (proj2 (Nat.leb_le _ _) Hn).
Qed.

Lemma decimate_ring_sampled (r : list vertex) t :
  0 < t →
  Nat.max 4 t < List.length (ring_unique_vertices (ensure_closed r)) →
  decimate_ring r t
  = mapM (λ i, (ring_unique_vertices (ensure_closed r) : list vertex) !! i)
         (stride_indices
            (List.length (ring_unique_vertices (ensure_closed r))) t)
    ≫= close_ring.
Proof.
  intros Ht Hn. unfold decimate_ring.
  rewrite (proj2 (Nat.leb_gt _ _) Hn).
  rewrite decide_False by lia.
  rewrite sample_indices_stride by lia.
  rewrite decide_True by by apply stride_indices_zero.
  by rewrite take_ge by (rewrite stride_indices_length; lia).
Qed.

Lemma mapM_stride (u : list vertex) t :
  0 < List.length u →
  ∃ kept, mapM (λ i, u !! i) (stride_indices (List.length u) t) = Some kept
          ∧ List.length kept = t
          ∧ ∀ k, k < t → kept !! k = u !! (k * List.length u / t).
Proof.
  intros Hu.
  destruct (mapM_is_Some_2 (λ i, u !! i)
              (stride_indices (List.length u) t)) as [kept Hk].
  { apply Forall_forall. intros i Hi.
    apply lookup_lt_is_Some. by eapply stride_indices_bound. }
  exists kept. split; [done|].
  pose proof (length_mapM _ _ _ Hk) as Hlen.
  rewrite stride_indices_length in Hlen. split; [done|].
  intros k Hlt. apply mapM_Some_1 in Hk.
  destruct (lookup_lt_is_Some_2 kept k) as [v Hv]; [lia|].
  rewrite Hv. symmetry.
  eapply (Forall2_lookup_lr _ _ _ k) in Hk;
    [exact Hk|by apply stride_indices_lookup|done].
Qed.

(** What [decimate_ring] returns for a ring of at least two positions. *)
Lemma decimate_ring_spec (r : list vertex) t :
  0 < t → 2 ≤ List.length r →
  ∃ out, decimate_ring r t = Some out
         ∧ closed out
         ∧ head out = head r
         ∧ List.length (ring_unique_vertices out) ≤ Nat.max 4 t
         ∧ List.length out ≤ Nat.max 4 t + 1.
Proof.
  intros Ht Hr.
  pose proof (unique_vertices_nonempty r Hr) as Hne.
  pose proof (unique_vertices_head r Hr) as Hhead.
  destruct (decide (List.length (ring_unique_vertices (ensure_closed r))
                    ≤ Nat.max 4 t)) as [Hn|Hn].
  - rewrite decimate_ring_small by done.
    destruct (close_ring_is_Some _ Hne) as [out Hout].
    exists out. split; [done|].
    apply close_ring_spec in Hout as (_ & Hc & Hh & Hlen & Hlen').
    split; [done|]. split; [congruence|lia].
  - rewrite decimate_ring_sampled by lia.
    destruct (mapM_stride (ring_unique_vertices (ensure_closed r)) t)
      as (kept & Hk & Hlen & Hnth); [lia|].
    rewrite Hk. simpl.
    destruct (close_ring_is_Some kept) as [out Hout];
      [by destruct kept; [simpl in Hlen; lia|]|].
    exists out. split; [done|].
    apply close_ring_spec in Hout as (_ & Hc & Hh & Hlen1 & Hlen2).
    split; [done|]. split; [|lia].
    rewrite Hh, <- Hhead.
    rewrite !head_lookup. rewrite Hnth by done. simpl.
    by rewrite Nat.Div0.div_0_l.
Qed.

Lemma decimate_rings_spec (poly : list (list vertex)) cap :
  0 < cap → Forall (λ r, 2 ≤ List.length r) poly →
  ∃ poly', mapM (λ r, decimate_ring r cap) poly = Some poly'
    ∧ Forall (@closed vertex) poly'
    ∧ sum_list ((λ r, List.length (ring_unique_vertices r)) <$> poly')
      ≤ List.length poly * Nat.max 4 cap.
Proof.
  intros Hcap. induction 1 as [|r poly Hr _ (poly' & Hm & Hc & Hsum)].
  { exists []. by repeat split. }
  destruct (decimate_ring_spec r cap Hcap Hr)
    as (out & Hout & Hclosed & _ & Hlen & _).
  exists (out :: poly'). split; [|split].
  - cbn. rewrite Hout. cbn. by rewrite Hm.
  - by constructor.
  - csimpl. lia.
Qed.

Lemma decimate_polys_spec (polys : list (list (list vertex))) cap :
  0 < cap → Forall (Forall (λ r, 2 ≤ List.length r)) polys →
  ∃ polys',
    mapM (λ poly, mapM (λ r, decimate_ring r cap) poly) polys = Some polys'
    ∧ Forall (Forall (@closed vertex)) polys'
    ∧ sum_list ((λ poly, sum_list ((λ r, List.length
                                           (ring_unique_vertices r))
                                     <$> poly)) <$> polys')
      ≤ sum_list (List.length <$> polys) * Nat.max 4 cap.
Proof.
  intros Hcap. induction 1 as [|p polys Hp _ (polys' & Hm & Hc & Hsum)].
  { exists []. by repeat split. }
  destruct (decimate_rings_spec p cap Hcap Hp) as (p' & Hp' & Hcp & Hsp).
  exists (p' :: polys'). split; [|split].
  - cbn. rewrite Hp'. cbn. by rewrite Hm.
  - by constructor.
  - csimpl. lia.
Qed.

End DecimationFacts.

(** X1.  For a boundary all of whose rings hold at least two positions
    the simplification never raises.  With no ring, or with more than
    five, it falls back to the point supplied with the place.  Otherwise
    the geometry keeps its kind, every ring is decimated with the cap
    [max(4, MAX_POINTS // num_rings)] and comes out closed, and the rings
    keep at most [MAX_POINTS] vertices between them when the closing
    position of each ring is left out: at most [MAX_POINTS + num_rings]
    positions are stored. *)
Theorem simplify_keeps_twenty_vertices
    {vertex : Type} `{EqDecision vertex} (g : @Geocoder.geometry vertex) :
  Geocoder.all_rings (λ r, 2 ≤ List.length r) g →
  if decide (Geocoder.num_rings g = 0 ∨ 5 < Geocoder.num_rings g)
  then Geocoder.simplify g = Some Geocoder.ProviderPoint
  else ∃ g',
    Geocoder.simplify g = Some (Geocoder.Geometry g')
    ∧ mapM (mapM (λ r, Geocoder.decimate_ring r
                         (Nat.max 4 (Geocoder.MAX_POINTS
                                     / Geocoder.num_rings g))))
           (Geocoder.polygons_of g)
      = Some (Geocoder.polygons_of g')
    ∧ match g, g' with
      | Geocoder.Polygon _, Geocoder.Polygon _
      | Geocoder.MultiPolygon _, Geocoder.MultiPolygon _ => True
      | _, _ => False
      end
    ∧ Geocoder.all_rings Geocoder.closed g'
    ∧ Geocoder.kept_vertex_count g' ≤ Geocoder.MAX_POINTS
    ∧ Geocoder.vertex_count g'
      ≤ Geocoder.MAX_POINTS + Geocoder.num_rings g.
Proof.
  intros Hrings. unfold Geocoder.simplify, Geocoder.MAX_POINTS.
  case_decide as Hn.
  - destruct Hn as [Hn|Hn].
    + by rewrite decide_True.
    + rewrite decide_False by lia.
      by rewrite (proj2 (Nat.ltb_lt _ _)) by lia.
  - rewrite decide_False by lia.
    rewrite (proj2 (Nat.ltb_ge _ _)) by lia.
    destruct (decimate_polys_spec (Geocoder.polygons_of g)
                (Nat.max 4 (20 / Geocoder.num_rings g)))
      as (polys' & Hm & Hc & Hsum); [lia|done|].
    pose proof (decimate_polys_bound _ _ _ (Geocoder.num_rings g)
                  eq_refl Hm) as Hstored.
    change (sum_list (List.length <$> Geocoder.polygons_of g))
      with (Geocoder.num_rings g) in Hsum.
    rewrite Hm. cbn [mbind option_bind].
    remember (Geocoder.num_rings g) as n eqn:Hnum.
    assert (H4 : 4 ≤ 20 / n) by (apply Nat.div_le_lower_bound; lia).
    rewrite Nat.max_r in Hsum, Hstored by lia.
    rewrite Nat.mul_add_distr_l, Nat.mul_1_r in Hstored.
    pose proof (Nat.Div0.mul_div_le 20 n) as Hd.
    destruct g as [rings|polys].
    + destruct polys' as [|rings' [|]];
        try (apply length_mapM in Hm; simpl in Hm; lia).
      exists (Geocoder.Polygon rings').
      split; [done|]. split; [exact Hm|].
      split; [done|]. split; [done|].
      unfold Geocoder.kept_vertex_count, Geocoder.vertex_count,
        Geocoder.polygons_of. lia.
    + exists (Geocoder.MultiPolygon polys').
      split; [done|]. split; [exact Hm|].
      split; [done|]. split; [done|].
      unfold Geocoder.kept_vertex_count, Geocoder.vertex_count,
        Geocoder.polygons_of. lia.
Qed.

Lemma simplify_keeps_twenty_vertices_witness :
  ∃ g', Geocoder.simplify (Geocoder.Polygon [Geocoder.closed_ring 40])
        = Some (Geocoder.Geometry g')
        ∧ Geocoder.kept_vertex_count g' ≤ Geocoder.MAX_POINTS.
Proof.
  assert (Hrings : Geocoder.all_rings (λ r, 2 ≤ List.length r)
                     (Geocoder.Polygon [Geocoder.closed_ring 40])).
  { constructor; [|constructor]. constructor; [|constructor].
    vm_compute. lia. }
  pose proof (simplify_keeps_twenty_vertices _ Hrings) as H.
  destruct (decide _) as [Hd|Hd] in H.
  - exfalso. revert Hd. vm_compute. lia.
  - destruct H as (g' & Hg & _ & _ & _ & Hk & _).
    exists g'. split; [exact Hg|exact Hk].
Defined.

(** X2.  A ring whose number [n] of vertices is a multiple of the cap,
    more than the cap and below [2 ** 53] (so that the doubles the code
    computes with hold every index exactly) is sampled at an even stride:
    vertex [k] of the [cap] vertices kept is vertex [k * (n // cap)] of
    the ring, so the first one is kept; the ring is then closed again. *)
Theorem decimate_ring_even_stride
    {vertex : Type} `{EqDecision vertex} (r : list vertex) (cap : nat) :
  let unique : list vertex :=
    Geocoder.ring_unique_vertices (Geocoder.ensure_closed r) in
  let n := List.length unique in
  0 < cap → Nat.max 4 cap < n →
  (cap | n) → (Z.of_nat n < 2 ^ 53)%Z →
  ∃ kept out : list vertex,
    Geocoder.decimate_ring r cap = Some out
    ∧ Geocoder.close_ring kept = Some out
    ∧ List.length kept = cap
    ∧ (∀ k, k < cap → kept !! k = unique !! (k * (n / cap)))
    ∧ head out = head r
    ∧ Geocoder.closed out.
Proof.
  intros unique n Hcap Hn [q Hq] _.
  assert (Hr : 2 ≤ List.length r).
  { pose proof (unique_vertices_length_le r). unfold n, unique in Hn. lia. }
  destruct (mapM_stride unique cap) as (kept & Hk & Hlen & Hnth);
    [unfold n in Hn; lia|].
  destruct (decimate_ring_spec r cap Hcap Hr) as (out & Hout & Hc & Hh & _).
  exists kept, out. split; [done|].
  rewrite decimate_ring_sampled in Hout by done.
  fold unique in Hout. rewrite Hk in Hout. cbn in Hout.
  split; [done|]. split; [done|]. split; [|by split].
  intros k Hlt. rewrite (Hnth k Hlt). f_equal. fold n. rewrite Hq.
  rewrite Nat.div_mul by lia. rewrite Nat.mul_assoc.
  by rewrite Nat.div_mul by lia.
Qed.

Lemma decimate_ring_even_stride_witness :
  ∃ kept out : list nat,
    Geocoder.decimate_ring (Geocoder.closed_ring 40) 20 = Some out
    ∧ List.length kept = 20 ∧ kept !! 7 = Some 14.
Proof.
  destruct (decimate_ring_even_stride (Geocoder.closed_ring 40) 20)
    as (kept & out & Hout & _ & Hlen & Hnth & _);
    [lia|vm_compute; lia|by exists 2|by vm_compute|].
  exists kept, out. split; [done|]. split; [done|].
  rewrite (Hnth 7) by lia. reflexivity.
Defined.

(** X3.  [decimate_ring] raises exactly on the rings with fewer than two
    positions: an empty ring, or a single position, which counts as a
    closed ring without vertices. *)
Theorem decimate_ring_raises_iff_short
    {vertex : Type} `{EqDecision vertex} (r : list vertex) (cap : nat) :
  0 < cap →
  Geocoder.decimate_ring r cap = None ↔ List.length r < 2.
Proof.
  intros Hcap. split.
  - intros Hnone. destruct (decide (List.length r < 2)) as [|Hr]; [done|].
    destruct (decimate_ring_spec r cap Hcap) as (out & Hout & _); [lia|].
    congruence.
  - intros Hr. rewrite decimate_ring_small;
      rewrite unique_vertices_short by done; [done|simpl; lia].
Qed.

Lemma decimate_ring_raises_iff_short_witness :
  Geocoder.decimate_ring [7] 4 = None.
Proof.
  apply (decimate_ring_raises_iff_short [7] 4); simpl; lia.
Defined.

(** X4.  A ring within the cap is only closed: it comes back as
    [ensure_closed] gives it, unless its last vertex before the closing
    position repeats the first one, in which case the vertices come back
    without a further closing position. *)
Theorem decimate_ring_within_cap
    {vertex : Type} `{EqDecision vertex} (r : list vertex) (cap : nat) :
  let unique : list vertex :=
    Geocoder.ring_unique_vertices (Geocoder.ensure_closed r) in
  2 ≤ List.length r →
  List.length unique ≤ Nat.max 4 cap →
  Geocoder.decimate_ring r cap
  = Some (if decide (last unique = head unique) then unique
          else Geocoder.ensure_closed r).
Proof.
  intros unique Hr Hn.
  rewrite decimate_ring_small by done. fold unique.
  pose proof (unique_vertices_nonempty r Hr) as Hne. fold unique in Hne.
  pose proof (unique_vertices_head r Hr) as Hhead. fold unique in Hhead.
  assert (Hrne : r ≠ []) by (intros ->; simpl in Hr; lia).
  destruct (head r) as [v0|] eqn:Hh; [|by destruct r].
  destruct (proj2 (last_is_Some r) Hrne) as [vl Hl].
  destruct (proj2 (last_is_Some unique) Hne) as [ul Hul].
  rewrite (close_ring_eq unique v0 ul) by congruence.
  rewrite Hul, Hhead. f_equal.
  destruct (decide (v0 = ul)) as [->|Hv].
  { by rewrite decide_True. }
  rewrite decide_False by congruence.
  rewrite (ensure_closed_eq _ _ _ Hh Hl).
  unfold unique. rewrite (ensure_closed_eq _ _ _ Hh Hl).
  case_decide as Hc.
  - subst vl. rewrite (ring_unique_vertices_eq _ _ _ Hh Hl).
    rewrite decide_True by done.
    rewrite <- (take_drop (List.length r - 1) r) at 3.
    f_equal. rewrite last_lookup in Hl.
    replace (pred (List.length r)) with (List.length r - 1) in Hl by lia.
    apply drop_S in Hl as Hd. rewrite Hd. f_equal.
    rewrite drop_ge by lia. done.
  - by rewrite ring_unique_vertices_closed.
Qed.

Lemma decimate_ring_within_cap_witness :
  Geocoder.decimate_ring [1; 2; 3] 4 = Some [1; 2; 3; 1]
  ∧ Geocoder.decimate_ring [1; 2; 1; 1] 4 = Some [1; 2; 1].
Proof.
  split.
  - rewrite (decimate_ring_within_cap [1; 2; 3] 4); [done|simpl; lia..].
  - rewrite (decimate_ring_within_cap [1; 2; 1; 1] 4); [done|simpl; lia..].
Defined.

(** ** Lists of string literals *)

Section LiteralFacts.
Import Identity Literals.

Lemma double_quotes_quote s :
  double_quotes (String quote s) = String quote (String quote (double_quotes s)).
Proof. reflexivity. Qed.

Lemma double_quotes_other c s :
  c ≠ quote → double_quotes (String c s) = String c (double_quotes s).
Proof.
  intros Hc. unfold double_quotes. simpl.
  by rewrite bool_decide_eq_false_2.
Qed.

(** Reading a doubled text up to its closing quote gives back the
    text. *)
Lemma double_quotes_closed s t rest rest' :
  no_quote_ahead rest → no_quote_ahead rest' →
  double_quotes s +:+ String quote rest
  = double_quotes t +:+ String quote rest' →
  s = t ∧ rest = rest'.
Proof.
  intros Hr Hr'. revert t.
  induction s as [|c s IH]; intros t.
  - destruct t as [|d t]; [by intros [= ->]|].
    destruct (decide (d = quote)) as [->|Hd].
    + rewrite double_quotes_quote, !append_cons.
      intros [= ->]. by simpl in Hr.
    + rewrite double_quotes_other, append_cons by done.
      intros [= <-]. done.
  - destruct (decide (c = quote)) as [->|Hc].
    + rewrite double_quotes_quote, !append_cons.
      destruct t as [|d t].
      { intros [= <-]. by simpl in Hr'. }
      destruct (decide (d = quote)) as [->|Hd].
      * rewrite double_quotes_quote, !append_cons. intros [= Heq].
        destruct (IH t Heq) as [-> ->]. done.
      * rewrite double_quotes_other, append_cons by done.
        intros [= <-]. done.
    + rewrite double_quotes_other, append_cons by done.
      destruct t as [|d t]; [by intros [= ->]|].
      destruct (decide (d = quote)) as [->|Hd].
      * rewrite double_quotes_quote, !append_cons. by intros [= ->].
      * rewrite double_quotes_other, append_cons by done.
        intros [= <- Heq]. destruct (IH t Heq) as [-> ->]. done.
Qed.

Lemma cypher_quote_string s rest :
  cypher_quote (PyStr s) +:+ rest
  = String quote (double_quotes s +:+ String quote rest).
Proof.
  unfold cypher_quote, cypher_escape. simpl py_str.
  by rewrite !append_cons, append_nil_l, append_assoc, append_cons,
    append_nil_l.
Qed.

Lemma list_items_cons v vs rest :
  list_items (v :: vs) +:+ rest
  = cypher_quote v +:+ match vs with
                       | [] => rest
                       | _ => ", " +:+ (list_items vs +:+ rest)
                       end.
Proof.
  unfold list_items. destruct vs as [|w vs]; [done|].
  change (Text.join ", " (cypher_quote <$> v :: w :: vs))
    with (cypher_quote v +:+ ", "
            +:+ Text.join ", " (cypher_quote <$> w :: vs)).
  by rewrite !append_assoc.
Qed.

Lemma list_items_closed l l' :
  list_items (PyStr <$> l) +:+ "]" = list_items (PyStr <$> l') +:+ "]" →
  l = l'.
Proof.
  revert l'. induction l as [|s l IH]; intros l'.
  - destruct l' as [|t l']; [done|].
    rewrite fmap_cons, list_items_cons, cypher_quote_string. done.
  - destruct l' as [|t l'].
    { rewrite fmap_cons, list_items_cons, cypher_quote_string. done. }
    rewrite !fmap_cons, !list_items_cons, !cypher_quote_string.
    intros [= Heq].
    apply double_quotes_closed in Heq as [-> Hrest].
    + f_equal. apply IH.
      destruct l as [|s' l], l' as [|t' l']; simpl in Hrest; try done.
      by injection Hrest.
    + by destruct l.
    + by destruct l'.
Qed.
End LiteralFacts.

(** X5.  Two lists of strings with the same [cypher_string_list] literal
    are the same list: doubling the quotes keeps apart names that hold
    quotes, commas or brackets. *)
Theorem cypher_string_list_injective (l l' : list string) :
  Literals.cypher_string_list (Identity.PyStr <$> l)
  = Literals.cypher_string_list (Identity.PyStr <$> l') →
  l = l'.
Proof.
  unfold Literals.cypher_string_list. rewrite !append_cons, !append_nil_l.
  intros [= Heq]. by apply list_items_closed.
Qed.

Lemma cypher_string_list_injective_witness :
  Literals.cypher_string_list (Identity.PyStr <$> ["O'Hare"; "a', 'b"])
  = "['O''Hare', 'a'', ''b']"
  ∧ ["O'Hare"; "a', 'b"] = ["O'Hare"; "a', 'b"].
Proof.
  split; [reflexivity|].
  apply (cypher_string_list_injective ["O'Hare"; "a', 'b"]). reflexivity.
Defined.

(** ** Structured facts *)

Section JsonFacts.
Import Json.

Lemma get_set_eq key v d : get key (set key v d) = Some v.
Proof.
  induction d as [|[k w] d IH]; simpl.
  - by rewrite decide_True.
  - case_decide as Hk; simpl.
    + subst. by rewrite decide_True.
    + by rewrite decide_False.
Qed.

Lemma get_set_ne key key' v d :
  key' ≠ key → get key' (set key v d) = get key' d.
Proof.
  intros Hne. induction d as [|[k w] d IH]; simpl.
  - by rewrite decide_False.
  - case_decide as Hk; simpl.
    + subst. by rewrite !decide_False.
    + by rewrite IH.
Qed.

Lemma set_same key v d : get key d = Some v → set key v d = d.
Proof.
  induction d as [|[k w] d IH]; simpl; [done|].
  case_decide as Hk.
  - by intros [= ->].
  - intros Hg. by rewrite IH.
Qed.

Lemma get_cons_eq key v d : get key ((key, v) :: d) = Some v.
Proof. simpl. by rewrite decide_True. Qed.

Lemma get_cons_ne key k v d : key ≠ k → get key ((k, v) :: d) = get key d.
Proof. intros. simpl. by rewrite decide_False. Qed.

Lemma has_key_true key d : has_key key d = true ↔ is_Some (get key d).
Proof.
  unfold has_key. destruct (get key d) as [v|].
  - split; [eauto|done].
  - split; [done|]. by intros [? ?].
Qed.

Lemma filter_m_idemp {A} (f : A → option bool) l kept :
  filter_m f l = Some kept → filter_m f kept = Some kept.
Proof.
  revert kept. induction l as [|x l IH]; intros kept; simpl.
  { by intros [= <-]. }
  destruct (f x) as [b|] eqn:Hx; [|done]. simpl.
  destruct (filter_m f l) as [k'|]; [|done]. simpl.
  intros [= <-]. destruct b; [|by apply IH].
  simpl. rewrite Hx. simpl. by rewrite (IH k').
Qed.

Lemma filter_m_spec {A} (f : A → option bool) (P : A → Prop) l :
  (∀ x, ∃ b, f x = Some b ∧ (b = true ↔ P x)) →
  ∃ kept, filter_m f l = Some kept
          ∧ sublist kept l
          ∧ ∀ x, x ∈ kept ↔ x ∈ l ∧ P x.
Proof.
  intros Hf. induction l as [|x l (kept & Hk & Hsub & Hin)].
  { exists []. split; [done|]. split; [done|]. intros x.
    rewrite !elem_of_nil. tauto. }
  destruct (Hf x) as (b & Hb & HP). simpl. rewrite Hb, Hk. simpl.
  destruct b.
  - exists (x :: kept). split; [done|]. split; [by constructor|].
    intros y. rewrite !elem_of_cons, Hin. split.
    + intros [->|[Hy HPy]];
        [split; [by left|by apply HP]|split; [by right|done]].
    + intros [[->|Hy] HPy]; [by left|right; by split].
  - exists kept. split; [done|]. split; [by constructor|].
    intros y. rewrite elem_of_cons, Hin. split.
    + intros [Hy HPy]. split; [by right|done].
    + intros [[->|Hy] HPy]; [|by split]. by apply HP in HPy.
Qed.
End JsonFacts.

Section ValidationFacts.
Import Json Facts.

Lemma missing_fields_nil required d :
  is_nil (missing_fields required d) = true
  ↔ Forall (λ key, is_Some (get key d)) required.
Proof.
  unfold missing_fields. induction required as [|k req IH]; simpl.
  { split; [constructor|done]. }
  destruct (has_key k d) eqn:Hk; simpl.
  - rewrite IH. apply has_key_true in Hk.
    split; [by constructor|by inversion 1].
  - split; [done|]. inversion_clear 1 as [|?? Hs _].
    apply has_key_true in Hs. congruence.
Qed.

Lemma check_temporal_fact_spec d :
  is_string "temporal_fact" (default (Str "temporal_fact")
                                     (get "fact_type" d)) = true →
  ∃ b, check_temporal_fact d = Some b
       ∧ (b = true ↔ well_formed_temporal_fact d).
Proof.
  intros Hft. unfold check_temporal_fact, well_formed_temporal_fact.
  destruct (is_nil (missing_fields _ d)) eqn:Hm; simpl.
  2: { exists false. split; [done|]. split; [done|].
       intros (_ & s & o & r & i & c & Hs & _ & Ho & Hr & _ & Hi & Hc).
       assert (is_nil (missing_fields
                 ["subjects"; "objects"; "relation_type";
                  "temporal_intervals"; "spatial_contexts"] d) = true);
         [|congruence].
       apply missing_fields_nil. repeat constructor; eauto. }
  apply missing_fields_nil in Hm.
  inversion_clear Hm as [|?? [subjects Hs] Hm1].
  inversion_clear Hm1 as [|?? [objects Ho] Hm2].
  inversion_clear Hm2 as [|?? [relation Hr] Hm3].
  inversion_clear Hm3 as [|?? [intervals Hi] Hm4].
  inversion_clear Hm4 as [|?? [contexts Hc] _].
  rewrite Hs, Ho, Hr, Hi, Hc. simpl.
  destruct subjects as [| | | |subjects|];
    try (exists false; split; [done|]; split; [done|];
         by intros (_ & ? & ? & ? & ? & ? & ? & _)).
  destruct objects as [| | | |objects|];
    try (exists false; split; [done|]; split; [done|];
         by intros (_ & ? & ? & ? & ? & ? & _ & _ & ? & _)).
  destruct subjects as [|s0 subjects]; simpl.
  { exists false. split; [done|]. split; [done|].
    intros (_ & ? & ? & ? & ? & ? & [= <-] & ? & _). done. }
  destruct relation as [| | |relation| |];
    try (exists false; split; [done|]; split; [done|];
         by intros (_ & ? & ? & ? & ? & ? & _ & _ & _ & ? & _)).
  case_bool_decide as Hrel.
  { exists false. split; [done|]. split; [done|].
    intros (_ & ? & ? & ? & ? & ? & _ & _ & _ & [= <-] & ? & _). done. }
  destruct intervals as [| | | |intervals|];
    try (exists false; split; [done|]; split; [done|];
         by intros (_ & ? & ? & ? & ? & ? & _ & _ & _ & _ & _ & ? & _)).
  destruct contexts as [| | | |contexts|];
    try (exists false; split; [done|]; split; [done|];
         by intros (_ & ? & ? & ? & ? & ? & _ & _ & _ & _ & _ & _ & ?)).
  exists true. split; [done|]. split; [|done]. intros _.
  split; [done|]. exists (s0 :: subjects), objects, relation, intervals,
    contexts. by repeat split.
Qed.
Lemma check_state_change_event_spec d :
  ∃ b, check_state_change_event d = Some b
       ∧ (b = true ↔
          ∃ affected caused_by causes,
            get "affected_fact" d = Some (Dict affected)
            ∧ is_Some (get "subjects" affected)
            ∧ is_Some (get "objects" affected)
            ∧ is_Some (get "relation_type" affected)
            ∧ get "caused_by" d = Some (Arr caused_by)
            ∧ get "causes" d = Some (Arr causes)).
Proof.
  unfold check_state_change_event.
  destruct (is_nil (missing_fields _ d)) eqn:Hm; simpl.
  2: { exists false. split; [done|]. split; [done|].
       intros (a & cb & cs & Ha & _ & _ & _ & Hcb & Hcs).
       assert (is_nil (missing_fields
                 ["affected_fact"; "caused_by"; "causes"] d) = true);
         [|congruence].
       apply missing_fields_nil. repeat constructor; eauto. }
  apply missing_fields_nil in Hm.
  inversion_clear Hm as [|?? [affected Ha] Hm1].
  inversion_clear Hm1 as [|?? [caused_by Hcb] Hm2].
  inversion_clear Hm2 as [|?? [causes Hcs] _].
  rewrite Ha, Hcb, Hcs. simpl.
  destruct affected as [| | | | |affected];
    try (exists false; split; [done|]; split; [done|];
         by intros (? & ? & ? & ? & _)).
  destruct (has_key "subjects" affected) eqn:H1; simpl.
  2: { exists false. split; [done|]. split; [done|].
       intros (? & ? & ? & [= <-] & Hs & _).
       apply has_key_true in Hs. congruence. }
  destruct (has_key "objects" affected) eqn:H2; simpl.
  2: { exists false. split; [done|]. split; [done|].
       intros (? & ? & ? & [= <-] & _ & Hs & _).
       apply has_key_true in Hs. congruence. }
  destruct (has_key "relation_type" affected) eqn:H3; simpl.
  2: { exists false. split; [done|]. split; [done|].
       intros (? & ? & ? & [= <-] & _ & _ & Hs & _).
       apply has_key_true in Hs. congruence. }
  apply has_key_true in H1, H2, H3.
  destruct caused_by as [| | | |caused_by|];
    try (exists false; split; [done|]; split; [done|];
         by intros (? & ? & ? & _ & _ & _ & _ & ? & _)).
  destruct causes as [| | | |causes|];
    try (exists false; split; [done|]; split; [done|];
         by intros (? & ? & ? & _ & _ & _ & _ & _ & ?)).
  exists true. split; [done|]. split; [|done]. intros _.
  by exists affected, caused_by, causes.
Qed.

Lemma is_string_true s v : is_string s v = true ↔ v = Str s.
Proof.
  destruct v; simpl; try (split; done).
  case_bool_decide; split; congruence.
Qed.

Lemma check_item_spec data :
  ∃ b, check_item data = Some b ∧ (b = true ↔ well_formed data).
Proof.
  destruct data as [| | | | |d];
    try (exists false; split; [done|]; split; done).
  unfold check_item, well_formed.
  destruct (is_string "temporal_fact" _) eqn:Ht.
  { destruct (check_temporal_fact_spec d Ht) as (b & Hb & Hwf).
    exists b. split; [done|]. rewrite Hwf. split; [by left|].
    intros [?|[Hft _]]; [done|]. rewrite Hft in Ht. done. }
  destruct (is_string "state_change_event" _) eqn:Hs.
  - destruct (check_state_change_event_spec d) as (b & Hb & Hwf).
    exists b. split; [done|]. rewrite Hwf.
    apply is_string_true in Hs.
    assert (Hft : get "fact_type" d = Some (Str "state_change_event")).
    { destruct (get "fact_type" d); simpl in Hs; congruence. }
    unfold well_formed_state_change_event.
    split; [by right|]. intros [[Ht' _]|[_ ?]]; [congruence|done].
  - exists false. split; [done|]. split; [done|].
    intros [[Ht' _]|[Hft _]]; [congruence|].
    rewrite Hft in Hs. done.
Qed.
End ValidationFacts.

(** X6.  [validate_structured_data] never raises, whatever the list
    holds; it keeps, in their order, exactly the items that are
    well-formed temporal facts or well-formed state change events.  Its
    last check, for a fact that "appears to be empty", is reached only
    with subjects, so it neither rejects a fact nor raises. *)
Theorem validate_keeps_the_well_formed (data_list : list Json.value) :
  ∃ kept,
    Facts.validate_structured_data data_list = Some kept
    ∧ sublist kept data_list
    ∧ ∀ data, data ∈ kept ↔ data ∈ data_list ∧ Facts.well_formed data.
Proof. apply filter_m_spec, check_item_spec. Qed.

(** X7.  Validating a validated list changes nothing. *)
Theorem validate_twice (data_list : list Json.value) :
  Facts.validate_structured_data data_list
    ≫= Facts.validate_structured_data
  = Facts.validate_structured_data data_list.
Proof.
  destruct (Facts.validate_structured_data data_list) as [kept|] eqn:Hk;
    [|done].
  simpl. by eapply filter_m_idemp.
Qed.

Section ValidatorsFacts.
Import Json Facts.

Lemma pipeline_validate_temporal d :
  is_string "temporal_fact" (default (Str "temporal_fact")
                                     (get "fact_type" d)) = true →
  ∃ b, pipeline_validate (Dict d) = Some b
       ∧ (b = true ↔
          ∃ s subjects objects relation t intervals,
            get "subjects" d = Some (Arr (s :: subjects))
            ∧ get "objects" d = Some (Arr objects)
            ∧ get "relation_type" d = Some (Str relation) ∧ relation ≠ ""
            ∧ get "temporal_intervals" d = Some (Arr (t :: intervals))).
Proof.
  intros Hft. unfold pipeline_validate. rewrite Hft.
  destruct (is_nil (missing_fields _ d)) eqn:Hm; simpl.
  2: { exists false. split; [done|]. split; [done|].
       intros (s & ss & o & r & t & ts & Hs & Ho & Hr & _ & Hi).
       assert (is_nil (missing_fields
                 ["subjects"; "objects"; "relation_type";
                  "temporal_intervals"] d) = true);
         [|congruence].
       apply missing_fields_nil. repeat constructor; eauto. }
  apply missing_fields_nil in Hm.
  inversion_clear Hm as [|?? [subjects Hs] Hm1].
  inversion_clear Hm1 as [|?? [objects Ho] Hm2].
  inversion_clear Hm2 as [|?? [relation Hr] Hm3].
  inversion_clear Hm3 as [|?? [intervals Hi] _].
  rewrite Hs, Ho, Hr, Hi. simpl.
  destruct subjects as [| | | |[|s0 subjects]|];
    try (exists false; split; [done|]; split; [done|];
         by intros (? & ? & ? & ? & ? & ? & ? & _)).
  destruct objects as [| | | |objects|];
    try (exists false; split; [done|]; split; [done|];
         by intros (? & ? & ? & ? & ? & ? & _ & ? & _)).
  destruct relation as [| | |relation| |];
    try (exists false; split; [done|]; split; [done|];
         by intros (? & ? & ? & ? & ? & ? & _ & _ & ? & _)).
  case_bool_decide as Hrel.
  { exists false. split; [done|]. split; [done|].
    intros (? & ? & ? & ? & ? & ? & _ & _ & [= <-] & ? & _). done. }
  destruct intervals as [| | | |[|t0 intervals]|];
    try (exists false; split; [done|]; split; [done|];
         by intros (? & ? & ? & ? & ? & ? & _ & _ & _ & _ & ?)).
  exists true. split; [done|]. split; [|done]. intros _.
  exists s0, subjects, objects, relation, t0, intervals. by repeat split.
Qed.

Lemma check_item_true data :
  check_item data = Some true ↔ well_formed data.
Proof.
  destruct (check_item_spec data) as (b & Hb & Hwf). rewrite Hb, <- Hwf.
  split; congruence.
Qed.
End ValidatorsFacts.

(** X8.  The validator of the pipeline class and
    [validate_structured_data] accept the same dictionaries, except that
    for a temporal fact the former wants at least one temporal interval
    and does not look at [spatial_contexts], while the latter wants
    [spatial_contexts] to be a list and accepts an empty list of
    intervals. *)
Theorem validators_differ_on_intervals_and_contexts (d : Json.dict) :
  let temporal :=
    Json.is_string "temporal_fact"
      (default (Json.Str "temporal_fact") (Json.get "fact_type" d)) in
  (Facts.pipeline_validate (Json.Dict d) = Some true
   ∧ (temporal = true →
      ∃ contexts, Json.get "spatial_contexts" d = Some (Json.Arr contexts)))
  ↔ (Facts.check_item (Json.Dict d) = Some true
     ∧ (temporal = true →
        ∃ t intervals,
          Json.get "temporal_intervals" d
          = Some (Json.Arr (t :: intervals)))).
Proof.
  intros temporal. rewrite check_item_true. cbn [Facts.well_formed].
  destruct temporal eqn:Ht; unfold temporal in Ht.
  - destruct (pipeline_validate_temporal d Ht) as (b & Hb & Hspec).
    rewrite Hb. split.
    + intros [[= ->] Hc]. destruct (Hc eq_refl) as [contexts Hctx].
      destruct (proj1 Hspec eq_refl)
        as (s & ss & o & r & t & ts & Hs & Ho & Hr & Hne & Hi).
      split; [|by eauto]. left. split; [done|].
      exists (s :: ss), o, r, (t :: ts), contexts. by repeat split.
    + intros [[(_ & s & o & r & i & c & Hs & Hne & Ho & Hr & Hrne & Hi & Hc)
               |[Hft _]] Hi'].
      2: { rewrite Hft in Ht. done. }
      destruct (Hi' eq_refl) as (t & ts & Hts).
      split; [|by eauto]. f_equal. apply Hspec.
      destruct s as [|s0 s]; [done|].
      exists s0, s, o, r, t, ts. by repeat split.
  - unfold Facts.pipeline_validate, Facts.check_item. rewrite Ht.
    split.
    + intros [Hp _]. split; [|done]. right.
      destruct (Json.is_string "state_change_event" _) eqn:Hs; [|done].
      apply is_string_true in Hs.
      assert (Hft : Json.get "fact_type" d
                    = Some (Json.Str "state_change_event")).
      { destruct (Json.get "fact_type" d); simpl in Hs; congruence. }
      split; [done|].
      destruct (check_state_change_event_spec d) as (b & Hb & Hwf).
      apply Hwf. congruence.
    + intros [[[Ht' _]|[Hft Hwf]] _]; [congruence|]. split; [|done].
      rewrite Hft. simpl.
      destruct (check_state_change_event_spec d) as (b & Hb & Hspec).
      rewrite Hb. f_equal. by apply Hspec.
Qed.

Section SanitiseFacts.
Import Text Json Facts.

Lemma lstrip_fixed s : starts_with_space s = false → lstrip s = s.
Proof. destruct s as [|c s]; simpl; [done|]. by intros ->. Qed.

Lemma rstrip_fixed s :
  (∀ c, last_char s = Some c → is_space c = false) → rstrip s = s.
Proof.
  induction s as [|c s IH]; [done|]. intros Hlast. simpl.
  rewrite IH.
  - destruct s as [|d s']; [|done].
    by rewrite (Hlast c).
  - intros d Hd. apply Hlast. simpl. by rewrite Hd.
Qed.

Lemma rstrip_starts_with_space s :
  starts_with_space s = false → starts_with_space (rstrip s) = false.
Proof.
  destruct s as [|c s]; [done|]. simpl. intros Hc.
  destruct (rstrip s); simpl; by rewrite ?Hc.
Qed.

Lemma strip_idemp s : strip (strip s) = strip s.
Proof.
  unfold strip.
  destruct (lstrip_spec s) as (_ & _ & _ & Hst).
  destruct (rstrip_spec (lstrip s)) as (_ & _ & _ & Hlast).
  rewrite (lstrip_fixed (rstrip (lstrip s)))
    by by apply rstrip_starts_with_space.
  by apply rstrip_fixed.
Qed.

Lemma lower_question_mark s : lower s = "?" ↔ s = "?".
Proof.
  assert (Hc : ∀ c, lower_char c = "?"%char → c = "?"%char).
  { intros c. destruct c as [[] [] [] [] [] [] [] []]; vm_compute;
      congruence. }
  split; [|by intros ->].
  destruct s as [|c [|d s]]; simpl; try done.
  intros [= Hl]. by rewrite (Hc c Hl).
Qed.

Section WithStr.
Variable py_str : value → string.

Lemma clean_entities_clean v l :
  clean_entities py_str v = Some l → Forall clean l.
Proof.
  unfold clean_entities. intros Hc.
  apply bind_Some in Hc as (items & _ & [= <-]).
  apply Forall_forall. intros s Hs.
  apply list_elem_of_In, filter_In in Hs as [Hs Hp].
  apply negb_true_iff in Hp. split; [|done].
  apply list_elem_of_In, list_elem_of_fmap in Hs as (x & -> & _).
  apply strip_idemp.
Qed.

Lemma filter_all_true {A} (f : A → bool) l :
  Forall (λ x, f x = true) l → List.filter f l = l.
Proof.
  induction 1 as [|x l Hx _ IH]; simpl; [done|]. by rewrite Hx, IH.
Qed.

Lemma clean_items l :
  (∀ s, py_str (Str s) = s) → Forall clean l →
  List.filter (λ s, negb (is_placeholder s))
    ((λ s, strip (py_str s))
       <$> List.filter (λ s, negb (is_none s)) (Str <$> l)) = l.
Proof.
  intros Hstr. induction 1 as [|s l [Hs Hp] _ IH]; [done|].
  cbn. rewrite Hstr, Hs, Hp. cbn. f_equal. exact IH.
Qed.

Lemma clean_entities_fixed l :
  (∀ s, py_str (Str s) = s) → Forall clean l →
  clean_entities py_str (Some (Arr (Str <$> l))) = Some l.
Proof.
  intros Hstr Hl. destruct l as [|s l]; [done|].
  unfold clean_entities. cbn [truthy fmap list_fmap py_iter mbind option_bind].
  f_equal. by apply (clean_items (s :: l)).
Qed.

Lemma sanitise_fact_spec fact d :
  sanitise_fact py_str fact = Some d →
  ∃ d0 rel subs objs,
    fact = Dict d0
    ∧ d = set "objects" (Arr (Str <$> objs))
            (set "subjects" (Arr (Str <$> subs))
               (set "relation_type" (Str rel) d0))
    ∧ subs ≠ []
    ∧ Forall clean (rel :: subs ++ objs).
Proof.
  destruct fact as [| | | | |d0]; try done. simpl.
  set (rel := strip (py_str _)).
  destruct (bool_decide (rel = "")) eqn:H1; [done|].
  destruct (bool_decide (lower rel = "unknown")) eqn:H2; [done|].
  destruct (bool_decide (lower rel = "?")) eqn:H3; [done|]. simpl.
  destruct (clean_entities py_str (get "subjects" _)) as [subs|] eqn:Hs;
    [|done]. simpl.
  destruct subs as [|s subs]; [done|]. simpl.
  destruct (clean_entities py_str (get "objects" _)) as [objs|] eqn:Ho;
    [|done]. simpl.
  intros [= <-]. exists d0, rel, (s :: subs), objs.
  split; [done|]. split; [done|]. split; [done|].
  apply clean_entities_clean in Hs, Ho.
  constructor; [|by apply Forall_app].
  split; [apply strip_idemp|]. unfold is_placeholder.
  rewrite H1, H2. simpl. rewrite orb_false_r.
  apply bool_decide_eq_false. intros ->.
  by apply bool_decide_eq_false in H3.
Qed.
End WithStr.
End SanitiseFacts.

Section SanitisedDict.
Import Json Facts.

Lemma sanitised_lookups d0 rel subs objs :
  let d := set "objects" (Arr (Str <$> objs))
             (set "subjects" (Arr (Str <$> subs))
                (set "relation_type" (Str rel) d0)) in
  get "relation_type" d = Some (Str rel)
  ∧ get "subjects" d = Some (Arr (Str <$> subs))
  ∧ get "objects" d = Some (Arr (Str <$> objs))
  ∧ ∀ key, key ∉ ["relation_type"; "subjects"; "objects"] →
           get key d = get key d0.
Proof.
  intros d. unfold d. split; [|split; [|split]].
  - rewrite !get_set_ne by done. apply get_set_eq.
  - rewrite get_set_ne by done. apply get_set_eq.
  - apply get_set_eq.
  - intros key Hkey. rewrite !get_set_ne; [done|..];
      intros ->; apply Hkey; set_solver.
Qed.
End SanitisedDict.

(** X9.  A fact that [sanitise_fact] lets through is a dictionary whose
    relation, subjects and objects are stripped strings, none of them
    empty, ['?'] or, in any case, ['unknown']; it has at least one
    subject, and its other fields are as they were. *)
Theorem sanitise_fact_leaves_clean_names
    (py_str : Json.value → string) (fact : Json.value) (d : Json.dict) :
  Facts.sanitise_fact py_str fact = Some d →
  ∃ d0 relation subjects objects,
    fact = Json.Dict d0
    ∧ Json.get "relation_type" d = Some (Json.Str relation)
    ∧ Json.get "subjects" d = Some (Json.Arr (Json.Str <$> subjects))
    ∧ Json.get "objects" d = Some (Json.Arr (Json.Str <$> objects))
    ∧ subjects ≠ []
    ∧ Forall Facts.clean (relation :: subjects ++ objects)
    ∧ ∀ key, key ∉ ["relation_type"; "subjects"; "objects"] →
             Json.get key d = Json.get key d0.
Proof.
  intros Hs.
  apply sanitise_fact_spec in Hs as (d0 & rel & subs & objs & -> & -> & Hne
                                      & Hclean).
  destruct (sanitised_lookups d0 rel subs objs) as (Hr & Hsu & Ho & Hk).
  exists d0, rel, subs, objs. by repeat split.
Qed.

(** X10.  Sanitising a sanitised fact returns it unchanged. *)
Theorem sanitise_fact_twice
    (py_str : Json.value → string) (fact : Json.value) (d : Json.dict) :
  (∀ s, py_str (Json.Str s) = s) →
  Facts.sanitise_fact py_str fact = Some d →
  Facts.sanitise_fact py_str (Json.Dict d) = Some d.
Proof.
  intros Hstr Hs.
  apply sanitise_fact_spec in Hs as (d0 & rel & subs & objs & -> & Hd & Hne
                                      & Hclean).
  destruct (sanitised_lookups d0 rel subs objs) as (Hr & Hsu & Ho & _).
  rewrite <- Hd in Hr, Hsu, Ho. clear Hd d0.
  inversion_clear Hclean as [|?? [Hstrip Hp] Hrest].
  apply Forall_app in Hrest as [Hsubs Hobjs].
  unfold Facts.is_placeholder in Hp.
  apply orb_false_iff in Hp as [Hp Hunknown].
  apply orb_false_iff in Hp as [Hempty Hq].
  apply bool_decide_eq_false in Hempty, Hq, Hunknown.
  unfold Facts.sanitise_fact. rewrite Hr.
  cbn [Json.truthy]. rewrite (bool_decide_eq_false_2 _ Hempty).
  cbn [negb]. rewrite Hstr, Hstrip.
  rewrite (bool_decide_eq_false_2 _ Hempty),
    (bool_decide_eq_false_2 _ Hunknown).
  rewrite (bool_decide_eq_false_2 (Text.lower rel = "?"))
    by (by rewrite lower_question_mark).
  cbn [orb]. rewrite (set_same _ _ _ Hr), Hsu.
  rewrite clean_entities_fixed by done. cbn [mbind option_bind].
  destruct subs as [|s subs]; [done|]. cbn [Json.is_nil].
  rewrite (set_same _ _ _ Hsu), Ho.
  rewrite clean_entities_fixed by done. cbn [mbind option_bind].
  by rewrite (set_same _ _ _ Ho).
Qed.

(** X11.  [extract_partial_structured_state_facts] does not raise on
    sanitised facts; it gives one template for each fact, and every
    template passes both [validate_structured_data] and the guard of the
    generator for state change events. *)
Theorem templates_of_sanitised_facts
    (py_str : Json.value → string) (facts : list Json.dict) :
  Forall (λ d, ∃ fact, Facts.sanitise_fact py_str fact = Some d) facts →
  ∃ templates,
    Facts.extract_partial_structured_state_facts (Json.Dict <$> facts)
    = Some (Json.Dict <$> templates)
    ∧ List.length templates = List.length facts
    ∧ Forall (λ t, Facts.affected_fact_accepted t = true
                   ∧ Facts.check_item (Json.Dict t) = Some true) templates.
Proof.
  induction 1 as [|d facts [fact Hs] _ (templates & Ht & Hlen & Hok)].
  { by exists []. }
  apply sanitise_fact_spec in Hs as (d0 & rel & subs & objs & _ & -> & Hne
                                      & Hclean).
  destruct (sanitised_lookups d0 rel subs objs) as (Hr & Hsu & Ho & _).
  eexists (_ :: templates). split; [|split].
  - unfold Facts.extract_partial_structured_state_facts in *.
    cbn. rewrite Hsu, Ho, Hr. cbn. rewrite Ht. cbn. reflexivity.
  - simpl. by rewrite Hlen.
  - constructor; [|done]. split.
    + inversion_clear Hclean as [|?? [_ Hp] _].
      unfold Facts.is_placeholder in Hp.
      apply orb_false_iff in Hp as [Hp _].
      apply orb_false_iff in Hp as [Hempty _].
      destruct subs as [|s subs]; [done|].
      unfold Facts.affected_fact_accepted, Json.has_key.
      repeat first
        [ rewrite get_cons_ne by done
        | rewrite get_cons_eq
        | progress cbn [default from_option id Json.is_nil negb andb
                        Json.truthy fmap list_fmap] ].
      by rewrite Hempty.
    + reflexivity.
Qed.

Lemma sanitise_fact_leaves_clean_names_witness :
  Facts.sanitise_fact FactExamples.scalar_str
    (Json.Dict FactExamples.raw_fact) = Some FactExamples.sanitised_fact
  ∧ ∃ d0 relation subjects objects,
      Json.Dict FactExamples.raw_fact = Json.Dict d0
      ∧ Json.get "relation_type" FactExamples.sanitised_fact
        = Some (Json.Str relation)
      ∧ Json.get "subjects" FactExamples.sanitised_fact
        = Some (Json.Arr (Json.Str <$> subjects))
      ∧ Json.get "objects" FactExamples.sanitised_fact
        = Some (Json.Arr (Json.Str <$> objects))
      ∧ subjects ≠ []
      ∧ Forall Facts.clean (relation :: subjects ++ objects)
      ∧ ∀ key, key ∉ ["relation_type"; "subjects"; "objects"] →
               Json.get key FactExamples.sanitised_fact = Json.get key d0.
Proof.
  assert (H : Facts.sanitise_fact FactExamples.scalar_str
                (Json.Dict FactExamples.raw_fact)
              = Some FactExamples.sanitised_fact) by reflexivity.
  split; [exact H|].
  exact (sanitise_fact_leaves_clean_names _ _ _ H).
Defined.

Lemma sanitise_fact_twice_witness :
  Facts.sanitise_fact FactExamples.scalar_str
    (Json.Dict FactExamples.sanitised_fact)
  = Some FactExamples.sanitised_fact.
Proof.
  apply (sanitise_fact_twice FactExamples.scalar_str
           (Json.Dict FactExamples.raw_fact)); [done|reflexivity].
Defined.

Lemma templates_of_sanitised_facts_witness :
  ∃ templates,
    Facts.extract_partial_structured_state_facts
      (Json.Dict <$> [FactExamples.sanitised_fact])
    = Some (Json.Dict <$> templates)
    ∧ List.length templates = 1
    ∧ Forall (λ t, Facts.affected_fact_accepted t = true
                   ∧ Facts.check_item (Json.Dict t) = Some true) templates.
Proof.
  apply (templates_of_sanitised_facts FactExamples.scalar_str
           [FactExamples.sanitised_fact]).
  constructor; [|constructor].
  exists (Json.Dict FactExamples.raw_fact). reflexivity.
Defined.

(** ** Spatial contexts of a fact *)

Section ExpansionFacts.
Import Json Expansion.
Variable expand_spatial : string → option (list value).
Variable py_str : value → string.
Hypothesis geocoder_records :
  ∀ name data, expand_spatial name = Some data → Forall context_record data.

Lemma unresolved_point_record name : context_record (unresolved_point name).
Proof. eexists. split; [done|]. repeat split; by eexists. Qed.

Lemma expand_location_records v :
  Forall context_record (expand_location expand_spatial py_str v).
Proof.
  assert (Hp : ∀ name, Forall context_record [unresolved_point name]).
  { intros name. constructor; [apply unresolved_point_record|constructor]. }
  destruct v as [|b|z|s|l|d]; simpl; try (case_match; by auto).
  - constructor.
  - case_bool_decide; [case_match; by auto|].
    case_bool_decide; [constructor|].
    destruct (expand_spatial (Text.strip s)) as [[|first more]|] eqn:He;
      [by auto| |by auto].
    by eapply geocoder_records.
Qed.
End ExpansionFacts.

(** X12.  If the geocoder returns records with a name, a type and
    coordinates, then after [expand_spatial_coordinates] the field
    [spatial_contexts], when there is one, is a list of such records
    whatever it held before (names, [None], placeholders, other values),
    and every other field is as it was. *)
Theorem expanded_contexts_are_records
    (expand_spatial : string → option (list Json.value))
    (py_str : Json.value → string) (d d' : Json.dict) :
  (∀ name data, expand_spatial name = Some data →
                Forall Expansion.context_record data) →
  Expansion.expand_spatial_coordinates expand_spatial py_str d = Some d' →
  (Json.get "spatial_contexts" d = None ∧ d' = d)
  ∨ (∃ contexts,
       Json.get "spatial_contexts" d' = Some (Json.Arr contexts)
       ∧ Forall Expansion.context_record contexts
       ∧ ∀ key, key ≠ "spatial_contexts" →
                Json.get key d' = Json.get key d).
Proof.
  intros Hgeo. unfold Expansion.expand_spatial_coordinates.
  destruct (Json.get "spatial_contexts" d) as [contexts|] eqn:Hc.
  2: { intros [= <-]. by left. }
  destruct (Json.py_iter contexts) as [items|]; [|done]. simpl.
  intros [= <-]. right. eexists. split; [apply get_set_eq|]. split.
  - apply Forall_bind, Forall_forall. intros v _.
    by apply expand_location_records.
  - intros key Hkey. by apply get_set_ne.
Qed.

Lemma expanded_contexts_are_records_witness :
  Expansion.expand_spatial_coordinates ExpansionExamples.unreachable
    FactExamples.scalar_str ExpansionExamples.located_fact
  = Some ExpansionExamples.expanded_fact
  ∧ ((Json.get "spatial_contexts" ExpansionExamples.located_fact = None
      ∧ ExpansionExamples.expanded_fact = ExpansionExamples.located_fact)
     ∨ (∃ contexts,
          Json.get "spatial_contexts" ExpansionExamples.expanded_fact
          = Some (Json.Arr contexts)
          ∧ Forall Expansion.context_record contexts
          ∧ ∀ key, key ≠ "spatial_contexts" →
                   Json.get key ExpansionExamples.expanded_fact
                   = Json.get key ExpansionExamples.located_fact)).
Proof.
  assert (H : Expansion.expand_spatial_coordinates
                ExpansionExamples.unreachable FactExamples.scalar_str
                ExpansionExamples.located_fact
              = Some ExpansionExamples.expanded_fact) by reflexivity.
  split; [exact H|].
  apply (expanded_contexts_are_records ExpansionExamples.unreachable
           FactExamples.scalar_str _ _); [|exact H].
  intros name data Hd. discriminate Hd.
Defined.

(** ** Validity in time *)

Section TemporalFacts.
Import Json Temporal.
Variable fromisoformat : string → option datetime.

Lemma is_time_within_range_naive t s e :
  naive s → naive e →
  ∃ b, is_time_within_range (Naive t) s e = Some b
       ∧ (b = true ↔ within t s e).
Proof.
  intros Hs He. unfold within.
  destruct s as [[x|x]|]; [|by destruct (Hs x)|];
    (destruct e as [[y|y]|]; [|by destruct (He y)|]); simpl.
  - destruct (x <=? t)%Z eqn:Hx.
    + apply Z.leb_le in Hx. exists (t <=? y)%Z. split; [done|].
      rewrite Z.leb_le. split.
      * intros Hy. split; intros ? [= <-]; done.
      * intros [_ Hy]. by apply Hy.
    + apply Z.leb_gt in Hx. exists false. split; [done|].
      split; [done|]. intros [Hx' _]. specialize (Hx' x eq_refl). lia.
  - exists (x <=? t)%Z. split; [done|]. rewrite Z.leb_le. split.
    + intros Hx. split; [by intros ? [= <-]|done].
    + intros [Hx _]. by apply Hx.
  - exists (t <=? y)%Z. split; [done|]. rewrite Z.leb_le. split.
    + intros Hy. split; [done|by intros ? [= <-]].
    + intros [_ Hy]. by apply Hy.
  - exists true. by repeat split.
Qed.

Lemma any_m_spec {A} (f : A → option bool) (P : A → Prop) l :
  Forall (λ x, ∃ b, f x = Some b ∧ (b = true ↔ P x)) l →
  ∃ b, any_m f l = Some b ∧ (b = true ↔ Exists P l).
Proof.
  induction 1 as [|x l (b & Hb & HP) _ (b' & Hb' & HP')]; simpl.
  { exists false. split; [done|]. split; [done|]. by inversion 1. }
  rewrite Hb. simpl. destruct b.
  - exists true. split; [done|]. split; [|done]. intros _.
    left. by apply HP.
  - exists b'. split; [done|]. rewrite HP'. split; [by right|].
    inversion_clear 1 as [?? Hx|]; [|done]. by apply HP in Hx.
Qed.
End TemporalFacts.

(** X13.  With naive datetimes throughout,
    [is_hyperedge_valid_at_time] does not raise and answers [True]
    exactly when the time lies within one of the intervals, where a bound
    that is missing, empty or not an ISO date counts as open. *)
Theorem valid_at_time_iff_some_interval_holds
    (fromisoformat : string → option Temporal.datetime)
    (d : Json.dict) (intervals : list Json.dict) (t : Z) :
  (∀ s, Temporal.naive (fromisoformat s)) →
  Json.get "temporal_intervals" d = Some (Json.Arr (Json.Dict <$> intervals)) →
  ∃ b,
    Temporal.is_hyperedge_valid_at_time fromisoformat (Json.Dict d)
      (Temporal.Naive t) = Some b
    ∧ (b = true ↔
       ∃ interval, interval ∈ intervals
         ∧ Temporal.within t
             (Temporal.parse_iso_or_none fromisoformat
                (default Json.Null (Json.get "start_time" interval)))
             (Temporal.parse_iso_or_none fromisoformat
                (default Json.Null (Json.get "end_time" interval)))).
Proof.
  intros Hnaive Hget.
  unfold Temporal.is_hyperedge_valid_at_time. cbn [Temporal.get_temporal_intervals_from_hyperedge mbind option_bind].
  rewrite Hget. cbn [default from_option id Json.py_iter].
  assert (Hparse : ∀ v, Temporal.naive
                          (Temporal.parse_iso_or_none fromisoformat v)).
  { intros [| | |s| |]; try (by intros ?); simpl.
    case_bool_decide; [by intros ?|apply Hnaive]. }
  edestruct (any_m_spec
    (λ interval,
       range ← Temporal.extract_time_range_from_interval fromisoformat
                 interval;
       Temporal.is_time_within_range (Temporal.Naive t) range.1 range.2)
    (λ v, ∃ interval, v = Json.Dict interval
       ∧ Temporal.within t
           (Temporal.parse_iso_or_none fromisoformat
              (default Json.Null (Json.get "start_time" interval)))
           (Temporal.parse_iso_or_none fromisoformat
              (default Json.Null (Json.get "end_time" interval))))
    (Json.Dict <$> intervals)) as (b & Hb & Hspec).
  { apply Forall_fmap, Forall_forall. intros interval _. simpl.
    destruct (is_time_within_range_naive t
                (Temporal.parse_iso_or_none fromisoformat
                   (default Json.Null (Json.get "start_time" interval)))
                (Temporal.parse_iso_or_none fromisoformat
                   (default Json.Null (Json.get "end_time" interval))))
      as (b & Hb & Hw); [apply Hparse..|].
    exists b. split; [exact Hb|]. rewrite Hw. split.
    - intros Hin. by exists interval.
    - by intros (? & [= <-] & ?). }
  exists b. split; [exact Hb|]. rewrite Hspec, Exists_exists. split.
  - intros (v & Hv & interval & -> & Hw).
    apply list_elem_of_fmap in Hv as (i' & [= <-] & Hin).
    by exists interval.
  - intros (interval & Hin & Hw). exists (Json.Dict interval).
    split; [by apply list_elem_of_fmap_2|]. by exists interval.
Qed.

Lemma valid_at_time_iff_some_interval_holds_witness :
  ∃ b,
    Temporal.is_hyperedge_valid_at_time TemporalExamples.read_date
      TemporalExamples.worked_at (Temporal.Naive 0) = Some b
    ∧ (b = true ↔
       ∃ interval,
         interval ∈ [[("start_time", Json.Str "2020-01-01T00:00:00");
                      ("end_time", Json.Str "2021-12-31T23:59:59")];
                     [("start_time", Json.Str "start of the wedding");
                      ("end_time", Json.Null)]]
         ∧ Temporal.within 0
             (Temporal.parse_iso_or_none TemporalExamples.read_date
                (default Json.Null (Json.get "start_time" interval)))
             (Temporal.parse_iso_or_none TemporalExamples.read_date
                (default Json.Null (Json.get "end_time" interval)))).
Proof.
  apply (valid_at_time_iff_some_interval_holds TemporalExamples.read_date
           [("relation_type", Json.Str "worked_at");
            ("temporal_intervals",
             Json.Arr [Json.Dict
                         [("start_time", Json.Str "2020-01-01T00:00:00");
                          ("end_time", Json.Str "2021-12-31T23:59:59")];
                       Json.Dict
                         [("start_time", Json.Str "start of the wedding");
                          ("end_time", Json.Null)]])]).
  - intros s x. unfold TemporalExamples.read_date.
    repeat case_bool_decide; congruence.
  - reflexivity.
Defined.

(** X14.  Edge cases of [is_hyperedge_valid_at_time]: without intervals
    the hyperedge is valid at no time; if the first interval has no
    usable bound it is valid at every time, whatever follows; and a naive
    bound compared with an aware time, or the reverse, raises. *)
Theorem valid_at_time_edge_cases
    (fromisoformat : string → option Temporal.datetime)
    (d : Json.dict) (first : Json.dict) (rest : list Json.value) :
  let valid := Temporal.is_hyperedge_valid_at_time fromisoformat
                 (Json.Dict d) in
  let start_time := Temporal.parse_iso_or_none fromisoformat
                      (default Json.Null (Json.get "start_time" first)) in
  let end_time := Temporal.parse_iso_or_none fromisoformat
                    (default Json.Null (Json.get "end_time" first)) in
  (Json.get "temporal_intervals" d = None
   ∨ Json.get "temporal_intervals" d = Some (Json.Arr []) →
   ∀ now, valid now = Some false)
  ∧ (Json.get "temporal_intervals" d
     = Some (Json.Arr (Json.Dict first :: rest)) →
     (start_time = None → end_time = None → ∀ now, valid now = Some true)
     ∧ (∀ x u, start_time = Some (Temporal.Naive x) →
               valid (Temporal.Aware u) = None)
     ∧ (∀ x u, start_time = Some (Temporal.Aware x) →
               valid (Temporal.Naive u) = None)).
Proof.
  intros valid start_time end_time.
  unfold valid, Temporal.is_hyperedge_valid_at_time.
  cbn [Temporal.get_temporal_intervals_from_hyperedge mbind option_bind].
  split.
  { intros [->| ->] now; reflexivity. }
  intros ->. unfold start_time, end_time. clear valid start_time end_time.
  cbn -[Temporal.parse_iso_or_none Json.get Temporal.is_time_within_range].
  split; [|split].
  - intros -> -> now. reflexivity.
  - intros x u ->.
    destruct (Temporal.parse_iso_or_none fromisoformat _); reflexivity.
  - intros x u ->.
    destruct (Temporal.parse_iso_or_none fromisoformat _); reflexivity.
Qed.

(** ** Sentences and chunks, again *)

Section ResplitFacts.
Import Unicode.

Lemma has_split_point_app_r a b :
  has_split_point (a ++ b) = false → has_split_point b = false.
Proof.
  induction a as [|c a IH]; [done|]. simpl.
  intros H. apply orb_false_iff in H as [_ H]. by apply IH.
Qed.

Lemma starts_with_space_app a b :
  starts_with_space a = true → starts_with_space (a ++ b) = true.
Proof. by destruct a. Qed.

Lemma has_split_point_app_l a b :
  has_split_point (a ++ b) = false → has_split_point a = false.
Proof.
  induction a as [|c a IH]; [done|]. simpl.
  intros H. apply orb_false_iff in H as [H1 H2].
  rewrite (IH H2), orb_false_r.
  destruct (is_terminal c); [|done]. simpl in *.
  destruct (starts_with_space a) eqn:Ha; [|done].
  by rewrite (starts_with_space_app a b Ha) in H1.
Qed.

Lemma ends_with_terminal_tail c s :
  s ≠ [] → ends_with_terminal (c :: s) → ends_with_terminal s.
Proof.
  intros Hs (d & Hd & Ht). exists d. split; [|done].
  destruct s as [|a s']; [done|]. by rewrite last_cons_cons in Hd.
Qed.

Lemma ends_with_terminal_single_inv c :
  ends_with_terminal [c] → is_terminal c = true.
Proof. by intros (d & [= <-] & Ht). Qed.

(** Reading a sentence that holds no place to cut: the scan goes through
    it in one piece. *)
Lemma re_split_go_whole s st :
  has_split_point s = false → s ≠ [] →
  st = Elsewhere ∨ starts_with_space s = false →
  re_split_go st s = [s].
Proof.
  revert st. induction s as [|c s IH]; intros st Hsp Hne Hst; [done|].
  simpl in Hsp. apply orb_false_iff in Hsp as [Hc Hsp].
  assert (Hstep : re_split_go st (c :: s)
                  = cons_head c (re_split_go (scan_of c) s)).
  { simpl. destruct Hst as [->|Hsw]; [done|]. simpl in Hsw.
    rewrite Hsw. by destruct st. }
  rewrite Hstep. destruct s as [|d s]; [done|].
  rewrite IH; [done..|].
  unfold scan_of. destruct (is_terminal c); [by right|by left].
Qed.

(** The same sentence followed by a space and more text: the sentence is
    a piece, and the space starts a separator. *)
Lemma re_split_go_sentence s st w rest :
  has_split_point s = false → ends_with_terminal s →
  st = Elsewhere ∨ starts_with_space s = false →
  is_space w = true →
  re_split_go st (s ++ w :: rest)
  = s :: re_split_go InSeparator rest.
Proof.
  intros Hsp Hend Hst Hw.
  revert st Hsp Hend Hst. induction s as [|c s IH]; intros st Hsp Hend Hst.
  { by destruct Hend as (? & ? & ?). }
  simpl in Hsp. apply orb_false_iff in Hsp as [Hc Hsp].
  assert (Hstep : ∀ r, re_split_go st (c :: r)
                       = cons_head c (re_split_go (scan_of c) r)).
  { intros r. simpl. destruct Hst as [->|Hsw]; [done|]. simpl in Hsw.
    rewrite Hsw. by destruct st. }
  change ((c :: s) ++ w :: rest) with (c :: (s ++ w :: rest)).
  rewrite Hstep. destruct s as [|d s].
  - apply ends_with_terminal_single_inv in Hend.
    unfold scan_of. rewrite Hend. simpl. by rewrite Hw.
  - rewrite IH; [done|done|by apply ends_with_terminal_tail in Hend|].
    unfold scan_of. destruct (is_terminal c); [by right|by left].
Qed.

Lemma str_join_cons sep x y l :
  join sep (x :: y :: l) = x ++ sep ++ join sep (y :: l).
Proof. reflexivity. Qed.

(** Sentences joined with spaces are cut back into the same sentences. *)
Lemma re_split_go_join st g :
  g ≠ [] →
  Forall (λ s, has_split_point s = false ∧ s ≠ []
               ∧ starts_with_space s = false) g →
  Forall ends_with_terminal (Text.but_last g) →
  re_split_go st (join (of_ascii " ") g) = g.
Proof.
  intros Hne Hgood. revert st Hne.
  induction Hgood as [|s g (Hsp & Hs & Hsw) Hgood IH]; intros st Hne Hend;
    [done|].
  destruct g as [|s2 g].
  - change (join (of_ascii " ") [s]) with s. apply re_split_go_whole; auto.
  - rewrite str_join_cons. rewrite but_last_cons in Hend.
    inversion_clear Hend as [|?? Hs_end Hend'].
    change (of_ascii " " ++ join (of_ascii " ") (s2 :: g))
      with (ord " " :: join (of_ascii " ") (s2 :: g)).
    rewrite re_split_go_sentence by auto.
    f_equal. by apply IH.
Qed.

Lemma but_last_fmap {A B} (f : A → B) l :
  Text.but_last (f <$> l) = f <$> Text.but_last l.
Proof. unfold Text.but_last. by rewrite length_fmap, fmap_take. Qed.

Lemma but_last_nil {A} : Text.but_last (@nil A) = [].
Proof. reflexivity. Qed.

Lemma Forall_but_last_filter {A} (Q : A → Prop) (P : A → bool) l :
  Forall Q (Text.but_last l) → Forall Q (Text.but_last (List.filter P l)).
Proof.
  induction l as [|x l IH]; [done|]. intros Hl.
  assert (Hrest : Forall Q (Text.but_last l)).
  { destruct l as [|y l]; [constructor|].
    rewrite but_last_cons in Hl. by inversion Hl. }
  simpl. destruct (P x); [|by apply IH].
  destruct (List.filter P l) as [|y k] eqn:Hf; [constructor|].
  rewrite but_last_cons. constructor; [|by apply IH].
  destruct l as [|z l]; [done|].
  rewrite but_last_cons in Hl. by inversion Hl.
Qed.

Lemma Forall_but_last_app_l {A} (Q : A → Prop) l1 l2 :
  Forall Q (Text.but_last (l1 ++ l2)) → Forall Q (Text.but_last l1).
Proof.
  induction l1 as [|x l1 IH]; [constructor|]. intros H.
  destruct l1 as [|y l1]; [constructor|].
  rewrite but_last_cons. change ((x :: y :: l1) ++ l2)
    with (x :: y :: (l1 ++ l2)) in H.
  rewrite but_last_cons in H. inversion_clear H.
  constructor; [done|]. by apply IH.
Qed.

Lemma Forall_but_last_app_r {A} (Q : A → Prop) l1 l2 :
  Forall Q (Text.but_last (l1 ++ l2)) → Forall Q (Text.but_last l2).
Proof.
  induction l1 as [|x l1 IH]; [done|]. intros H. apply IH.
  destruct (l1 ++ l2) as [|y l] eqn:Hl; [constructor|].
  change ((x :: l1) ++ l2) with (x :: (l1 ++ l2)) in H.
  rewrite Hl, but_last_cons in H. by inversion H.
Qed.

Lemma lstrip_ends_with_terminal s :
  ends_with_terminal s → ends_with_terminal (lstrip s).
Proof.
  intros (c & Hc & Ht). exists c. split; [|done].
  pose proof (is_terminal_not_space c Ht) as Hsp.
  clear Ht. induction s as [|a s IH]; [done|]. simpl.
  destruct (is_space a) eqn:Ha; [|done].
  apply IH. destruct s as [|b s]; [|by rewrite last_cons_cons in Hc].
  injection Hc as ->. congruence.
Qed.

Lemma rstrip_ends_with_terminal s :
  ends_with_terminal s → rstrip s = s.
Proof.
  intros (c & Hc & Ht). apply str_rstrip_fixed.
  intros d Hd. rewrite Hc in Hd. injection Hd as <-.
  by apply is_terminal_not_space.
Qed.

Lemma strip_ends_with_terminal s :
  ends_with_terminal s → ends_with_terminal (strip s).
Proof.
  intros Hs. apply lstrip_ends_with_terminal in Hs.
  unfold strip. by rewrite rstrip_ends_with_terminal.
Qed.

Lemma strip_no_split_point s :
  has_split_point s = false → has_split_point (strip s) = false.
Proof.
  intros Hs. destruct (str_strip_spec s) as (ws1 & ws2 & Heq & _).
  rewrite Heq in Hs.
  by apply has_split_point_app_r, has_split_point_app_l in Hs.
Qed.

Lemma strip_starts_with_space s : starts_with_space (strip s) = false.
Proof.
  unfold strip. apply str_rstrip_starts_with_space.
  by destruct (str_lstrip_spec s) as (_ & _ & _ & ?).
Qed.

(** What the sentences of a text are like. *)
Lemma sentences_facts text :
  Forall (λ s, has_split_point s = false ∧ s ≠ []
               ∧ starts_with_space s = false
               ∧ strip s = s ∧ 3 < List.length s)
         (Segmenter.split_into_sentences text)
  ∧ Forall ends_with_terminal
           (Text.but_last (Segmenter.split_into_sentences text)).
Proof.
  pose proof (pieces_end_with_terminal text) as Hends.
  destruct (re_split_go_no_split_point Elsewhere text) as (Hsp & _ & _).
  split.
  - apply Forall_forall. intros s Hs.
    unfold Segmenter.split_into_sentences in Hs.
    apply list_elem_of_In, filter_In in Hs as [Hs Hl].
    apply andb_true_iff in Hl as [_ Hl].
    apply Nat.ltb_lt in Hl.
    apply list_elem_of_In, list_elem_of_fmap in Hs as (p & -> & Hp).
    pose proof (proj1 (Forall_forall _ _) Hsp p Hp) as Hpsp.
    split; [by apply strip_no_split_point|].
    split; [intros Heq; rewrite Heq in Hl; simpl in Hl; lia|].
    split; [apply strip_starts_with_space|].
    split; [apply str_strip_idemp|done].
  - unfold Segmenter.split_into_sentences.
    apply Forall_but_last_filter. rewrite but_last_fmap.
    apply Forall_fmap. eapply Forall_impl; [exact Hends|].
    intros p. apply strip_ends_with_terminal.
Qed.

(** A run of sentences of a text, joined with spaces, is split into the
    same sentences. *)
Lemma split_join_sentences text before g after :
  Segmenter.split_into_sentences text = before ++ g ++ after →
  Segmenter.split_into_sentences (join (of_ascii " ") g) = g.
Proof.
  intros Heq. destruct (sentences_facts text) as [Hgood Hends].
  rewrite Heq in Hgood, Hends.
  apply Forall_app in Hgood as [_ Hgood].
  apply Forall_app in Hgood as [Hgood _].
  apply Forall_but_last_app_r, Forall_but_last_app_l in Hends.
  unfold Segmenter.split_into_sentences, re_split_sentences.
  destruct g as [|s g]; [done|].
  rewrite re_split_go_join; [|done| |done].
  2: { eapply Forall_impl; [exact Hgood|]. by intros ? (? & ? & ? & _). }
  rewrite (list_fmap_ext strip id (s :: g)), list_fmap_id.
  - apply filter_all_true. eapply Forall_impl; [exact Hgood|].
    intros x (_ & Hx & _ & _ & Hl). apply andb_true_iff. split.
    + by destruct x.
    + by apply Nat.ltb_lt.
  - intros i x Hx. by eapply Forall_lookup_1 in Hgood as (_ & _ & _ & ? & _).
Qed.

Lemma concat_resplit text :
  ∀ groups before,
    Segmenter.split_into_sentences text = before ++ concat groups →
    concat ((λ g, Segmenter.split_into_sentences (join (of_ascii " ") g))
              <$> groups)
    = concat groups.
Proof.
  induction groups as [|g groups IH]; intros before Heq; [done|].
  simpl in *. f_equal.
  - by eapply split_join_sentences.
  - apply (IH (before ++ g)). by rewrite <- app_assoc.
Qed.
End ResplitFacts.

(** X15.  The chunks of a text, split into sentences again (as the
    pipeline does with each chunk), give back exactly the sentences of
    the text, in order. *)
Theorem chunks_split_back_into_the_sentences
    (text : Unicode.str) (chunk_size : Z)
    (chunks : list (nat * Unicode.str)) :
  (0 < chunk_size)%Z →
  Segmenter.split_text_into_chunks text chunk_size = Some chunks →
  concat ((λ chunk, Segmenter.split_into_sentences chunk.2) <$> chunks)
  = Segmenter.split_into_sentences text.
Proof.
  intros Hcs. unfold Segmenter.split_text_into_chunks.
  rewrite decide_False, decide_False by lia.
  destruct (chunk_loop_spec (Z.to_nat chunk_size)
              (Segmenter.split_into_sentences text)
              (List.length (Segmenter.split_into_sentences text)) 0)
    as (groups & Hloop & Hcat & _); [lia..|].
  simpl in Hloop, Hcat. rewrite Hloop. intros [= <-].
  transitivity (concat groups); [|exact Hcat].
  rewrite <- (concat_resplit text groups []) by done.
  f_equal. rewrite fmap_imap. clear.
  generalize 0. induction groups as [|g groups IH]; intros n; [done|].
  simpl. f_equal. apply (IH (S n)).
Qed.

Lemma chunks_split_back_into_the_sentences_witness :
  concat ((λ chunk, Segmenter.split_into_sentences chunk.2)
            <$> [(0, Unicode.of_ascii "One one. Two two!");
                 (1, Unicode.of_ascii "Three three?")])
  = Segmenter.split_into_sentences
      (Unicode.of_ascii "One one. Hi. Two two!  Three three?").
Proof.
  apply (chunks_split_back_into_the_sentences _ 2); [lia|reflexivity].
Defined.

Section BackendFacts.
Import Unicode.

Lemma lstrip_all_space s : all_space s = true → lstrip s = [].
Proof.
  induction s as [|c s IH]; [done|]. simpl.
  intros H. apply andb_true_iff in H as [-> H]. by apply IH.
Qed.

Lemma rstrip_all_space s : all_space s = true → rstrip s = [].
Proof.
  induction s as [|c s IH]; [done|]. simpl.
  intros H. apply andb_true_iff in H as [Hc H]. by rewrite IH, Hc.
Qed.

Lemma strip_all_space s : all_space s = true → strip s = [].
Proof. intros H. unfold strip. by rewrite lstrip_all_space. Qed.

Lemma rstrip_app_space s w :
  all_space w = true → rstrip (s ++ w) = rstrip s.
Proof.
  intros Hw. induction s as [|c s IH].
  - by apply rstrip_all_space.
  - simpl. by rewrite IH.
Qed.

Lemma lstrip_app s w :
  lstrip (s ++ w) = if all_space s then lstrip w else lstrip s ++ w.
Proof.
  induction s as [|c s IH]; [done|]. simpl.
  by destruct (is_space c).
Qed.

Lemma strip_app_space s w :
  all_space w = true → strip (s ++ w) = strip s.
Proof.
  intros Hw. unfold strip. rewrite lstrip_app.
  destruct (all_space s) eqn:Hs.
  - by rewrite !lstrip_all_space.
  - by apply rstrip_app_space.
Qed.

Lemma strip_cons_space c s :
  is_space c = true → strip (c :: s) = strip s.
Proof. intros Hc. unfold strip. simpl. by rewrite Hc. Qed.

Lemma scan_of_space c : is_space c = true → scan_of c = Elsewhere.
Proof.
  intros Hc. unfold scan_of.
  destruct (is_terminal c) eqn:Ht; [|done].
  apply is_terminal_not_space in Ht. congruence.
Qed.

(** The sentences that a list of pieces gives: stripped, without the
    empty ones. *)
Lemma stripped_cons_head c l :
  is_space c = true → l ≠ [] →
  List.filter non_empty (strip <$> cons_head c l)
  = List.filter non_empty (strip <$> l).
Proof.
  intros Hc Hl. destruct l as [|x l]; [done|].
  cbn [cons_head fmap list_fmap]. by rewrite strip_cons_space.
Qed.

Lemma re_split_go_spaces st ws :
  all_space ws = true →
  List.filter non_empty (strip <$> re_split_go st ws) = [].
Proof.
  revert st. induction ws as [|c ws IH]; intros st Hws; [done|].
  simpl in Hws. apply andb_true_iff in Hws as [Hc Hws].
  simpl. rewrite Hc, (scan_of_space c Hc).
  destruct st.
  - cbn. by apply IH.
  - by apply IH.
  - rewrite stripped_cons_head by (done || apply re_split_go_nonempty).
    by apply IH.
Qed.

Lemma re_split_go_leading ws t :
  all_space ws = true →
  List.filter non_empty (strip <$> re_split_go Elsewhere (ws ++ t))
  = List.filter non_empty (strip <$> re_split_go Elsewhere t).
Proof.
  induction ws as [|c ws IH]; [done|]. intros Hws.
  simpl in Hws. apply andb_true_iff in Hws as [Hc Hws].
  simpl. rewrite (scan_of_space c Hc).
  rewrite stripped_cons_head by (done || apply re_split_go_nonempty).
  by apply IH.
Qed.

Lemma re_split_go_all_space s :
  all_space s = true → re_split_go Elsewhere s = [s].
Proof.
  induction s as [|e s IH]; [done|]. simpl.
  intros H. apply andb_true_iff in H as [He H].
  by rewrite (scan_of_space e He), IH.
Qed.

Lemma re_split_go_separator ws :
  all_space ws = true → re_split_go InSeparator ws = [[]].
Proof.
  induction ws as [|e ws IH]; [done|]. simpl.
  intros H. apply andb_true_iff in H as [-> H]. by apply IH.
Qed.

(** White space after the text changes only the last piece, or adds an
    empty one. *)
Lemma re_split_go_trailing st t ws :
  all_space ws = true →
  ∃ init x w,
    all_space w = true
    ∧ re_split_go st t = init ++ [x]
    ∧ (re_split_go st (t ++ ws) = init ++ [x ++ w]
       ∨ re_split_go st (t ++ ws) = init ++ [x; []]).
Proof.
  intros Hws. revert st. induction t as [|c t IH]; intros st.
  { exists [], [].
    destruct ws as [|d ws].
    - exists []. split; [done|]. split; [done|]. by left.
    - simpl in Hws. apply andb_true_iff in Hws as [Hd Hws'].
      destruct st.
      + exists []. split; [done|]. split; [done|]. right.
        simpl. by rewrite Hd, re_split_go_separator.
      + exists []. split; [done|]. split; [done|]. left.
        simpl. by rewrite Hd, re_split_go_separator.
      + exists (d :: ws). split; [by simpl; rewrite Hd, Hws'|].
        split; [done|]. left.
        apply re_split_go_all_space. simpl. by rewrite Hd, Hws'. }
  assert (Hcons : ∃ init x w,
    all_space w = true
    ∧ cons_head c (re_split_go (scan_of c) t) = init ++ [x]
    ∧ (cons_head c (re_split_go (scan_of c) (t ++ ws)) = init ++ [x ++ w]
       ∨ cons_head c (re_split_go (scan_of c) (t ++ ws))
         = init ++ [x; []])).
  { destruct (IH (scan_of c)) as (init & x & w & Hw & -> & Hor).
    destruct init as [|i init].
    - exists [], (c :: x), w. split; [done|]. split; [done|].
      destruct Hor as [-> | ->]; [by left|by right].
    - exists ((c :: i) :: init), x, w. split; [done|]. split; [done|].
      destruct Hor as [-> | ->]; [by left|by right]. }
  simpl.
  destruct st; destruct (is_space c); try exact Hcons.
  - destruct (IH InSeparator) as (init & x & w & Hw & -> & Hor).
    exists ([] :: init), x, w. split; [done|]. split; [done|].
    destruct Hor as [-> | ->]; [by left|by right].
  - apply IH.
Qed.

Lemma stripped_app l1 l2 :
  List.filter non_empty (strip <$> (l1 ++ l2))
  = List.filter non_empty (strip <$> l1)
    ++ List.filter non_empty (strip <$> l2).
Proof. by rewrite fmap_app, List.filter_app. Qed.

Lemma re_split_go_trailing_sentences st t ws :
  all_space ws = true →
  List.filter non_empty (strip <$> re_split_go st (t ++ ws))
  = List.filter non_empty (strip <$> re_split_go st t).
Proof.
  intros Hws.
  destruct (re_split_go_trailing st t ws Hws)
    as (init & x & w & Hw & -> & [-> | ->]); rewrite !stripped_app.
  - f_equal. cbn [fmap list_fmap]. by rewrite strip_app_space.
  - by f_equal.
Qed.

Lemma filter_filter_impl {A} (P Q : A → bool) l :
  (∀ x, P x = true → Q x = true) →
  List.filter P (List.filter Q l) = List.filter P l.
Proof.
  intros HPQ. induction l as [|x l IH]; [done|]. simpl.
  destruct (Q x) eqn:HQ; simpl.
  - by rewrite IH.
  - destruct (P x) eqn:HP; [|done]. apply HPQ in HP. congruence.
Qed.

Lemma backend_sentences text :
  Backend._split_into_sentences text
  = List.filter non_empty (strip <$> re_split_sentences (strip text)).
Proof.
  unfold Backend._split_into_sentences, non_empty.
  induction (re_split_sentences (strip text)) as [|p l IH]; [done|].
  csimpl.
  destruct (bool_decide (p = [])) eqn:H1;
    destruct (bool_decide (strip p = [])) eqn:H2; csimpl;
    rewrite ?IH; try done.
  apply bool_decide_eq_true in H1. subst p. done.
Qed.
End BackendFacts.

(** X16.  The sentences of the ingestion pipeline are those of the
    splitter of the query endpoint ([_split_into_sentences]) that are
    longer than three characters. *)
Theorem ingestion_sentences_are_the_long_backend_sentences
    (text : Unicode.str) :
  Segmenter.split_into_sentences text
  = List.filter (λ sentence, (3 <? List.length sentence)%nat)
                (Backend._split_into_sentences text).
Proof.
  rewrite backend_sentences.
  unfold Segmenter.split_into_sentences. rewrite long_sentences.
  rewrite <- (filter_filter_impl _ Unicode.non_empty
                (Unicode.strip <$> Unicode.re_split_sentences text)).
  2: { intros s Hs. apply Nat.ltb_lt in Hs.
       destruct s; [simpl in Hs; lia|done]. }
  f_equal. unfold Unicode.re_split_sentences.
  destruct (str_strip_spec text) as (ws1 & ws2 & Heq & Hws1 & Hws2).
  rewrite Heq at 1.
  rewrite re_split_go_leading by done.
  by rewrite re_split_go_trailing_sentences.
Qed.

(** ** Bounding boxes *)

Section BoxFacts.
Import Spatial.
Context {coord : Type} (lt : coord → coord → bool).
Hypothesis lt_irrefl : ∀ a, lt a a = false.
Hypothesis lt_trans : ∀ a b c, lt a b = true → lt b c = true → lt a c = true.
Hypothesis lt_between : ∀ a b c, lt a b = true → lt a c = true ∨ lt c b = true.

Lemma foldl_min_least (l : list coord) x :
  lt x (foldl (λ best y, if lt y best then y else best) x l) = false
  ∧ Forall (λ y, lt y (foldl (λ best y, if lt y best then y else best) x l)
                 = false) l.
Proof.
  revert x. induction l as [|y l IH]; intros x; simpl.
  { by split. }
  destruct (lt y x) eqn:Hyx.
  - destruct (IH y) as [Hy Hl]. split; [|by constructor].
    apply not_true_is_false. intros Hx.
    destruct (lt_between _ _ y Hx) as [Hxy|Hym]; [|congruence].
    pose proof (lt_trans _ _ _ Hyx Hxy) as Hyy.
    by rewrite lt_irrefl in Hyy.
  - destruct (IH x) as [Hx Hl]. split; [done|]. constructor; [|done].
    apply not_true_is_false. intros Hy.
    destruct (lt_between _ _ x Hy) as [?|?]; congruence.
Qed.

Lemma foldl_max_greatest (l : list coord) x :
  lt (foldl (λ best y, if lt best y then y else best) x l) x = false
  ∧ Forall (λ y, lt (foldl (λ best y, if lt best y then y else best) x l) y
                 = false) l.
Proof.
  revert x. induction l as [|y l IH]; intros x; simpl.
  { by split. }
  destruct (lt x y) eqn:Hxy.
  - destruct (IH y) as [Hy Hl]. split; [|by constructor].
    apply not_true_is_false. intros Hx.
    destruct (lt_between _ _ y Hx) as [Hmy|Hyx]; [congruence|].
    pose proof (lt_trans _ _ _ Hxy Hyx) as Hxx.
    by rewrite lt_irrefl in Hxx.
  - destruct (IH x) as [Hx Hl]. split; [done|]. constructor; [|done].
    apply not_true_is_false. intros Hy.
    destruct (lt_between _ _ x Hy) as [?|?]; congruence.
Qed.

Lemma py_min_least (l : list coord) v :
  v ∈ l → ∃ m, py_min lt l = Some m ∧ lt v m = false.
Proof.
  destruct l as [|x l]; [by intros ?%elem_of_nil|]. intros Hv.
  eexists. split; [reflexivity|].
  destruct (foldl_min_least l x) as [Hx Hl].
  apply elem_of_cons in Hv as [->|Hv]; [done|].
  by apply (proj1 (Forall_forall _ _) Hl).
Qed.

Lemma py_max_greatest (l : list coord) v :
  v ∈ l → ∃ m, py_max lt l = Some m ∧ lt m v = false.
Proof.
  destruct l as [|x l]; [by intros ?%elem_of_nil|]. intros Hv.
  eexists. split; [reflexivity|].
  destruct (foldl_max_greatest l x) as [Hx Hl].
  apply elem_of_cons in Hv as [->|Hv]; [done|].
  by apply (proj1 (Forall_forall _ _) Hl).
Qed.

Lemma coordinates_is_Some i (poly : list (list coord)) (p : list coord) :
  Forall (λ q, i < List.length q) poly → p ∈ poly →
  ∃ l v, coordinates i poly = Some l ∧ p !! i = Some v ∧ v ∈ l.
Proof.
  intros Hlen Hp. unfold coordinates.
  destruct (mapM_is_Some_2 (λ q : list coord, q !! i) poly) as [l Hl].
  { eapply Forall_impl; [exact Hlen|]. intros q Hq.
    by apply lookup_lt_is_Some. }
  exists l. rewrite Hl. apply mapM_Some_1 in Hl.
  apply list_elem_of_lookup in Hp as [k Hk].
  destruct (Forall2_lookup_l _ _ _ _ _ Hl Hk) as (v & Hv & Hpv).
  exists v. split; [done|]. split; [done|].
  by eapply list_elem_of_lookup_2.
Qed.

Lemma boxes_meet a1 b1 a2 b2 v :
  lt v a1 = false → lt b1 v = false → lt v a2 = false → lt b2 v = false →
  lt b1 a2 = false ∧ lt b2 a1 = false.
Proof.
  intros Ha1 Hb1 Ha2 Hb2. split.
  - destruct (lt b1 a2) eqn:H; [|done].
    destruct (lt_between _ _ v H); congruence.
  - destruct (lt b2 a1) eqn:H; [|done].
    destruct (lt_between _ _ v H); congruence.
Qed.

Lemma shared_position_overlap (poly1 poly2 : list (list coord)) p :
  Forall (λ q, 2 ≤ List.length q) poly1 →
  Forall (λ q, 2 ≤ List.length q) poly2 →
  p ∈ poly1 → p ∈ poly2 →
  bounding_boxes_overlap lt poly1 poly2 = Some true.
Proof.
  intros Hl1 Hl2 Hp1 Hp2.
  assert (H0 : ∀ poly, Forall (λ q, 2 ≤ List.length q) poly →
                       Forall (λ q : list coord, 0 < List.length q) poly).
  { intros poly H. eapply Forall_impl; [exact H|]. intros q Hq.
    simpl in Hq. lia. }
  assert (H1 : ∀ poly, Forall (λ q, 2 ≤ List.length q) poly →
                       Forall (λ q : list coord, 1 < List.length q) poly).
  { intros poly H. eapply Forall_impl; [exact H|]. intros q Hq.
    simpl in Hq. lia. }
  destruct (coordinates_is_Some 0 poly1 p (H0 _ Hl1) Hp1)
    as (lon1 & x & Hlon1 & Hx & Hx1).
  destruct (coordinates_is_Some 1 poly1 p (H1 _ Hl1) Hp1)
    as (lat1 & y & Hlat1 & Hy & Hy1).
  destruct (coordinates_is_Some 0 poly2 p (H0 _ Hl2) Hp2)
    as (lon2 & x' & Hlon2 & Hx' & Hx2).
  destruct (coordinates_is_Some 1 poly2 p (H1 _ Hl2) Hp2)
    as (lat2 & y' & Hlat2 & Hy' & Hy2).
  assert (x' = x) as -> by congruence.
  assert (y' = y) as -> by congruence.
  destruct (py_min_least lon1 x Hx1) as (min_lon1 & Hmin_lon1 & ?).
  destruct (py_max_greatest lon1 x Hx1) as (max_lon1 & Hmax_lon1 & ?).
  destruct (py_min_least lat1 y Hy1) as (min_lat1 & Hmin_lat1 & ?).
  destruct (py_max_greatest lat1 y Hy1) as (max_lat1 & Hmax_lat1 & ?).
  destruct (py_min_least lon2 x Hx2) as (min_lon2 & Hmin_lon2 & ?).
  destruct (py_max_greatest lon2 x Hx2) as (max_lon2 & Hmax_lon2 & ?).
  destruct (py_min_least lat2 y Hy2) as (min_lat2 & Hmin_lat2 & ?).
  destruct (py_max_greatest lat2 y Hy2) as (max_lat2 & Hmax_lat2 & ?).
  unfold bounding_boxes_overlap.
  destruct poly1 as [|q1 poly1]; [by apply elem_of_nil in Hp1|].
  destruct poly2 as [|q2 poly2]; [by apply elem_of_nil in Hp2|].
  rewrite Hlon1, Hlat1, Hlon2, Hlat2. cbn [mbind option_bind].
  rewrite Hmin_lon1, Hmax_lon1, Hmin_lat1, Hmax_lat1,
    Hmin_lon2, Hmax_lon2, Hmin_lat2, Hmax_lat2. cbn [mbind option_bind].
  destruct (boxes_meet min_lon1 max_lon1 min_lon2 max_lon2 x)
    as [-> ->]; [done..|].
  destruct (boxes_meet min_lat1 max_lat1 min_lat2 max_lat2 y)
    as [-> ->]; [done..|].
  done.
Qed.
End BoxFacts.

(** X17.  Two polygons that share a position always pass the bounding
    box test, for coordinates that [<] orders totally, as it does the
    floats that are numbers. *)
Theorem polygons_sharing_a_position_pass_the_box_test
    {coord : Type} (lt : coord → coord → bool)
    (poly1 poly2 : list (list coord)) (p : list coord) :
  (∀ a, lt a a = false) →
  (∀ a b c, lt a b = true → lt b c = true → lt a c = true) →
  (∀ a b c, lt a b = true → lt a c = true ∨ lt c b = true) →
  Forall (λ q, 2 ≤ List.length q) poly1 →
  Forall (λ q, 2 ≤ List.length q) poly2 →
  p ∈ poly1 → p ∈ poly2 →
  Spatial.bounding_boxes_overlap lt poly1 poly2 = Some true.
Proof. intros. by eapply shared_position_overlap. Qed.

Lemma polygons_sharing_a_position_pass_the_box_test_witness :
  Spatial.bounding_boxes_overlap Z.ltb
    [[0; 0]; [2; 0]; [1; 1]]%Z [[1; 1]; [3; 1]; [2; 5]]%Z = Some true.
Proof.
  apply (polygons_sharing_a_position_pass_the_box_test Z.ltb _ _ [1; 1]%Z).
  - intros a. apply Z.ltb_irrefl.
  - intros a b c ?%Z.ltb_lt ?%Z.ltb_lt. apply Z.ltb_lt. lia.
  - intros a b c ?%Z.ltb_lt. rewrite !Z.ltb_lt. lia.
  - repeat constructor.
  - repeat constructor.
  - set_solver.
  - set_solver.
Defined.

(** ** Writing twice *)

Section RepeatFacts.
Import Graph Writer.

Lemma foldl_fixed {A} (op : graph → A → graph) g l :
  Forall (λ x, op g x = g) l → foldl op g l = g.
Proof.
  induction 1 as [|x l Hx _ IH]; [done|]. simpl. by rewrite Hx.
Qed.

Lemma merge_entity_fixed n g : n ∈ entities g → merge_entity n g = g.
Proof.
  intros Hn. destruct g as [es hs cs co vi]. unfold merge_entity. simpl in *.
  f_equal. apply subseteq_union_1_L. by apply singleton_subseteq_l.
Qed.

Lemma merge_context_fixed c p g :
  is_Some (contexts g !! c) → merge_context c p g = g.
Proof.
  intros [q Hq]. destruct g as [es hs cs co vi]. unfold merge_context.
  simpl in *. by rewrite Hq.
Qed.

Lemma merge_hyperedge_fixed h p g :
  is_Some (hyperedges g !! h) → merge_hyperedge h p g = g.
Proof.
  intros [q Hq]. destruct g as [es hs cs co vi]. unfold merge_hyperedge.
  simpl in *. by rewrite Hq.
Qed.

Lemma merge_connects_fixed h r n g :
  (h, r, n) ∈ connects g → merge_connects h r n g = g.
Proof. intros Hin. unfold merge_connects. by rewrite decide_True. Qed.

Lemma merge_valid_in_fixed h c g :
  (h, c) ∈ valid_in g → merge_valid_in h c g = g.
Proof. intros Hin. unfold merge_valid_in. by rewrite decide_True. Qed.

Lemma foldl_merge_entity_entities names g n :
  n ∈ entities (foldl (λ g' n, merge_entity n g') g names)
  ↔ n ∈ names ∨ n ∈ entities g.
Proof.
  revert g. induction names as [|m names IH]; intros g.
  { simpl. rewrite elem_of_nil. tauto. }
  simpl. rewrite IH, elem_of_cons. simpl.
  rewrite elem_of_union, elem_of_singleton. tauto.
Qed.

Lemma merge_contexts_entities cs g :
  entities (merge_contexts cs g) = entities g.
Proof.
  unfold merge_contexts. revert g.
  induction cs as [|c cs IH]; intros g; [done|].
  simpl. by rewrite IH.
Qed.

Lemma foldl_merge_connects_elem h r names g :
  let g' := foldl (λ g' n, merge_connects h r n g') g names in
  entities g' = entities g ∧ hyperedges g' = hyperedges g
  ∧ ∀ e, e ∈ connects g' ↔ e ∈ connects g ∨ ∃ n, n ∈ names ∧ e = (h, r, n).
Proof.
  revert g. induction names as [|n names IH]; intros g.
  { simpl. split; [done|]. split; [done|]. intros e. split; [tauto|].
    intros [?|(n & Hn & _)]; [done|]. by apply elem_of_nil in Hn. }
  simpl. destruct (IH (merge_connects h r n g)) as (-> & -> & He).
  assert (Hm : entities (merge_connects h r n g) = entities g
               ∧ hyperedges (merge_connects h r n g) = hyperedges g
               ∧ ∀ e, e ∈ connects (merge_connects h r n g)
                      ↔ e ∈ connects g ∨ e = (h, r, n)).
  { unfold merge_connects. case_decide as Hin.
    - split; [done|]. split; [done|]. intros e. split; [tauto|].
      by intros [?| ->].
    - split; [done|]. split; [done|]. intros e. simpl.
      rewrite elem_of_app, list_elem_of_singleton. tauto. }
  destruct Hm as (-> & -> & Hm). split; [done|]. split; [done|].
  intros e. rewrite He, Hm. split.
  - intros [[?| ->]|(m & Hm' & ->)]; [tauto| |].
    + right. exists n. split; [by left|done].
    + right. exists m. split; [by right|done].
  - intros [?|(m & Hm' & ->)]; [tauto|].
    apply elem_of_cons in Hm' as [->|Hm']; [tauto|].
    right. by exists m.
Qed.

Lemma foldl_merge_valid_in_entities h cs g :
  entities (foldl (λ g' c, merge_valid_in h c g') g cs) = entities g.
Proof.
  revert g. induction cs as [|c cs IH]; intros g; [done|].
  simpl. rewrite IH. unfold merge_valid_in. by case_decide.
Qed.

(** After the statement has run, each of its clauses finds what it
    looks for. *)
Lemma fresh_create_saturated f g :
  let h := fresh_hyperedge_id f in
  let G := fresh_create f g in
  (∀ n, n ∈ subjects f ∨ n ∈ objects f → n ∈ entities G)
  ∧ (∀ c, c ∈ (fresh_contexts f).*1 → is_Some (contexts G !! c))
  ∧ is_Some (hyperedges G !! h)
  ∧ (∀ n, n ∈ subjects f → (h, Subject, n) ∈ connects G)
  ∧ (∀ n, n ∈ objects f → (h, Object, n) ∈ connects G)
  ∧ (∀ c, c ∈ (fresh_contexts f).*1 → (h, c) ∈ valid_in G).
Proof.
  intros h G. unfold G, fresh_create. fold h.
  set (g1 := foldl (λ g' s, merge_entity s g') g (subjects f)).
  set (g2 := foldl (λ g' o, merge_entity o g') g1 (objects f)).
  set (g3 := merge_contexts (fresh_contexts f) g2).
  set (g4 := merge_hyperedge h _ g3).
  set (g5 := foldl (λ g' s, merge_connects h Subject s g') g4 (subjects f)).
  set (g6 := foldl (λ g' o, merge_connects h Object o g') g5 (objects f)).
  destruct (foldl_merge_valid_in_from h (fresh_contexts f).*1 g6)
    as [Hc7 He7].
  destruct (foldl_merge_valid_in h (fresh_contexts f).*1 g6) as [Hh7 Hco7].
  pose proof (foldl_merge_valid_in_entities h (fresh_contexts f).*1 g6)
    as Hen7.
  destruct (foldl_merge_connects_elem h Object (objects f) g5)
    as (Hen6 & Hh6 & Hco6).
  destruct (foldl_merge_connects_elem h Subject (subjects f) g4)
    as (Hen5 & Hh5 & Hco5).
  destruct (foldl_merge_connects_other h Object (objects f) g5) as [Hc6 _].
  destruct (foldl_merge_connects_other h Subject (subjects f) g4)
    as [Hc5 _].
  fold g6 in Hen6, Hh6, Hco6, Hc6. fold g5 in Hen5, Hh5, Hco5, Hc5.
  split; [|split; [|split; [|split; [|split]]]].
  - intros n Hn. rewrite Hen7, Hen6, Hen5.
    change (entities g4) with (entities g3). unfold g3.
    rewrite merge_contexts_entities. unfold g2.
    rewrite foldl_merge_entity_entities. unfold g1.
    rewrite foldl_merge_entity_entities. tauto.
  - intros c Hc. rewrite Hc7, Hc6, Hc5.
    change (contexts g4) with (contexts g3). unfold g3.
    apply merge_contexts_is_Some. by right.
  - rewrite Hh7, Hh6, Hh5. unfold g4, merge_hyperedge. simpl.
    destruct (hyperedges g3 !! h) as [p|] eqn:Hp; [by rewrite Hp|].
    rewrite lookup_insert_eq. eauto.
  - intros n Hn. rewrite Hco7. apply Hco6. left. apply Hco5. right.
    by exists n.
  - intros n Hn. rewrite Hco7. apply Hco6. right. by exists n.
  - intros c Hc. apply He7. by right.
Qed.
End RepeatFacts.

(** X18.  Running the statement that creates a hyperedge a second time
    leaves the graph as the first run left it. *)
Theorem fresh_create_twice (f : Writer.temporal_fact) (g : Graph.graph) :
  Writer.fresh_create f (Writer.fresh_create f g) = Writer.fresh_create f g.
Proof.
  destruct (fresh_create_saturated f g) as (Hen & Hc & Hh & Hs & Ho & Hv).
  cbv zeta in *.
  set (G := Writer.fresh_create f g) in *.
  unfold Writer.fresh_create at 1.
  rewrite (foldl_fixed _ G (Writer.subjects f)).
  2: { apply Forall_forall. intros n Hn. apply merge_entity_fixed.
       apply Hen. by left. }
  rewrite (foldl_fixed _ G (Writer.objects f)).
  2: { apply Forall_forall. intros n Hn. apply merge_entity_fixed.
       apply Hen. by right. }
  unfold Writer.merge_contexts.
  rewrite (foldl_fixed _ G (Writer.fresh_contexts f)).
  2: { apply Forall_forall. intros c Hin. apply merge_context_fixed.
       apply Hc. by apply list_elem_of_fmap_2. }
  rewrite merge_hyperedge_fixed by done.
  rewrite (foldl_fixed _ G (Writer.subjects f)).
  2: { apply Forall_forall. intros n Hn. by apply merge_connects_fixed, Hs. }
  rewrite (foldl_fixed _ G (Writer.objects f)).
  2: { apply Forall_forall. intros n Hn. by apply merge_connects_fixed, Ho. }
  apply foldl_fixed, Forall_forall. intros c Hin.
  by apply merge_valid_in_fixed, Hv.
Qed.

(** ** Writing and deleting *)

Section RoundTripFacts.
Import Graph Writer.

Lemma foldl_merge_connects_shape h r names g :
  ∃ new, connects (foldl (λ g' n, merge_connects h r n g') g names)
         = connects g ++ new
         ∧ Forall (λ e, e.1.1 = h) new.
Proof.
  revert g. induction names as [|n names IH]; intros g.
  { exists []. by rewrite app_nil_r. }
  simpl. destruct (IH (merge_connects h r n g)) as (new & -> & Hnew).
  unfold merge_connects. case_decide.
  - by exists new.
  - exists ((h, r, n) :: new). simpl. rewrite <- app_assoc.
    split; [done|]. by constructor.
Qed.

Lemma foldl_merge_valid_in_shape h cs g :
  ∃ new, valid_in (foldl (λ g' c, merge_valid_in h c g') g cs)
         = valid_in g ++ new
         ∧ Forall (λ e, e.1 = h) new.
Proof.
  revert g. induction cs as [|c cs IH]; intros g.
  { exists []. by rewrite app_nil_r. }
  simpl. destruct (IH (merge_valid_in h c g)) as (new & -> & Hnew).
  unfold merge_valid_in. case_decide.
  - by exists new.
  - exists ((h, c) :: new). simpl. rewrite <- app_assoc.
    split; [done|]. by constructor.
Qed.

Lemma merge_contexts_lookup cs g c :
  is_Some (contexts g !! c) →
  contexts (merge_contexts cs g) !! c = contexts g !! c.
Proof.
  unfold merge_contexts. revert g.
  induction cs as [|[id p] cs IH]; intros g Hc; [done|].
  cbn [foldl fst snd]. rewrite IH.
  - by apply merge_context_lookup.
  - by rewrite merge_context_lookup.
Qed.

Lemma filter_none {A} (P : A → bool) (l : list A) :
  Forall (λ x, P x = false) l → List.filter P l = [].
Proof. induction 1 as [|x l Hx _ IH]; [done|]. simpl. by rewrite Hx. Qed.

Lemma filter_keeps_old {A} (P : A → bool) (old new : list A) :
  Forall (λ x, P x = true) old → Forall (λ x, P x = false) new →
  List.filter P (old ++ new) = old.
Proof.
  intros Hold Hnew. rewrite List.filter_app, (filter_none P new) by done.
  rewrite app_nil_r. apply filter_all. intros x Hx.
  by apply (proj1 (Forall_forall _ _) Hold).
Qed.

Lemma delete_orphans_other cs g :
  connects (delete_orphans cs g) = connects g
  ∧ entities (delete_orphans cs g) = entities g.
Proof.
  unfold delete_orphans.
  generalize (List.filter (λ c, orphaned c g) cs). intros l. revert g.
  induction l as [|c l IH]; intros g; [done|].
  simpl. by destruct (IH (detach_delete_context c g)) as [-> ->].
Qed.

(** What the statement adds to a graph that has no such hyperedge. *)
Lemma fresh_create_shape f g :
  let h := fresh_hyperedge_id f in
  let G := fresh_create f g in
  hyperedges g !! h = None →
  (∃ p, hyperedges G = <[h := p]> (hyperedges g))
  ∧ (∃ new, connects G = connects g ++ new ∧ Forall (λ e, e.1.1 = h) new)
  ∧ (∃ new, valid_in G = valid_in g ++ new ∧ Forall (λ e, e.1 = h) new)
  ∧ (∀ c, is_Some (contexts g !! c) → contexts G !! c = contexts g !! c)
  ∧ (∀ c, is_Some (contexts G !! c) →
          is_Some (contexts g !! c) ∨ (h, c) ∈ valid_in G)
  ∧ (∀ n, n ∈ entities G
          ↔ n ∈ subjects f ∨ n ∈ objects f ∨ n ∈ entities g).
Proof.
  intros h G Hh.
  destruct (fresh_create_saturated f g) as (_ & _ & _ & _ & _ & Hv).
  cbv zeta in Hv. fold h G in Hv.
  unfold G, fresh_create. fold h.
  set (g1 := foldl (λ g' s, merge_entity s g') g (subjects f)).
  set (g2 := foldl (λ g' o, merge_entity o g') g1 (objects f)).
  set (g3 := merge_contexts (fresh_contexts f) g2).
  set (g4 := merge_hyperedge h _ g3).
  set (g5 := foldl (λ g' s, merge_connects h Subject s g') g4 (subjects f)).
  set (g6 := foldl (λ g' o, merge_connects h Object o g') g5 (objects f)).
  destruct (foldl_merge_valid_in_from h (fresh_contexts f).*1 g6)
    as [Hc7 He7].
  destruct (foldl_merge_valid_in h (fresh_contexts f).*1 g6) as [Hh7 Hco7].
  pose proof (foldl_merge_valid_in_entities h (fresh_contexts f).*1 g6)
    as Hen7.
  destruct (foldl_merge_valid_in_shape h (fresh_contexts f).*1 g6)
    as (xv & Hxv & Hxv_h).
  destruct (foldl_merge_connects_elem h Object (objects f) g5)
    as (Hen6 & Hh6 & _).
  destruct (foldl_merge_connects_elem h Subject (subjects f) g4)
    as (Hen5 & Hh5 & _).
  destruct (foldl_merge_connects_other h Object (objects f) g5)
    as [Hc6 Hv6].
  destruct (foldl_merge_connects_other h Subject (subjects f) g4)
    as [Hc5 Hv5].
  destruct (foldl_merge_connects_shape h Object (objects f) g5)
    as (xo & Hxo & Hxo_h).
  destruct (foldl_merge_connects_shape h Subject (subjects f) g4)
    as (xs & Hxs & Hxs_h).
  fold g6 in Hen6, Hh6, Hc6, Hv6, Hxo. fold g5 in Hen5, Hh5, Hc5, Hv5, Hxs.
  destruct (foldl_merge_entity (objects f) g1) as (Hh2 & Hc2 & Hco2 & Hv2).
  destruct (foldl_merge_entity (subjects f) g) as (Hh1 & Hc1 & Hco1 & Hv1).
  fold g2 in Hh2, Hc2, Hco2, Hv2. fold g1 in Hh1, Hc1, Hco1, Hv1.
  destruct (merge_contexts_other (fresh_contexts f) g2) as (Hh3 & Hco3 & Hv3).
  fold g3 in Hh3, Hco3, Hv3.
  assert (Hctx : contexts g6 = contexts g3) by (by rewrite Hc6, Hc5).
  split; [|split; [|split; [|split; [|split]]]].
  - eexists. rewrite Hh7, Hh6, Hh5. unfold g4, merge_hyperedge. simpl.
    by rewrite Hh3, Hh2, Hh1, Hh.
  - exists (xs ++ xo). split; [|by apply Forall_app].
    rewrite Hco7, Hxo, Hxs. change (connects g4) with (connects g3).
    by rewrite Hco3, Hco2, Hco1, app_assoc.
  - exists xv. split; [|done]. rewrite Hxv, Hv6, Hv5.
    change (valid_in g4) with (valid_in g3). by rewrite Hv3, Hv2, Hv1.
  - intros c Hc. rewrite Hc7, Hctx. unfold g3.
    rewrite merge_contexts_lookup; by rewrite Hc2, Hc1.
  - intros c Hc. rewrite Hc7, Hctx in Hc. unfold g3 in Hc.
    apply merge_contexts_is_Some in Hc as [Hc|Hc].
    + left. by rewrite Hc2, Hc1 in Hc.
    + right. by apply Hv.
  - intros n. rewrite Hen7, Hen6, Hen5.
    change (entities g4) with (entities g3). unfold g3.
    rewrite merge_contexts_entities. unfold g2.
    rewrite foldl_merge_entity_entities. unfold g1.
    rewrite foldl_merge_entity_entities. tauto.
Qed.
End RoundTripFacts.

(** X19.  In a store without orphaned contexts, creating a hyperedge
    that does not exist yet and then deleting it gives back the
    hyperedges, contexts and relationships there were; only the entity
    nodes of the fact stay. *)
Theorem delete_undoes_fresh_create
    (f : Writer.temporal_fact) (g : Graph.graph) :
  let h := Writer.fresh_hyperedge_id f in
  let g' := Writer.delete_hyperedge h (Writer.fresh_create f g) in
  Store.attached g → Graph.no_orphan_context g →
  Graph.hyperedges g !! h = None →
  Graph.hyperedges g' = Graph.hyperedges g
  ∧ Graph.contexts g' = Graph.contexts g
  ∧ Graph.connects g' = Graph.connects g
  ∧ Graph.valid_in g' = Graph.valid_in g
  ∧ ∀ n, n ∈ Graph.entities g'
         ↔ n ∈ Writer.subjects f ∨ n ∈ Writer.objects f
           ∨ n ∈ Graph.entities g.
Proof.
  intros h g' [Hco Hvi] Horphan Hh.
  destruct (fresh_create_shape f g Hh)
    as ([p Hhs] & (xc & Hxc & Hxc_h) & (xv & Hxv & Hxv_h) & Hold & Hnew
        & Hen).
  fold h in Hhs, Hxc, Hxc_h, Hxv, Hxv_h, Hold, Hnew, Hen.
  set (G := Writer.fresh_create f g) in *.
  assert (Hsrc_c : Forall (λ e : string * Graph.role * string, e.1.1 ≠ h)
                          (Graph.connects g)).
  { apply Forall_forall. intros e He Heq. apply Hco in He.
    rewrite Heq, Hh in He. by destruct He. }
  assert (Hsrc_v : Forall (λ e : string * string, e.1 ≠ h)
                          (Graph.valid_in g)).
  { apply Forall_forall. intros e He Heq. apply Hvi in He as [He _].
    rewrite Heq, Hh in He. by destruct He. }
  unfold g', Writer.delete_hyperedge. fold G.
  assert (HGh : Graph.hyperedges G !! h = Some p)
    by (rewrite Hhs; apply lookup_insert_eq).
  rewrite HGh.
  set (cs := h0 ← [h]; Graph.contexts_of h0 G).
  set (g1 := Graph.delete_valid_in [h] (λ _, true) G).
  assert (Hv1 : Graph.valid_in g1 = Graph.valid_in g).
  { unfold g1. simpl. rewrite Hxv. apply filter_keeps_old.
    - eapply Forall_impl; [exact Hsrc_v|]. intros e He. simpl.
      rewrite andb_true_r. apply negb_true_iff, bool_decide_eq_false.
      by rewrite list_elem_of_singleton.
    - eapply Forall_impl; [exact Hxv_h|]. intros e He. simpl.
      rewrite andb_true_r. apply negb_false_iff, bool_decide_eq_true.
      by rewrite list_elem_of_singleton. }
  destruct (delete_orphans_spec cs g1) as (Hv2 & Hh2 & Hc2).
  destruct (delete_orphans_other cs g1) as [Hco2 Hen2].
  rewrite Hh2. change (Graph.hyperedges g1) with (Graph.hyperedges G).
  rewrite HGh.
  split; [|split; [|split; [|split]]].
  - simpl. rewrite Hh2. change (Graph.hyperedges g1)
      with (Graph.hyperedges G). rewrite Hhs. by apply delete_insert_id.
  - simpl. apply map_eq. intros c. rewrite Hc2.
    change (Graph.contexts g1) with (Graph.contexts G).
    rewrite Hv1. case_decide as Hd.
    + destruct Hd as [_ Hd]. symmetry. apply eq_None_not_Some.
      intros Hs. by apply Hd, Horphan.
    + destruct (Graph.contexts g !! c) as [q|] eqn:Hq.
      * rewrite <- Hq. apply Hold. rewrite Hq. eauto.
      * apply eq_None_not_Some. intros Hs.
        apply Hnew in Hs as [Hs|Hs]; [rewrite Hq in Hs; by destruct Hs|].
        apply Hd. split.
        -- unfold cs. apply elem_of_rows_contexts. exists h.
           split; [by left|done].
        -- intros Hin. apply elem_of_targets in Hin as [h' Hin].
           apply Hvi in Hin as [_ Hin]. simpl in Hin. rewrite Hq in Hin.
           by destruct Hin.
  - simpl. rewrite Hco2. change (Graph.connects g1) with (Graph.connects G).
    rewrite Hxc. apply filter_keeps_old.
    + eapply Forall_impl; [exact Hsrc_c|]. intros e He. simpl.
      by apply negb_true_iff, bool_decide_eq_false.
    + eapply Forall_impl; [exact Hxc_h|]. intros e He. simpl.
      by apply negb_false_iff, bool_decide_eq_true.
  - simpl. rewrite Hv2, Hv1. apply filter_all. intros e He.
    apply negb_true_iff, bool_decide_eq_false.
    by apply (proj1 (Forall_forall _ _) Hsrc_v).
  - intros n. simpl. rewrite Hen2.
    change (Graph.entities g1) with (Graph.entities G). apply Hen.
Qed.

Lemma delete_undoes_fresh_create_witness :
  Graph.connects
    (Writer.delete_hyperedge (Writer.fresh_hyperedge_id Examples.john_likes)
       (Writer.fresh_create Examples.john_likes Graph.empty)) = []
  ∧ Graph.contexts
      (Writer.delete_hyperedge (Writer.fresh_hyperedge_id Examples.john_likes)
         (Writer.fresh_create Examples.john_likes Graph.empty)) = ∅.
Proof.
  destruct (delete_undoes_fresh_create Examples.john_likes Graph.empty)
    as (_ & Hc & Hco & _).
  - split; intros e He; by apply elem_of_nil in He.
  - intros c [p Hp]. simpl in Hp. by rewrite lookup_empty in Hp.
  - apply lookup_empty.
  - by split.
Defined.
